(** * The Guppy client session of src/guppy.c

    A shallow embedding of the reliable-delivery engine: the chunk
    reassembly buffer ([storeChunk_Guppy_]), the drain loop
    ([processChunks_Guppy_]), the response parser
    ([processResponse_Guppy]) and the retry timer ([retryGuppy_]).

    C [int] values are [Z]; [uint64_t] tick counts are [Z] with the
    wrap-around of the additions written out; blocks and strings are
    [string] (one [ascii] per byte); the array [d->chunks] is a list whose
    length is the array size. *)

From Stdlib Require Import ZArith String Ascii List Bool Lia DecimalString.
From stdpp Require Import base list.
Import ListNotations.
Local Open Scope Z_scope.

(** ** Data model *)

(** Modelled from the spec: the enumeration is declared in guppy.h, which
    is not part of the sources at hand.  guppy.c names the first seven
    values; the spec adds the timed-out state, which guppy.c never
    assigns. *)
Inductive iGuppyState : Set :=
| none_GuppyState
| inProgress_GuppyState
| invalidResponse_GuppyState
| inputRequired_GuppyState
| redirect_GuppyState
| error_GuppyState
| finished_GuppyState
| timedOut_GuppyState.

#[global] Instance iGuppyState_eq_dec : EqDecision iGuppyState.
Proof. intros x y; unfold Decision; decide equality. Defined.

Definition isInProgress (s : iGuppyState) : bool :=
  match s with inProgress_GuppyState => true | _ => false end.

(** One reorder slot: [seq = 0] marks a free slot. *)
Record iGuppyChunk : Set := mkChunk { seq : Z; data : string }.

Definition emptyChunk : iGuppyChunk := mkChunk 0 "".

#[global] Instance iGuppyChunk_eq_dec : EqDecision iGuppyChunk.
Proof.
  intros x y; unfold Decision; decide equality;
    [apply string_dec|apply Z.eq_dec].
Defined.

(** The fields of [struct Impl_Guppy] that guppy.c reads and writes.  The
    mutex is left out (calls are modelled as atomic), the socket and the
    timeout audience live in [World] below. *)
Record iGuppy : Type := mkGuppy {
  state : iGuppyState;
  url : string;
  meta : string;
  body : string;
  timer : Z;
  firstSent : Z;
  lastSent : Z;
  chunks : list iGuppyChunk;
  firstSeq : Z;
  lastSeq : Z;
  currentSeq : Z
}.

Definition set_state (v : iGuppyState) (d : iGuppy) : iGuppy :=
  mkGuppy v (url d) (meta d) (body d) (timer d) (firstSent d) (lastSent d)
          (chunks d) (firstSeq d) (lastSeq d) (currentSeq d).
Definition set_meta (v : string) (d : iGuppy) : iGuppy :=
  mkGuppy (state d) (url d) v (body d) (timer d) (firstSent d) (lastSent d)
          (chunks d) (firstSeq d) (lastSeq d) (currentSeq d).
Definition set_body (v : string) (d : iGuppy) : iGuppy :=
  mkGuppy (state d) (url d) (meta d) v (timer d) (firstSent d) (lastSent d)
          (chunks d) (firstSeq d) (lastSeq d) (currentSeq d).
Definition set_timer (v : Z) (d : iGuppy) : iGuppy :=
  mkGuppy (state d) (url d) (meta d) (body d) v (firstSent d) (lastSent d)
          (chunks d) (firstSeq d) (lastSeq d) (currentSeq d).
Definition set_firstSent (v : Z) (d : iGuppy) : iGuppy :=
  mkGuppy (state d) (url d) (meta d) (body d) (timer d) v (lastSent d)
          (chunks d) (firstSeq d) (lastSeq d) (currentSeq d).
Definition set_lastSent (v : Z) (d : iGuppy) : iGuppy :=
  mkGuppy (state d) (url d) (meta d) (body d) (timer d) (firstSent d) v
          (chunks d) (firstSeq d) (lastSeq d) (currentSeq d).
Definition set_chunks (v : list iGuppyChunk) (d : iGuppy) : iGuppy :=
  mkGuppy (state d) (url d) (meta d) (body d) (timer d) (firstSent d)
          (lastSent d) v (firstSeq d) (lastSeq d) (currentSeq d).
Definition set_firstSeq (v : Z) (d : iGuppy) : iGuppy :=
  mkGuppy (state d) (url d) (meta d) (body d) (timer d) (firstSent d)
          (lastSent d) (chunks d) v (lastSeq d) (currentSeq d).
Definition set_lastSeq (v : Z) (d : iGuppy) : iGuppy :=
  mkGuppy (state d) (url d) (meta d) (body d) (timer d) (firstSent d)
          (lastSent d) (chunks d) (firstSeq d) v (currentSeq d).
Definition set_currentSeq (v : Z) (d : iGuppy) : iGuppy :=
  mkGuppy (state d) (url d) (meta d) (body d) (timer d) (firstSent d)
          (lastSent d) (chunks d) (firstSeq d) (lastSeq d) v.

Definition INT_MAX : Z := 2147483647.

(** [uint64_t] arithmetic of the tick counters. *)
Definition wrap64 (z : Z) : Z := z mod 2 ^ 64.

(** [init_Guppy]; [n] is the number of elements of [d->chunks] (the array
    is declared in guppy.h) and [u] the request target, which the owner of
    the session stores in [d->url] before opening it. *)
Definition init_Guppy (n : nat) (u : string) : iGuppy :=
  {| state := none_GuppyState; url := u; meta := ""; body := "";
     timer := 0; firstSent := 0; lastSent := 0;
     chunks := replicate n emptyChunk;
     firstSeq := 0; lastSeq := 0; currentSeq := 0 |}.

(** ** The world around a session

    What guppy.c reaches through pointers and library calls: the lines
    written to the socket and the timeout notifications, in the order they
    happened, and whether SDL still holds a periodic timer for the session
    ([SDL_AddTimer] registers it, [SDL_RemoveTimer] or a callback returning
    0 removes it). *)
Inductive Event : Set :=
| Written (line : string)
| GuppyTimeout.

Record World : Type := mkWorld {
  guppy : iGuppy;
  trace : list Event;
  sdlTimer : bool
}.

Definition on_guppy (f : iGuppy -> iGuppy) (w : World) : World :=
  mkWorld (f (guppy w)) (trace w) (sdlTimer w).
Definition emit (e : Event) (w : World) : World :=
  mkWorld (guppy w) (trace w ++ [e]) (sdlTimer w).
Definition set_sdlTimer (b : bool) (w : World) : World :=
  mkWorld (guppy w) (trace w) b.

Definition CRLF : string := String "013" (String "010" EmptyString).

(** printf's [%d]. *)
Definition format_int (z : Z) : string := NilZero.string_of_int (Z.to_int z).

(** [request_Guppy_] and [ack_Guppy_]: one line written to the socket. *)
Definition request_Guppy_ (w : World) : World :=
  emit (Written (url (guppy w) ++ CRLF)%string) w.

Definition ack_Guppy_ (w : World) (sq : Z) : World :=
  emit (Written (format_int sq ++ CRLF)%string) w.

(** The result of [status_Socket]; guppy.c only tells the connected status
    from all others. *)
Inductive iSocketStatus : Set :=
| connected_SocketStatus
| other_SocketStatus.

Definition isConnected (s : iSocketStatus) : bool :=
  match s with connected_SocketStatus => true | _ => false end.

(** ** The retry timer *)

(** [retryGuppy_]: the timer callback.  [now] is [SDL_GetTicks64()],
    [status] is [status_Socket(d->socket)]; the second component is the
    returned interval (0 tells SDL to drop the timer). *)
Definition retryGuppy_ (w : World) (now : Z) (status : iSocketStatus)
  : World * Z :=
  let d := guppy w in
  if wrap64 (firstSent d + 6000) <=? now then
    (emit GuppyTimeout w, 0)
  else if (firstSeq d =? 0) && isConnected status
          && (wrap64 (lastSent d + 1000) <=? now) then
    (on_guppy (set_lastSent now) (request_Guppy_ w), 100)
  else if negb (currentSeq d =? 0) && (wrap64 (lastSent d + 500) <=? now) then
    (on_guppy (set_lastSent now) (ack_Guppy_ w (currentSeq d)), 100)
  else (w, 100).

(** One firing of the SDL timer: nothing happens once the timer is gone. *)
Definition tick (w : World) (now : Z) (status : iSocketStatus) : World :=
  if sdlTimer w then
    let '(w', interval) := retryGuppy_ w now status in
    if interval =? 0 then set_sdlTimer false w' else w'
  else w.

(** [open_Guppy]; [now] is [SDL_GetTicks64()], the new timer id is 1. *)
Definition open_Guppy (w : World) (now : Z) : World :=
  let w1 := request_Guppy_ (on_guppy (set_state inProgress_GuppyState) w) in
  let w2 := on_guppy (set_lastSent now) w1 in
  let w3 := if firstSent (guppy w2) =? 0
            then on_guppy (set_firstSent (lastSent (guppy w2))) w2 else w2 in
  if timer (guppy w3) =? 0
  then set_sdlTimer true (on_guppy (set_timer 1) w3)
  else w3.

(** [cancel_Guppy]: [SDL_RemoveTimer (d->timer)] removes the session's
    timer when [d->timer] is its id, and nothing when it is 0. *)
Definition cancel_Guppy (w : World) : World :=
  on_guppy (set_timer 0)
           (set_sdlTimer (sdlTimer w && (timer (guppy w) =? 0)) w).

(** ** Admission into the reassembly buffer *)

(** A slot the test of line 127 lets the scan reuse: free, or holding a
    sequence number outside the known window. *)
Definition reusable (fSeq lSeq : Z) (c : iGuppyChunk) : bool :=
  (seq c =? 0)
  || ((fSeq >? 0) && (seq c <? fSeq))
  || ((lSeq >? 0) && (seq c >? lSeq)).

(** The [for] loop of [storeChunk_Guppy_] from index [i] on, over the
    remaining slots [cs]; the result is [(found, slot, maxSeqSlot)]. *)
Fixpoint storeChunk_scan (fSeq lSeq sq : Z) (cs : list iGuppyChunk) (i : nat)
         (slot maxSeq maxSeqSlot : Z) : bool * Z * Z :=
  match cs with
  | [] => (false, slot, maxSeqSlot)
  | c :: rest =>
      if seq c =? sq then (true, slot, maxSeqSlot)
      else
        let slot' :=
          if (slot <? 0) && reusable fSeq lSeq c
          then Z.of_nat i else slot in
        if seq c >? maxSeq
        then storeChunk_scan fSeq lSeq sq rest (S i) slot' (seq c) (Z.of_nat i)
        else storeChunk_scan fSeq lSeq sq rest (S i) slot' maxSeq maxSeqSlot
  end.

(** The window test that makes [storeChunk_Guppy_] return early. *)
Definition outOfWindow (d : iGuppy) (sq : Z) : bool :=
  (negb (currentSeq d =? 0) && (sq <=? currentSeq d))
  || (negb (firstSeq d =? 0) && (sq <? firstSeq d))
  || (negb (lastSeq d =? 0) && (sq >? lastSeq d)).

(** Lines 111-113: the first sequence number below [INT_MAX] becomes
    [firstSeq]. *)
Definition noteFirstSeq (d : iGuppy) (sq : Z) : iGuppy :=
  if (firstSeq d =? 0) && (sq <? INT_MAX) then set_firstSeq sq d else d.

(** [storeChunk_Guppy_ (d, seq, data, size)]; the payload [payload] carries
    its own size. *)
Definition storeChunk_Guppy_ (d : iGuppy) (sq : Z) (payload : string) : iGuppy :=
  let d1 := noteFirstSeq d sq in
  if (lastSeq d1 =? 0) && (String.length payload =? 0)%nat then
    set_lastSeq sq d1
  else if outOfWindow d1 sq then d1
  else
    let '(found, slot, maxSeqSlot) :=
      storeChunk_scan (firstSeq d1) (lastSeq d1) sq (chunks d1) 0 (-1) (-1) (-1) in
    if found then d1
    else
      let slot' := if (sq =? firstSeq d1) && (slot <? 0)
                   then maxSeqSlot else slot in
      if 0 <=? slot'
      then set_chunks (<[Z.to_nat slot' := mkChunk sq payload]> (chunks d1)) d1
      else d1.

(** ** Draining consecutive chunks *)

(** The test of line 154 on slot [c]. *)
Definition deliverable (fSeq cur : Z) (c : iGuppyChunk) : bool :=
  (negb (cur =? 0) && (cur <? INT_MAX) && (seq c =? cur + 1))
  || ((cur =? 0) && (fSeq >? 0) && (seq c =? fSeq)).

(** One run of the [for] loop of [processChunks_Guppy_] from index [i] on,
    over the remaining slots [cs] of an array of [n] slots.  The result is
    the new slots, [d->currentSeq], [again], and the chunks handed to
    [append_Block] in this run, in order. *)
Fixpoint processChunks_scan (n : nat) (fSeq : Z) (i : nat)
         (cs : list iGuppyChunk) (cur : Z) (again : bool)
  : list iGuppyChunk * Z * bool * list iGuppyChunk :=
  match cs with
  | [] => ([], cur, again, [])
  | c :: rest =>
      if deliverable fSeq cur c then
        let '(rest', cur', again', log) :=
          processChunks_scan n fSeq (S i) rest (seq c) (i <? n - 1)%nat in
        (emptyChunk :: rest', cur', again', c :: log)
      else
        let '(rest', cur', again', log) :=
          processChunks_scan n fSeq (S i) rest cur again in
        (c :: rest', cur', again', log)
  end.

(** The payloads of a run, concatenated as [append_Block] leaves them. *)
Definition payloads (log : list iGuppyChunk) : string :=
  fold_right (fun c acc => (data c ++ acc)%string) ""%string log.

(** One iteration of the [do ... while] body. *)
Definition processChunks_pass (d : iGuppy) : iGuppy * bool * list iGuppyChunk :=
  let '(cs', cur', again, log) :=
    processChunks_scan (length (chunks d)) (firstSeq d) 0 (chunks d)
                       (currentSeq d) false in
  (set_body (body d ++ payloads log)%string
     (set_currentSeq cur' (set_chunks cs' d)), again, log).

(** Every delivery lowers this measure, so a pass that asks for another
    one has lowered it. *)
Definition occupied (cs : list iGuppyChunk) : nat :=
  length (filter (fun c => seq c <> 0) cs).

Definition drainMeasure (cs : list iGuppyChunk) (cur : Z) : nat :=
  (2 * occupied cs + (if (cur <? 0)%Z then 1 else 0))%nat.

(** The [do ... while (again)] loop, with a bound on the iterations. *)
Fixpoint processChunks_loop (fuel : nat) (d : iGuppy)
  : iGuppy * list iGuppyChunk :=
  match fuel with
  | O => (d, [])
  | S fuel' =>
      let '(d', again, log) := processChunks_pass d in
      if again then
        let '(d'', log') := processChunks_loop fuel' d' in (d'', log ++ log')
      else (d', log)
  end.

(** [processChunks_Guppy_]: the loop, then the end-of-stream test.  The
    second component lists the chunks appended to the body;
    [*notifyUpdate] is set exactly when it is not empty. *)
Definition processChunks_Guppy_ (d : iGuppy) : iGuppy * list iGuppyChunk :=
  let '(d', log) :=
    processChunks_loop (S (drainMeasure (chunks d) (currentSeq d))) d in
  (if negb (lastSeq d' =? 0) && (currentSeq d' =? lastSeq d' - 1)
   then set_state finished_GuppyState d' else d', log).

(** ** The response parser *)

Definition isDigit (c : ascii) : bool :=
  (48 <=? nat_of_ascii c)%nat && (nat_of_ascii c <=? 57)%nat.

(** The longest prefix of [s] whose characters satisfy [p], and the rest. *)
Fixpoint span (p : ascii -> bool) (s : string) : string * string :=
  match s with
  | EmptyString => (EmptyString, EmptyString)
  | String c s' =>
      if p c then let '(a, b) := span p s' in (String c a, b)
      else (EmptyString, s)
  end.

Definition notLineFeed (c : ascii) : bool := negb (Ascii.eqb c "010").

(** [matchString_RegExp] for the pattern of line 179 (anchored at the
    start: one or more digits, captured, then any characters, captured):
    the two captured groups, when the header starts with a digit.  The dot
    of the pattern stops at a line feed. *)
Definition matchString_RegExp (header : string) : option (string * string) :=
  let '(digits, rest) := span isDigit header in
  if (String.length digits =? 0)%nat then None
  else Some (digits, fst (span notLineFeed rest)).

Fixpoint decimal (acc : Z) (s : string) : Z :=
  match s with
  | EmptyString => acc
  | String c s' => decimal (10 * acc + (Z.of_nat (nat_of_ascii c) - 48)) s'
  end.

Definition LONG_MAX : Z := 2 ^ 63 - 1.

(** Conversion of a C [long] to [int]. *)
Definition toInt32 (z : Z) : Z := (z + 2 ^ 31) mod 2 ^ 32 - 2 ^ 31.

(** [toInt_String] on a string of digits: the C library reads a [long],
    saturating at [LONG_MAX], and the result is narrowed to [int]. *)
Definition toInt_String (s : string) : Z :=
  toInt32 (Z.min (decimal 0 s) LONG_MAX).

(** [indexOfCStr_String]: position of the first occurrence, if any. *)
Definition indexOfCStr_String (s pat : string) : option nat :=
  String.index 0 pat s.

(** [mid_String (s, start, count)]; headers are taken to be ASCII, one
    character per byte. *)
Definition mid_String (s : string) (start count : nat) : string :=
  String.substring start count s.

(** Lines 186-214: the first recognised header is a status line.  [sq] is
    the number read from the first group and [captured] the second group. *)
Definition statusLine_ (d : iGuppy) (sq : Z) (captured : string) : iGuppy :=
  let metaLength := String.length captured in
  let meta' := if (0 <? metaLength)%nat
               then mid_String captured 1 (metaLength - 1) else captured in
  if (sq =? 0) || (sq =? 5) then set_state invalidResponse_GuppyState d
  else if sq =? 1 then set_meta meta' (set_state inputRequired_GuppyState d)
  else if sq =? 3 then set_meta meta' (set_state redirect_GuppyState d)
  else if sq =? 4 then set_state error_GuppyState d
  else set_meta meta' (set_state inProgress_GuppyState d).

(** Lines 183-225: what a header does before the drain. *)
Definition processHeader_ (w : World) (header payload : string) (now : Z)
  : World :=
  match matchString_RegExp header with
  | Some (c1, c2) =>
      let sq := toInt_String c1 in
      let w1 := if firstSeq (guppy w) =? 0
                then on_guppy (fun d => statusLine_ d sq c2) w else w in
      if 6 <=? sq then
        let w2 := on_guppy (set_lastSent now) (ack_Guppy_ w1 sq) in
        if isInProgress (state (guppy w2))
        then on_guppy (fun d => storeChunk_Guppy_ d sq payload) w2
        else w2
      else w1
  | None => on_guppy (set_state invalidResponse_GuppyState) w
  end.

(** Lines 232-234: a session that is no longer in progress is cancelled. *)
Definition cancelUnlessInProgress (w : World) : World :=
  if isInProgress (state (guppy w)) then w else cancel_Guppy w.

(** [processResponse_Guppy]: [bytes] is what [readAll_Socket] returned and
    [now] is [SDL_GetTicks64()].  The second component tells whether
    [*notifyUpdate] was set; the returned state is the state of the
    resulting session. *)
Definition processResponse_Guppy (w : World) (bytes : string) (now : Z)
  : World * bool :=
  let '(w1, updated) :=
    if (String.length bytes =? 0)%nat then (w, false)
    else
      match indexOfCStr_String bytes CRLF with
      | None => (w, false)
      | Some crlf =>
          let header := String.substring 0 crlf bytes in
          let payload :=
            String.substring (crlf + 2) (String.length bytes - crlf - 2) bytes in
          let w2 := processHeader_ w header payload now in
          let '(d', log) := processChunks_Guppy_ (guppy w2) in
          (mkWorld d' (trace w2) (sdlTimer w2), negb (length log =? 0)%nat)
      end in
  (cancelUnlessInProgress w1, updated).

Definition process (w : World) (bytes : string) (now : Z) : World :=
  fst (processResponse_Guppy w bytes now).

(** A session created by [init_Guppy] and opened at time [now]. *)
Definition opened (n : nat) (u : string) (now : Z) : World :=
  open_Guppy (mkWorld (init_Guppy n u) [] false) now.

(** Every slot is occupied by a chunk inside the window, and none holds
    [sq]. *)
Definition fullOfOthers (d : iGuppy) (sq : Z) : Prop :=
  Forall (fun c => seq c <> 0 /\ firstSeq d <= seq c
                   /\ (lastSeq d = 0 \/ seq c <= lastSeq d)
                   /\ seq c <> sq) (chunks d).

(** ** Invariants of the reassembly buffer *)

(** The sequence numbers held by occupied slots, in slot order. *)
Definition occupiedSeqs (cs : list iGuppyChunk) : list Z :=
  filter (fun z => z <> 0) (seq <$> cs).

(** An occupied slot holds a number above what was delivered and not below
    the start of the window; before [firstSeq] is known only [INT_MAX] and
    above can be buffered. *)
Definition ahead (fSeq cur : Z) (c : iGuppyChunk) : Prop :=
  seq c <> 0 ->
  cur < seq c /\ (if fSeq =? 0 then INT_MAX <= seq c else fSeq <= seq c).

Record BufferInv (d : iGuppy) : Prop := mkBufferInv {
  inv_first : 0 <= firstSeq d;
  inv_current : currentSeq d = 0 \/ (0 < firstSeq d /\ firstSeq d <= currentSeq d);
  inv_ahead : Forall (ahead (firstSeq d) (currentSeq d)) (chunks d);
  inv_nodup : NoDup (occupiedSeqs (chunks d))
}.

(** ** Sequences of admissions and drains *)

Inductive BufferOp : Set :=
| Admit (sq : Z) (payload : string)
| Drain.

(** A session together with every chunk appended to its body so far. *)
Definition applyOp (st : iGuppy * list iGuppyChunk) (op : BufferOp)
  : iGuppy * list iGuppyChunk :=
  match op with
  | Admit sq payload => (storeChunk_Guppy_ (fst st) sq payload, snd st)
  | Drain => let '(d', log) := processChunks_Guppy_ (fst st) in
             (d', snd st ++ log)
  end.

Definition runOps (ops : list BufferOp) (st : iGuppy * list iGuppyChunk)
  : iGuppy * list iGuppyChunk :=
  fold_left applyOp ops st.

(** The number the drain waits for. *)
Definition nextSeq (fSeq cur : Z) : Z := if cur =? 0 then fSeq else cur + 1.

(** [log] is what the body [b0] has received: consecutive numbers from
    [firstSeq] up to [currentSeq]. *)
Definition Delivered (b0 : string) (st : iGuppy * list iGuppyChunk) : Prop :=
  let '(d, log) := st in
  0 <= currentSeq d
  /\ body d = (b0 ++ payloads log)%string
  /\ seq <$> log = seqZ (firstSeq d) (Z.of_nat (length log))
  /\ (log = [] -> currentSeq d = 0)
  /\ (log <> [] ->
      0 < firstSeq d /\ currentSeq d = firstSeq d + Z.of_nat (length log) - 1).

(** A sequence of reads, each with the time it is processed at. *)
Definition processAll (reads : list (string * Z)) (w : World) : World :=
  fold_left (fun w r => process w (fst r) (snd r)) reads w.

(** The [do ... while (again)] loop as it runs in C: passes are repeated
    until one leaves [again] false. *)
Inductive doWhile : iGuppy -> iGuppy -> list iGuppyChunk -> Prop :=
| doWhile_stop d d' log :
    processChunks_pass d = (d', false, log) -> doWhile d d' log
| doWhile_again d d' d'' log log' :
    processChunks_pass d = (d', true, log) ->
    doWhile d' d'' log' -> doWhile d d'' (log ++ log').

(** The captured remainder without its leading separator. *)
Definition withoutSeparator (captured : string) : string :=
  match captured with
  | EmptyString => EmptyString
  | String _ rest => rest
  end.

(** The values the [switch] of line 191 has a [case] for. *)
Definition isStatusCode (sq : Z) : bool :=
  (sq =? 0) || (sq =? 1) || (sq =? 3) || (sq =? 4) || (sq =? 5).

(** ** Runs of a session *)

(** What can happen to an opened session: the timer fires, bytes arrive, or
    the owner cancels. *)
Inductive Input : Set :=
| Tick (now : Z) (status : iSocketStatus)
| Read (bytes : string) (now : Z)
| Cancel.

Definition step (w : World) (i : Input) : World :=
  match i with
  | Tick now status => tick w now status
  | Read bytes now => process w bytes now
  | Cancel => cancel_Guppy w
  end.

Definition run (inputs : list Input) (w : World) : World :=
  fold_left step inputs w.

Definition ticks (l : list (Z * iSocketStatus)) : list Input :=
  map (fun p => Tick (fst p) (snd p)) l.

(** The number of timeout notifications in a trace. *)
Fixpoint timeouts (tr : list Event) : nat :=
  match tr with
  | [] => 0
  | GuppyTimeout :: tr' => S (timeouts tr')
  | Written _ :: tr' => timeouts tr'
  end.

(** While the timer is registered no timeout has been notified, and there
    is never more than one. *)
Definition timeoutInv (w : World) : Prop :=
  (sdlTimer w = true -> timeouts (trace w) = 0%nat)
  /\ (timeouts (trace w) <= 1)%nat.

(** ** The whole interface of a session *)

(** [deinit_Guppy]: the timer is removed when [d->timer] is set (the field
    itself is left as it is); releasing the blocks and the audience has no
    counterpart here. *)
Definition deinit_Guppy (w : World) : World :=
  set_sdlTimer (sdlTimer w && (timer (guppy w) =? 0)) w.

(** A session as [init_Guppy] leaves it: nothing written, no timer. *)
Definition created (n : nat) (u : string) : World :=
  mkWorld (init_Guppy n u) [] false.

(** The calls an owner and SDL make on a live session. *)
Inductive Call : Set :=
| OpenCall (now : Z)
| TimerCall (now : Z) (status : iSocketStatus)
| ReadCall (bytes : string) (now : Z)
| CancelCall.

Definition call (w : World) (c : Call) : World :=
  match c with
  | OpenCall now => open_Guppy w now
  | TimerCall now status => tick w now status
  | ReadCall bytes now => process w bytes now
  | CancelCall => cancel_Guppy w
  end.

Definition calls (l : list Call) (w : World) : World := fold_left call l w.

(** Chunks [s], [s + 1], ... admitted in order, each followed by a drain,
    and then the terminator. *)
Fixpoint inOrderOps (s : Z) (ps : list string) : list BufferOp :=
  match ps with
  | [] => [Admit s ""; Drain]
  | p :: ps' => Admit s p :: Drain :: inOrderOps (s + 1) ps'
  end.

Definition concatAll (ps : list string) : string :=
  fold_right String.append ""%string ps.

(** A slot after a drain: untouched, or freed with its chunk appended. *)
Definition keptOrAppended (log : list iGuppyChunk) (c c' : iGuppyChunk) : Prop :=
  c' = c \/ (c' = emptyChunk /\ c ∈ log).

(** Two sessions with the same buffer, watermarks and body: they may
    differ in state, metadata and the timer fields. *)
Definition sameBuffer (d e : iGuppy) : Prop :=
  chunks e = chunks d /\ firstSeq e = firstSeq d /\ lastSeq e = lastSeq d
  /\ currentSeq e = currentSeq d /\ body e = body d.

Definition timerCalls (l : list (Z * iSocketStatus)) : list Call :=
  map (fun p => TimerCall (fst p) (snd p)) l.

(** The line a read makes the session write: the acknowledgment of the
    header's number when that is 6 or more. *)
Definition ackOfRead (bytes : string) : list Event :=
  match indexOfCStr_String bytes CRLF with
  | Some crlf =>
      match matchString_RegExp (String.substring 0 crlf bytes) with
      | Some (c1, _) =>
          if 6 <=? toInt_String c1
          then [Written (format_int (toInt_String c1) ++ CRLF)%string]
          else []
      | None => []
      end
  | None => []
  end.

(** ** A session whose first chunk had no payload *)

(** The window is the single number [s], nothing was delivered, every slot
    is free and the body is [b0]. *)
Definition StalledIdle (s : Z) (b0 : string) (d : iGuppy) : Prop :=
  firstSeq d = s /\ lastSeq d = s /\ currentSeq d = 0 /\ body d = b0
  /\ Forall (fun c => seq c = 0) (chunks d)
  /\ state d <> finished_GuppyState.

(** The window is the single number [s], chunk [s] was delivered, every
    slot is free and the body is [b]. *)
Definition StalledDone (s : Z) (b : string) (d : iGuppy) : Prop :=
  firstSeq d = s /\ lastSeq d = s /\ currentSeq d = s /\ body d = b
  /\ Forall (fun c => seq c = 0) (chunks d)
  /\ state d <> finished_GuppyState.

(** The chunk a read hands to [storeChunk_Guppy_] when the session is in
    progress: the number of the header, when it is 6 or more, and the bytes
    after the line terminator (lines 216-220). *)
Definition chunkOfRead (bytes : string) : option (Z * string) :=
  match indexOfCStr_String bytes CRLF with
  | Some crlf =>
      match matchString_RegExp (String.substring 0 crlf bytes) with
      | Some (c1, _) =>
          if 6 <=? toInt_String c1
          then Some (toInt_String c1,
                     String.substring (crlf + 2)
                       (String.length bytes - crlf - 2) bytes)
          else None
      | None => None
      end
  | None => None
  end.

(** ** What every read leaves behind *)

(** Between two calls: before [firstSeq] is known the terminator can only
    be [INT_MAX]; once it is known and nothing was delivered, the first
    chunk was taken for the terminator (or the array has no slot), and the
    slots are free or hold numbers outside the window. *)
Definition Settled (d : iGuppy) : Prop :=
  BufferInv d
  /\ (firstSeq d = 0 -> lastSeq d = 0 \/ INT_MAX <= lastSeq d)
  /\ (firstSeq d <> 0 -> currentSeq d = 0 ->
      Forall (fun c => reusable (firstSeq d) (lastSeq d) c = true) (chunks d)
      /\ (chunks d = [] \/ lastSeq d = firstSeq d)).

(** * Verified properties *)

(** ** Facts about the admission scan *)

Section StoreScan.
Variables (fSeq lSeq sq : Z).

Lemma storeChunk_scan_found (cs : list iGuppyChunk) :
  forall i slot mx ms,
    Exists (fun c => seq c = sq) cs ->
    fst (fst (storeChunk_scan fSeq lSeq sq cs i slot mx ms)) = true.
Proof.
  induction cs as [|c cs IH]; intros i slot mx ms Hex.
  - inversion Hex.
  - simpl. destruct (seq c =? sq) eqn:E; [reflexivity|].
    apply Z.eqb_neq in E.
    inversion Hex; subst; [contradiction|].
    destruct (seq c >? mx); apply IH; assumption.
Qed.

Lemma storeChunk_scan_not_found (cs : list iGuppyChunk) :
  forall i slot mx ms,
    Forall (fun c => seq c <> sq) cs ->
    fst (fst (storeChunk_scan fSeq lSeq sq cs i slot mx ms)) = false.
Proof.
  induction cs as [|c cs IH]; intros i slot mx ms Hall; [reflexivity|].
  inversion Hall; subst. simpl.
  destruct (seq c =? sq) eqn:E; [apply Z.eqb_eq in E; contradiction|].
  destruct (seq c >? mx); apply IH; assumption.
Qed.

(** With no reusable slot the scan keeps the [slot] it started with. *)
Lemma storeChunk_scan_no_slot (cs : list iGuppyChunk) :
  forall i slot mx ms,
    Forall (fun c => reusable fSeq lSeq c = false) cs ->
    snd (fst (storeChunk_scan fSeq lSeq sq cs i slot mx ms)) = slot.
Proof.
  induction cs as [|c cs IH]; intros i slot mx ms Hall; [reflexivity|].
  inversion Hall as [|? ? Hc Hcs]; subst. simpl.
  destruct (seq c =? sq); [reflexivity|].
  rewrite Hc, andb_false_r.
  destruct (seq c >? mx); apply IH; assumption.
Qed.

(** The slot the scan proposes is nonnegative only if it is a position of
    the array. *)
(** The eviction candidate: either the one the scan started with, when no
    slot beats [mx], or the position of a slot that holds the highest
    sequence number. *)
Lemma storeChunk_scan_max (cs : list iGuppyChunk) :
  forall i slot mx ms,
    Forall (fun c => seq c <> sq) cs ->
    let r := snd (storeChunk_scan fSeq lSeq sq cs i slot mx ms) in
    (r = ms /\ Forall (fun c => seq c <= mx) cs)
    \/ (exists j c, cs !! j = Some c /\ r = Z.of_nat (i + j) /\ mx < seq c
                    /\ Forall (fun c' => seq c' <= seq c) cs).
Proof.
  induction cs as [|c cs IH]; intros i slot mx ms Hall; simpl.
  - left; split; [reflexivity|constructor].
  - inversion Hall as [|? ? Hc Hcs]; subst.
    destruct (seq c =? sq) eqn:E; [apply Z.eqb_eq in E; contradiction|].
    match goal with |- context [if ?b then Z.of_nat i else slot] =>
      set (slot' := if b then Z.of_nat i else slot) end.
    destruct (seq c >? mx) eqn:Hgt.
    + apply Z.gtb_lt in Hgt. right.
      destruct (IH (S i) slot' (seq c) (Z.of_nat i) Hcs) as [[Hr Hle]|(j & c' & Hj & Hr & Hlt & Hle)].
      * exists 0%nat, c. rewrite Hr. repeat split; [f_equal; lia|lia|].
        constructor; [lia|assumption].
      * exists (S j), c'. rewrite Hr. repeat split; [assumption|f_equal; lia|lia|].
        constructor; [lia|assumption].
    + assert (seq c <= mx) by (destruct (Z.gtb_spec (seq c) mx); [discriminate|lia]).
      destruct (IH (S i) slot' mx ms Hcs) as [[Hr Hle]|(j & c' & Hj & Hr & Hlt & Hle)].
      * left. split; [assumption|]. constructor; assumption.
      * right. exists (S j), c'. rewrite Hr.
        repeat split; [assumption|f_equal; lia|lia|].
        constructor; [lia|assumption].
Qed.
(** A slot already chosen is kept. *)
Lemma storeChunk_scan_kept_slot (cs : list iGuppyChunk) :
  forall i slot mx ms,
    0 <= slot ->
    snd (fst (storeChunk_scan fSeq lSeq sq cs i slot mx ms)) = slot.
Proof.
  induction cs as [|c cs IH]; intros i slot mx ms Hs; [reflexivity|].
  simpl. destruct (seq c =? sq); [reflexivity|].
  replace (slot <? 0) with false by (symmetry; apply Z.ltb_ge; lia).
  simpl. destruct (seq c >? mx); apply IH; assumption.
Qed.

Lemma storeChunk_scan_missing (cs : list iGuppyChunk) :
  forall i slot mx ms,
    fst (fst (storeChunk_scan fSeq lSeq sq cs i slot mx ms)) = false ->
    Forall (fun c => seq c <> sq) cs.
Proof.
  induction cs as [|c cs IH]; intros i slot mx ms H; [constructor|].
  simpl in H. destruct (Z.eqb_spec (seq c) sq); [discriminate|].
  constructor; [assumption|].
  destruct (seq c >? mx); eapply IH; eassumption.
Qed.
End StoreScan.

(** What [storeChunk_Guppy_] can do: record the terminator, return early,
    or write the chunk into one slot when no slot holds its number. *)
Lemma storeChunk_cases (d : iGuppy) (sq : Z) (payload : string) :
  let d1 := noteFirstSeq d sq in
  let d' := storeChunk_Guppy_ d sq payload in
  (lastSeq d1 = 0 /\ payload = ""%string /\ d' = set_lastSeq sq d1)
  \/ d' = d1
  \/ (exists j,
        (lastSeq d1 <> 0 \/ payload <> ""%string)
        /\ outOfWindow d1 sq = false
        /\ Forall (fun c => seq c <> sq) (chunks d1)
        /\ d' = set_chunks (<[j := mkChunk sq payload]> (chunks d1)) d1).
Proof.
  intros d1 d'. subst d'. unfold storeChunk_Guppy_. fold d1.
  destruct (Z.eqb_spec (lastSeq d1) 0) as [Hl|Hl];
    [destruct payload as [|a p]|]; simpl.
  - left. auto.
  - destruct (outOfWindow d1 sq) eqn:Hw; [right; left; reflexivity|].
    pose proof (storeChunk_scan_missing (firstSeq d1) (lastSeq d1) sq (chunks d1)
                  0 (-1) (-1) (-1)) as Hm.
    destruct (storeChunk_scan _ _ _ _ _ _ _ _) as [[found slot] ms].
    destruct found; [right; left; reflexivity|].
    destruct (0 <=? _); [|right; left; reflexivity].
    right; right. eexists. split; [right; discriminate|].
    split; [reflexivity|]. split; [apply Hm; reflexivity|reflexivity].
  - destruct (outOfWindow d1 sq) eqn:Hw; [right; left; reflexivity|].
    pose proof (storeChunk_scan_missing (firstSeq d1) (lastSeq d1) sq (chunks d1)
                  0 (-1) (-1) (-1)) as Hm.
    destruct (storeChunk_scan _ _ _ _ _ _ _ _) as [[found slot] ms].
    destruct found; [right; left; reflexivity|].
    destruct (0 <=? _); [|right; left; reflexivity].
    right; right. eexists. split; [left; assumption|].
    split; [reflexivity|]. split; [apply Hm; reflexivity|reflexivity].
Qed.

(** ** Admission of a chunk the buffer already holds *)

(** C5 (as amended): when some slot already holds [sq], admission leaves
    every slot as it was; the slot keeps the payload it held and the new
    payload is not stored. *)
Theorem storeChunk_duplicate_ignored (d : iGuppy) (sq : Z) (payload : string) :
  (exists i c, chunks d !! i = Some c /\ seq c = sq) ->
  chunks (storeChunk_Guppy_ d sq payload) = chunks d.
Proof.
  intros (i & c & Hi & Hc).
  assert (Hex : Exists (fun c => seq c = sq) (chunks d)).
  { apply Exists_exists. exists c. split; [|assumption].
    eapply list_elem_of_lookup_2; eassumption. }
  unfold storeChunk_Guppy_.
  set (d1 := noteFirstSeq d sq).
  assert (Hd1 : chunks d1 = chunks d)
    by (subst d1; unfold noteFirstSeq; destruct (_ && _); reflexivity).
  destruct ((lastSeq d1 =? 0) && _); [exact Hd1|].
  destruct (outOfWindow d1 sq); [exact Hd1|].
  pose proof (storeChunk_scan_found (firstSeq d1) (lastSeq d1) sq (chunks d1)
                0 (-1) (-1) (-1)) as Hf.
  rewrite Hd1 in Hf. specialize (Hf Hex). rewrite Hd1.
  destruct (storeChunk_scan _ _ _ _ _ _ _ _) as [[found slot] ms].
  simpl in Hf. subst found. exact Hd1.
Qed.

Lemma storeChunk_duplicate_ignored_witness :
  let d := set_chunks [mkChunk 8 "EF"; emptyChunk]
             (set_currentSeq 6 (set_firstSeq 6 (init_Guppy 2 ""))) in
  chunks (storeChunk_Guppy_ d 8 "XY") = chunks d.
Proof.
  intros d. apply (storeChunk_duplicate_ignored d 8 "XY").
  exists 0%nat, (mkChunk 8 "EF"). split; reflexivity.
Defined.

(** C5, counterexample: the session has delivered chunk 6 and buffered
    chunk 8 with payload EF; a second chunk 8 with payload XY is inside the
    window, yet the slot still holds EF afterwards. *)
Lemma storeChunk_duplicate_not_overwritten :
  let w := process (process (opened 8 "guppy://host/" 0)
                            ("6 ok" ++ CRLF ++ "AB") 10)
                   ("8" ++ CRLF ++ "EF") 20 in
  chunks (guppy w) !! 0%nat = Some (mkChunk 8 "EF")
  /\ outOfWindow (guppy w) 8 = false
  /\ chunks (storeChunk_Guppy_ (guppy w) 8 "XY") !! 0%nat = Some (mkChunk 8 "EF")
  /\ chunks (guppy (process w ("8" ++ CRLF ++ "XY") 30)) !! 0%nat
     <> Some (mkChunk 8 "XY").
Proof.
  vm_compute. repeat split; try reflexivity. discriminate.
Qed.

(** ** The numbers held by occupied slots *)

Lemma occupiedSeqs_app (a b : list iGuppyChunk) :
  occupiedSeqs (a ++ b) = occupiedSeqs a ++ occupiedSeqs b.
Proof. unfold occupiedSeqs. rewrite fmap_app, filter_app. reflexivity. Qed.

Lemma occupiedSeqs_cons_free (c : iGuppyChunk) (l : list iGuppyChunk) :
  seq c = 0 -> occupiedSeqs (c :: l) = occupiedSeqs l.
Proof.
  intros H. unfold occupiedSeqs. rewrite fmap_cons, filter_cons_False; [reflexivity|].
  intros Hn. apply Hn. exact H.
Qed.

Lemma occupiedSeqs_cons_held (c : iGuppyChunk) (l : list iGuppyChunk) :
  seq c <> 0 -> occupiedSeqs (c :: l) = seq c :: occupiedSeqs l.
Proof.
  intros H. unfold occupiedSeqs. rewrite fmap_cons, filter_cons_True; [reflexivity|exact H].
Qed.

Lemma elem_of_occupiedSeqs (z : Z) (l : list iGuppyChunk) :
  z ∈ occupiedSeqs l <-> z <> 0 /\ exists c, c ∈ l /\ seq c = z.
Proof.
  unfold occupiedSeqs. rewrite list_elem_of_filter, list_elem_of_fmap.
  split.
  - intros [Hz (c & -> & Hc)]. split; [assumption|]. exists c. split; [assumption|reflexivity].
  - intros [Hz (c & Hc & <-)]. split; [assumption|]. exists c. split; [reflexivity|assumption].
Qed.

(** Replacing one slot by a free one keeps the held numbers distinct. *)
Lemma occupiedSeqs_free_middle (pre rest : list iGuppyChunk) (c : iGuppyChunk) :
  NoDup (occupiedSeqs (pre ++ c :: rest)) ->
  NoDup (occupiedSeqs (pre ++ emptyChunk :: rest)).
Proof.
  rewrite !occupiedSeqs_app, (occupiedSeqs_cons_free emptyChunk) by reflexivity.
  destruct (decide (seq c = 0)) as [H0|H0].
  - rewrite occupiedSeqs_cons_free by assumption. trivial.
  - rewrite occupiedSeqs_cons_held by assumption.
    rewrite !NoDup_app. intros (H1 & H2 & H3).
    split; [assumption|]. split.
    + intros x Hx Hin. apply (H2 x Hx). right. assumption.
    + apply NoDup_cons in H3. tauto.
Qed.

(** A held number occurs in no other slot. *)
Lemma occupiedSeqs_middle_unique (pre rest : list iGuppyChunk) (c c' : iGuppyChunk) :
  NoDup (occupiedSeqs (pre ++ c :: rest)) ->
  seq c <> 0 -> c' ∈ pre ++ rest -> seq c' <> seq c.
Proof.
  intros Hnd Hc Hin Heq. revert Hnd.
  rewrite occupiedSeqs_app, occupiedSeqs_cons_held by assumption.
  rewrite NoDup_app. intros (H1 & H2 & H3).
  apply NoDup_cons in H3. destruct H3 as [H3 _].
  apply elem_of_app in Hin. destruct Hin as [Hin|Hin].
  - apply (H2 (seq c)).
    + apply elem_of_occupiedSeqs. split; [assumption|]. exists c'. tauto.
    + left.
  - apply H3. apply elem_of_occupiedSeqs. split; [assumption|]. exists c'. tauto.
Qed.

(** ** Facts about the drain scan *)

Lemma deliverable_true (fSeq cur : Z) (c : iGuppyChunk) :
  deliverable fSeq cur c = true ->
  (cur <> 0 /\ cur < INT_MAX /\ seq c = cur + 1)
  \/ (cur = 0 /\ 0 < fSeq /\ seq c = fSeq).
Proof.
  unfold deliverable. intros H. apply orb_true_iff in H.
  destruct H as [H|H]; repeat (apply andb_true_iff in H; destruct H as [H ?]).
  - left. apply negb_true_iff, Z.eqb_neq in H. lia.
  - right. lia.
Qed.

Lemma deliverable_false (fSeq cur : Z) (c : iGuppyChunk) :
  deliverable fSeq cur c = false ->
  (cur <> 0 -> cur < INT_MAX -> seq c <> cur + 1)
  /\ (cur = 0 -> 0 < fSeq -> seq c <> fSeq).
Proof.
  unfold deliverable. intros H. apply orb_false_iff in H. destruct H as [H1 H2].
  split; intros Ha Hb Hc.
  - rewrite (proj2 (Z.eqb_neq cur 0) Ha), (proj2 (Z.ltb_lt _ _) Hb),
      (proj2 (Z.eqb_eq _ _) Hc) in H1. discriminate.
  - rewrite (proj2 (Z.eqb_eq cur 0) Ha), (proj2 (Z.eqb_eq _ _) Hc) in H2.
    replace (fSeq >? 0) with true in H2 by (symmetry; apply Z.gtb_lt; lia).
    discriminate.
Qed.

(** One step of an induction over the scan: split on the test of the
    current slot and name the result of the rest of the scan. *)
Ltac scan_step H IH :=
  simpl in H;
  match type of H with
  | context [deliverable ?f ?cu ?c] => destruct (deliverable f cu c) eqn:Hdel
  end;
  match type of H with
  | context [processChunks_scan ?n ?f ?i ?r ?cu ?ag] =>
      destruct (processChunks_scan n f i r cu ag) as [[[r' cu'] ag'] lg'] eqn:Hrec
  end;
  inversion H; subst; clear H.

(** The scan keeps lengths, and never lowers [currentSeq]. *)
Lemma processChunks_scan_length (n : nat) (fSeq : Z) (cs : list iGuppyChunk) :
  forall i cur again cs' cur' again' log,
    processChunks_scan n fSeq i cs cur again = (cs', cur', again', log) ->
    length cs' = length cs.
Proof.
  induction cs as [|c rest IH]; intros i cur again cs' cur' again' log H.
  - inversion H. reflexivity.
  - scan_step H IH; simpl; f_equal; eapply IH; eassumption.
Qed.

Lemma processChunks_scan_mono (n : nat) (fSeq : Z) (cs : list iGuppyChunk) :
  forall i cur again cs' cur' again' log,
    processChunks_scan n fSeq i cs cur again = (cs', cur', again', log) ->
    cur <= cur'.
Proof.
  induction cs as [|c rest IH]; intros i cur again cs' cur' again' log H.
  - inversion H. lia.
  - scan_step H IH.
    + apply IH in Hrec. apply deliverable_true in Hdel. lia.
    + eapply IH; eassumption.
Qed.

(** The scan keeps the buffer invariant, whatever slots [pre] it has
    already passed. *)
Lemma processChunks_scan_inv (n : nat) (fSeq : Z) (cs : list iGuppyChunk) :
  forall pre i cur again cs' cur' again' log,
    processChunks_scan n fSeq i cs cur again = (cs', cur', again', log) ->
    0 <= fSeq ->
    (cur = 0 \/ (0 < fSeq /\ fSeq <= cur)) ->
    Forall (ahead fSeq cur) (pre ++ cs) ->
    NoDup (occupiedSeqs (pre ++ cs)) ->
    (cur' = 0 \/ (0 < fSeq /\ fSeq <= cur'))
    /\ Forall (ahead fSeq cur') (pre ++ cs')
    /\ NoDup (occupiedSeqs (pre ++ cs')).
Proof.
  induction cs as [|c rest IH];
    intros pre i cur again cs' cur' again' log H Hf Hcur Hall Hnd.
  - inversion H; subst. tauto.
  - scan_step H IH.
    + apply deliverable_true in Hdel.
      assert (Hheld : seq c <> 0) by lia.
      assert (Hf0 : (fSeq =? 0) = false) by (apply Z.eqb_neq; lia).
      replace (pre ++ emptyChunk :: r') with ((pre ++ [emptyChunk]) ++ r')
        by (rewrite <- app_assoc; reflexivity).
      eapply IH; [eassumption|assumption|lia| |].
      * rewrite <- app_assoc. simpl.
        apply Forall_app. apply Forall_app in Hall. destruct Hall as [Hpre Hrest].
        inversion Hrest as [|? ? Hc Hrest']; subst.
        assert (Hother : forall c', c' ∈ pre ++ rest -> ahead fSeq cur c' ->
                                    ahead fSeq (seq c) c').
        { intros c' Hin Ha Hc'. specialize (Ha Hc').
          pose proof (occupiedSeqs_middle_unique pre rest c c' Hnd Hheld Hin).
          rewrite Hf0 in *. lia. }
        split; [|constructor; [intros Hx; contradiction Hx; reflexivity|]].
        -- apply Forall_forall. intros c' Hin.
           apply Hother; [apply elem_of_app; left; assumption|].
           eapply Forall_forall in Hpre; eassumption.
        -- apply Forall_forall. intros c' Hin.
           apply Hother; [apply elem_of_app; right; assumption|].
           eapply Forall_forall in Hrest'; eassumption.
      * rewrite <- app_assoc. simpl.
        eapply occupiedSeqs_free_middle; eassumption.
    + replace (pre ++ c :: r') with ((pre ++ [c]) ++ r')
        by (rewrite <- app_assoc; reflexivity).
      eapply IH; [eassumption|assumption|assumption| |];
        rewrite <- app_assoc; assumption.
Qed.

(** ** The window test and the invariant under admission *)

Lemma outOfWindow_false (d : iGuppy) (sq : Z) :
  outOfWindow d sq = false ->
  (currentSeq d = 0 \/ currentSeq d < sq)
  /\ (firstSeq d = 0 \/ firstSeq d <= sq)
  /\ (lastSeq d = 0 \/ sq <= lastSeq d).
Proof.
  unfold outOfWindow. intros H.
  apply orb_false_iff in H. destruct H as [H H3].
  apply orb_false_iff in H. destruct H as [H1 H2].
  repeat split.
  - destruct (Z.eqb_spec (currentSeq d) 0); [left; assumption|right].
    simpl in H1. apply Z.leb_gt in H1. lia.
  - destruct (Z.eqb_spec (firstSeq d) 0); [left; assumption|right].
    simpl in H2. apply Z.ltb_ge in H2. lia.
  - destruct (Z.eqb_spec (lastSeq d) 0); [left; assumption|right].
    simpl in H3. destruct (Z.gtb_spec sq (lastSeq d)); [discriminate|lia].
Qed.

Lemma outOfWindow_true (d : iGuppy) (sq : Z) :
  (currentSeq d <> 0 /\ sq <= currentSeq d)
  \/ (firstSeq d <> 0 /\ sq < firstSeq d)
  \/ (lastSeq d <> 0 /\ lastSeq d < sq) ->
  outOfWindow d sq = true.
Proof.
  unfold outOfWindow. intros [[H1 H2]|[[H1 H2]|[H1 H2]]].
  - apply Z.eqb_neq in H1. apply Z.leb_le in H2. rewrite H1, H2. reflexivity.
  - apply Z.eqb_neq in H1. apply Z.ltb_lt in H2. rewrite H1, H2.
    simpl. rewrite orb_true_r. reflexivity.
  - apply Z.eqb_neq in H1. rewrite H1.
    replace (sq >? lastSeq d) with true by (symmetry; apply Z.gtb_lt; lia).
    simpl. rewrite orb_true_r. reflexivity.
Qed.

Lemma noteFirstSeq_fields (d : iGuppy) (sq : Z) :
  let d1 := noteFirstSeq d sq in
  state d1 = state d /\ meta d1 = meta d /\ body d1 = body d
  /\ chunks d1 = chunks d /\ lastSeq d1 = lastSeq d
  /\ currentSeq d1 = currentSeq d
  /\ (firstSeq d <> 0 -> d1 = d)
  /\ (firstSeq d = 0 -> sq < INT_MAX -> firstSeq d1 = sq)
  /\ (firstSeq d = 0 -> INT_MAX <= sq -> d1 = d).
Proof.
  unfold noteFirstSeq.
  destruct (Z.eqb_spec (firstSeq d) 0); destruct (Z.ltb_spec sq INT_MAX); simpl;
    repeat split; intros; try reflexivity; try lia.
Qed.

Lemma noteFirstSeq_inv (d : iGuppy) (sq : Z) :
  0 < sq -> BufferInv d -> BufferInv (noteFirstSeq d sq).
Proof.
  intros Hsq [Hf Hc Ha Hn]. unfold noteFirstSeq.
  destruct (Z.eqb_spec (firstSeq d) 0) as [E|E];
    destruct (Z.ltb_spec sq INT_MAX) as [L|L]; simpl;
    try (constructor; assumption).
  constructor; simpl.
  - lia.
  - left. lia.
  - eapply Forall_impl; [exact Ha|]. intros c Hc' H0. specialize (Hc' H0).
    rewrite E in Hc'. simpl in Hc'.
    destruct (Z.eqb_spec sq 0); lia.
  - assumption.
Qed.

(** Writing a number that no slot holds keeps the held numbers distinct. *)
Lemma occupiedSeqs_insert_fresh (cs : list iGuppyChunk) (j : nat) (x : iGuppyChunk) :
  Forall (fun c => seq c <> seq x) cs ->
  NoDup (occupiedSeqs cs) ->
  NoDup (occupiedSeqs (<[j := x]> cs)).
Proof.
  intros Hfresh Hnd.
  destruct (decide (j < length cs)%nat) as [Hj|Hj];
    [|rewrite list_insert_ge by lia; assumption].
  destruct (lookup_lt_is_Some_2 cs j Hj) as [c Hc].
  rewrite insert_take_drop by assumption.
  rewrite <- (take_drop_middle cs j c Hc) in Hnd, Hfresh.
  revert Hnd. rewrite !occupiedSeqs_app.
  assert (Hpre : seq x ∉ occupiedSeqs (take j cs)).
  { intros Hin. apply elem_of_occupiedSeqs in Hin. destruct Hin as [_ (c' & Hin & Heq)].
    rewrite Forall_forall in Hfresh. apply (Hfresh c'); [|assumption].
    apply elem_of_app. left. assumption. }
  assert (Hpost : seq x ∉ occupiedSeqs (drop (S j) cs)).
  { intros Hin. apply elem_of_occupiedSeqs in Hin. destruct Hin as [_ (c' & Hin & Heq)].
    rewrite Forall_forall in Hfresh. apply (Hfresh c'); [|assumption].
    apply elem_of_app. right. right. assumption. }
  rewrite !NoDup_app. intros (H1 & H2 & H3).
  assert (H4 : NoDup (occupiedSeqs (drop (S j) cs))).
  { destruct (decide (seq c = 0)) as [E|E].
    - rewrite occupiedSeqs_cons_free in H3; assumption.
    - rewrite occupiedSeqs_cons_held in H3 by assumption.
      apply NoDup_cons in H3. tauto. }
  assert (H5 : forall z, z ∈ occupiedSeqs (take j cs) ->
                         z ∉ occupiedSeqs (drop (S j) cs)).
  { intros z Hz Hin. apply (H2 z Hz).
    destruct (decide (seq c = 0)) as [E|E].
    - rewrite occupiedSeqs_cons_free; assumption.
    - rewrite occupiedSeqs_cons_held by assumption. right. assumption. }
  split; [assumption|].
  destruct (decide (seq x = 0)) as [E|E].
  - rewrite occupiedSeqs_cons_free by assumption. split; assumption.
  - rewrite occupiedSeqs_cons_held by assumption. split.
    + intros z Hz Hin. apply elem_of_cons in Hin. destruct Hin as [->|Hin].
      * contradiction.
      * apply (H5 z Hz Hin).
    + apply NoDup_cons. split; assumption.
Qed.

Lemma storeChunk_inv (d : iGuppy) (sq : Z) (payload : string) :
  0 < sq -> BufferInv d -> BufferInv (storeChunk_Guppy_ d sq payload).
Proof.
  intros Hsq Hinv.
  pose proof (noteFirstSeq_inv d sq Hsq Hinv) as Hinv1.
  pose proof (noteFirstSeq_fields d sq) as Hfld.
  destruct (storeChunk_cases d sq payload)
    as [(_ & _ & ->)|[->|(j & _ & Hwin & Hfresh & ->)]].
  - destruct Hinv1. constructor; assumption.
  - assumption.
  - set (d1 := noteFirstSeq d sq) in *.
    destruct Hinv1 as [Hf Hc Ha Hn].
    apply outOfWindow_false in Hwin. destruct Hwin as (W1 & W2 & W3).
    constructor; simpl; try assumption.
    + apply Forall_insert; [assumption|]. intros _. simpl.
      split; [lia|].
      destruct (Z.eqb_spec (firstSeq d1) 0) as [E|E]; [|lia].
      simpl in Hfld. destruct Hfld as (_ & _ & _ & _ & _ & _ & F1 & F2 & F3).
      destruct (Z.eq_dec (firstSeq d) 0) as [E0|E0].
      * destruct (Z.lt_ge_cases sq INT_MAX) as [L|L]; [|assumption].
        specialize (F2 E0 L). fold d1 in F2. lia.
      * specialize (F1 E0). fold d1 in F1. rewrite F1 in E. contradiction.
    + apply occupiedSeqs_insert_fresh; assumption.
Qed.

(** ** The drain loop *)

(** What a pass leaves alone. *)
Lemma processChunks_pass_fields (d d' : iGuppy) (again : bool) (log : list iGuppyChunk) :
  processChunks_pass d = (d', again, log) ->
  state d' = state d /\ meta d' = meta d /\ firstSeq d' = firstSeq d
  /\ lastSeq d' = lastSeq d /\ length (chunks d') = length (chunks d)
  /\ body d' = (body d ++ payloads log)%string
  /\ currentSeq d <= currentSeq d'.
Proof.
  unfold processChunks_pass. intros H.
  destruct (processChunks_scan _ _ _ _ _ _) as [[[cs' cur'] ag] lg] eqn:E.
  inversion H; subst; simpl.
  repeat split; try reflexivity.
  - eapply processChunks_scan_length; eassumption.
  - eapply processChunks_scan_mono; eassumption.
Qed.

Lemma processChunks_pass_inv (d d' : iGuppy) (again : bool) (log : list iGuppyChunk) :
  processChunks_pass d = (d', again, log) -> BufferInv d -> BufferInv d'.
Proof.
  unfold processChunks_pass. intros H [Hf Hc Ha Hn].
  destruct (processChunks_scan _ _ _ _ _ _) as [[[cs' cur'] ag] lg] eqn:E.
  inversion H; subst; clear H.
  destruct (processChunks_scan_inv _ _ _ [] _ _ _ _ _ _ _ E Hf Hc Ha Hn)
    as (H1 & H2 & H3).
  constructor; simpl; assumption.
Qed.

(** A property kept by every pass is kept by the loop. *)
Lemma processChunks_loop_keeps (P : iGuppy -> Prop) :
  (forall d d' again log, processChunks_pass d = (d', again, log) -> P d -> P d') ->
  forall fuel d, P d -> P (fst (processChunks_loop fuel d)).
Proof.
  intros Hpass. induction fuel as [|fuel IH]; intros d Hd; [exact Hd|].
  simpl. destruct (processChunks_pass d) as [[d' again] log] eqn:E.
  pose proof (Hpass _ _ _ _ E Hd) as Hd'.
  destruct again; [|exact Hd'].
  specialize (IH d' Hd').
  destruct (processChunks_loop fuel d') as [d'' log']. exact IH.
Qed.

(** The end-of-stream test only touches [state]. *)
Lemma processChunks_Guppy_shape (d : iGuppy) :
  let l := fst (processChunks_loop (S (drainMeasure (chunks d) (currentSeq d))) d) in
  fst (processChunks_Guppy_ d) = l
  \/ (fst (processChunks_Guppy_ d) = set_state finished_GuppyState l
      /\ lastSeq l <> 0 /\ currentSeq l = lastSeq l - 1).
Proof.
  unfold processChunks_Guppy_.
  destruct (processChunks_loop _ d) as [d' log]. simpl.
  destruct (Z.eqb_spec (lastSeq d') 0) as [E|E]; simpl; [left; reflexivity|].
  destruct (Z.eqb_spec (currentSeq d') (lastSeq d' - 1)); [right|left]; auto.
Qed.

Lemma processChunks_Guppy_inv (d : iGuppy) :
  BufferInv d -> BufferInv (fst (processChunks_Guppy_ d)).
Proof.
  intros Hinv.
  pose proof (processChunks_loop_keeps BufferInv processChunks_pass_inv
                (S (drainMeasure (chunks d) (currentSeq d))) d Hinv) as Hl.
  destruct (processChunks_Guppy_shape d) as [->|[-> _]]; [assumption|].
  destruct Hl. constructor; assumption.
Qed.

Lemma init_BufferInv (n : nat) (u : string) : BufferInv (init_Guppy n u).
Proof.
  constructor; simpl.
  - lia.
  - left. reflexivity.
  - apply Forall_replicate. intros H. contradiction H. reflexivity.
  - unfold occupiedSeqs. induction n as [|n IH]; simpl; [constructor|].
    rewrite filter_cons_False; [exact IH|]. intros H. apply H. reflexivity.
Qed.

(** C6: a chunk enters the buffer only inside the window, an admission
    outside the window changes neither the slots nor the body, and both
    admission and drain keep every occupied slot above [currentSeq], so no
    slot holds a number already in the body.  The parser only admits
    numbers from 6 up; the statement needs them positive. *)
Theorem window_invariant (d : iGuppy) (sq : Z) (payload : string) :
  0 < sq ->
  let d' := storeChunk_Guppy_ d sq payload in
  body d' = body d
  /\ currentSeq d' = currentSeq d
  /\ (chunks d' <> chunks d ->
      currentSeq d < sq
      /\ (firstSeq d' <> 0 -> firstSeq d' <= sq)
      /\ (lastSeq d' <> 0 -> sq <= lastSeq d'))
  /\ (sq <= currentSeq d
      \/ (firstSeq d <> 0 /\ sq < firstSeq d)
      \/ (lastSeq d <> 0 /\ lastSeq d < sq) ->
      chunks d' = chunks d /\ body d' = body d)
  /\ (BufferInv d ->
      BufferInv d'
      /\ BufferInv (fst (processChunks_Guppy_ d))
      /\ (forall e, BufferInv e ->
                    Forall (fun c => seq c <> 0 -> currentSeq e < seq c) (chunks e)))
  /\ (forall n u, BufferInv (init_Guppy n u)).
Proof.
  intros Hsq d'.
  pose proof (noteFirstSeq_fields d sq) as Hfld. simpl in Hfld.
  destruct Hfld as (F1 & F2 & F3 & F4 & F5 & F6 & F7 & F8 & F9).
  assert (Hbody : body d' = body d /\ currentSeq d' = currentSeq d).
  { subst d'. destruct (storeChunk_cases d sq payload)
      as [(_ & _ & ->)|[->|(j & _ & _ & _ & ->)]]; simpl; auto. }
  assert (Hin : chunks d' <> chunks d ->
                currentSeq d < sq
                /\ (firstSeq d' <> 0 -> firstSeq d' <= sq)
                /\ (lastSeq d' <> 0 -> sq <= lastSeq d')).
  { subst d'. destruct (storeChunk_cases d sq payload)
      as [(_ & _ & ->)|[->|(j & _ & Hwin & _ & ->)]]; simpl.
    - intros H. contradiction.
    - intros H. contradiction.
    - intros _. apply outOfWindow_false in Hwin.
      rewrite F5, F6 in Hwin. lia. }
  destruct Hbody as [Hb Hc].
  split; [assumption|]. split; [assumption|]. split; [assumption|]. split.
  - intros H. split; [|assumption].
    destruct (list_eq_dec (chunks d') (chunks d)) as [E|E]; [assumption|].
    destruct (Hin E) as (I1 & I2 & I3). exfalso.
    assert (Hl : lastSeq d' = lastSeq d).
    { subst d'. destruct (storeChunk_cases d sq payload)
        as [(_ & _ & Hd)|[->|(j & _ & _ & _ & ->)]]; simpl; try assumption.
      rewrite Hd in E. simpl in E. rewrite F4 in E. contradiction. }
    assert (Hf : firstSeq d <> 0 -> firstSeq d' = firstSeq d).
    { intros Hne. subst d'. specialize (F7 Hne).
      destruct (storeChunk_cases d sq payload)
        as [(_ & _ & ->)|[->|(j & _ & _ & _ & ->)]]; simpl; rewrite F7; reflexivity. }
    destruct H as [H|[[H1 H2]|[H1 H2]]]; [lia| |].
    + specialize (Hf H1). rewrite Hf in I2. lia.
    + rewrite Hl in I3. lia.
  - split; [|apply init_BufferInv].
    intros Hinv. split; [apply storeChunk_inv; assumption|].
    split; [apply processChunks_Guppy_inv; assumption|].
    intros e [_ _ Ha _]. eapply Forall_impl; [exact Ha|].
    intros c Hc' H0. apply Hc'. assumption.
Qed.

Lemma window_invariant_witness :
  let d := set_chunks [mkChunk 8 "EF"; emptyChunk]
             (set_currentSeq 6 (set_firstSeq 6 (init_Guppy 2 ""))) in
  body (storeChunk_Guppy_ d 9 "GH") = body d
  /\ chunks (storeChunk_Guppy_ d 9 "GH") = [mkChunk 8 "EF"; mkChunk 9 "GH"].
Proof.
  intros d.
  destruct (window_invariant d 9 "GH") as (Hb & _); [lia|].
  split; [exact Hb|reflexivity].
Defined.

(** ** What the drain appends *)

Lemma string_app_assoc (a b c : string) :
  ((a ++ b) ++ c)%string = (a ++ (b ++ c))%string.
Proof. induction a as [|x a IH]; simpl; [reflexivity|rewrite IH; reflexivity]. Qed.

Lemma string_app_nil_r (a : string) : (a ++ "")%string = a.
Proof. induction a as [|x a IH]; simpl; [reflexivity|rewrite IH; reflexivity]. Qed.

Lemma payloads_app (l1 l2 : list iGuppyChunk) :
  payloads (l1 ++ l2) = (payloads l1 ++ payloads l2)%string.
Proof.
  induction l1 as [|c l1 IH]; simpl; [reflexivity|].
  rewrite IH, string_app_assoc. reflexivity.
Qed.

(** One scan appends consecutive numbers starting at the awaited one. *)
Lemma processChunks_scan_log (n : nat) (fSeq : Z) (cs : list iGuppyChunk) :
  forall i cur again cs' cur' again' log,
    processChunks_scan n fSeq i cs cur again = (cs', cur', again', log) ->
    0 <= cur ->
    seq <$> log = seqZ (nextSeq fSeq cur) (Z.of_nat (length log))
    /\ (log = [] -> cur' = cur)
    /\ (log <> [] ->
        0 < nextSeq fSeq cur
        /\ cur' = nextSeq fSeq cur + Z.of_nat (length log) - 1).
Proof.
  induction cs as [|c rest IH]; intros i cur again cs' cur' again' log H Hcur.
  - inversion H; subst. simpl. repeat split; try reflexivity; intros; congruence.
  - scan_step H IH.
    + apply deliverable_true in Hdel.
      assert (Hc : seq c = nextSeq fSeq cur /\ 0 < seq c).
      { unfold nextSeq. destruct (Z.eqb_spec cur 0); lia. }
      destruct Hc as [Hc Hpos].
      destruct (IH _ _ _ _ _ _ _ Hrec) as (I1 & I2 & I3); [lia|].
      assert (Hn : nextSeq fSeq (seq c) = seq c + 1).
      { unfold nextSeq. destruct (Z.eqb_spec (seq c) 0); lia. }
      rewrite Hn in *. rewrite <- Hc.
      split; [|split; [intros; discriminate|intros _; split; [assumption|]]].
      * rewrite fmap_cons, I1. simpl length.
        rewrite (seqZ_cons (seq c) (Z.of_nat (S (length lg')))) by lia.
        f_equal. f_equal; lia.
      * simpl length. destruct lg' as [|x lg'].
        -- rewrite I2 by reflexivity. simpl. lia.
        -- destruct I3 as [_ I3]; [discriminate|]. rewrite I3. simpl length. lia.
    + eapply IH; eassumption.
Qed.

Lemma Delivered_pass (b0 : string) (d d' : iGuppy) (again : bool)
      (log0 log : list iGuppyChunk) :
  processChunks_pass d = (d', again, log) ->
  Delivered b0 (d, log0) -> Delivered b0 (d', log0 ++ log).
Proof.
  unfold processChunks_pass. intros H (D1 & D2 & D3 & D4 & D5).
  destruct (processChunks_scan _ _ _ _ _ _) as [[[cs' cur'] ag] lg] eqn:E.
  inversion H; subst; clear H.
  pose proof (processChunks_scan_mono _ _ _ _ _ _ _ _ _ _ E) as Hmono.
  destruct (processChunks_scan_log _ _ _ _ _ _ _ _ _ _ E D1) as (L1 & L2 & L3).
  unfold Delivered. simpl.
  rewrite payloads_app, <- string_app_assoc, <- D2.
  split; [lia|]. split; [reflexivity|].
  destruct log as [|x log].
  - rewrite app_nil_r. specialize (L2 eq_refl). subst cur'.
    repeat split; try assumption; apply D5; assumption.
  - destruct L3 as [L3 L4]; [discriminate|].
    assert (Hnext : nextSeq (firstSeq d) (currentSeq d)
                    = firstSeq d + Z.of_nat (length log0)).
    { unfold nextSeq. destruct log0 as [|y log0].
      - rewrite D4 by reflexivity. simpl. lia.
      - destruct D5 as [D5 D6]; [discriminate|].
        destruct (Z.eqb_spec (currentSeq d) 0); lia. }
    rewrite Hnext in *.
    split; [|split; [intros Hnil; apply app_eq_nil in Hnil; destruct Hnil; discriminate|]].
    + rewrite fmap_app, D3, L1, length_app, Nat2Z.inj_add.
      rewrite (seqZ_app (firstSeq d)) by lia. reflexivity.
    + intros _. rewrite length_app, Nat2Z.inj_add. split; [|lia].
      destruct log0 as [|y log0]; [simpl in L3; lia|].
      apply D5. discriminate.
Qed.

Lemma Delivered_loop (b0 : string) :
  forall fuel d log0,
    Delivered b0 (d, log0) ->
    Delivered b0 (fst (processChunks_loop fuel d),
                  log0 ++ snd (processChunks_loop fuel d)).
Proof.
  induction fuel as [|fuel IH]; intros d log0 HD; simpl.
  - rewrite app_nil_r. exact HD.
  - destruct (processChunks_pass d) as [[d' again] log] eqn:E.
    pose proof (Delivered_pass _ _ _ _ _ _ E HD) as HD'.
    destruct again; [|exact HD'].
    specialize (IH d' _ HD').
    destruct (processChunks_loop fuel d') as [d'' log']. simpl in *.
    rewrite app_assoc. exact IH.
Qed.

Lemma Delivered_applyOp (b0 : string) (st : iGuppy * list iGuppyChunk) (op : BufferOp) :
  Delivered b0 st -> Delivered b0 (applyOp st op).
Proof.
  destruct st as [d log0]. intros HD. destruct op as [sq payload|]; simpl.
  - destruct HD as (D1 & D2 & D3 & D4 & D5).
    pose proof (noteFirstSeq_fields d sq) as F. simpl in F.
    destruct F as (_ & _ & F3 & _ & _ & F6 & F7 & _ & _).
    assert (Hf : log0 <> [] -> firstSeq (storeChunk_Guppy_ d sq payload) = firstSeq d).
    { intros Hne. destruct (D5 Hne) as [Hpos _].
      rewrite <- (F7 ltac:(lia)) at 2.
      destruct (storeChunk_cases d sq payload)
        as [(_ & _ & ->)|[->|(j & _ & _ & _ & ->)]]; reflexivity. }
    assert (Hb : body (storeChunk_Guppy_ d sq payload) = body d
                 /\ currentSeq (storeChunk_Guppy_ d sq payload) = currentSeq d).
    { destruct (storeChunk_cases d sq payload)
        as [(_ & _ & ->)|[->|(j & _ & _ & _ & ->)]]; simpl; auto. }
    destruct Hb as [Hb Hc]. unfold Delivered. rewrite Hb, Hc.
    split; [assumption|]. split; [assumption|].
    destruct log0 as [|x log0].
    + split; [reflexivity|]. split; [assumption|]. intros Hne. contradiction.
    + rewrite Hf by discriminate. split; [assumption|].
      split; [intros; discriminate|]. intros _. apply D5. discriminate.
  - unfold processChunks_Guppy_.
    pose proof (Delivered_loop b0 (S (drainMeasure (chunks d) (currentSeq d)))
                  d log0 HD) as HL.
    destruct (processChunks_loop _ d) as [d' log]. simpl in HL.
    destruct (negb _ && _); [|exact HL].
    exact HL.
Qed.

Lemma Delivered_runOps (b0 : string) (ops : list BufferOp) :
  forall st, Delivered b0 st -> Delivered b0 (runOps ops st).
Proof.
  induction ops as [|op ops IH]; intros st HD; [exact HD|].
  simpl. apply IH. apply Delivered_applyOp. exact HD.
Qed.

(** No operation lowers [currentSeq]. *)
Lemma applyOp_mono (st : iGuppy * list iGuppyChunk) (op : BufferOp) :
  currentSeq (fst st) <= currentSeq (fst (applyOp st op)).
Proof.
  destruct st as [d log0]. destruct op as [sq payload|]; simpl.
  - destruct (storeChunk_cases d sq payload)
      as [(_ & _ & ->)|[->|(j & _ & _ & _ & ->)]]; simpl;
      destruct (noteFirstSeq_fields d sq) as (_ & _ & _ & _ & _ & F6 & _);
      rewrite F6; lia.
  - pose proof (processChunks_loop_keeps (fun e => currentSeq d <= currentSeq e))
      as Hk.
    assert (Hstep : forall e e' again log,
               processChunks_pass e = (e', again, log) ->
               currentSeq d <= currentSeq e -> currentSeq d <= currentSeq e').
    { intros e e' again log Hp Hle.
      apply processChunks_pass_fields in Hp.
      destruct Hp as (_ & _ & _ & _ & _ & _ & Hp). lia. }
    specialize (Hk Hstep (S (drainMeasure (chunks d) (currentSeq d))) d
                   (Z.le_refl _)).
    unfold processChunks_Guppy_.
    destruct (processChunks_loop _ d) as [d' log]. simpl in *.
    destruct (negb _ && _); simpl; assumption.
Qed.

Lemma runOps_mono (ops : list BufferOp) :
  forall st, currentSeq (fst st) <= currentSeq (fst (runOps ops st)).
Proof.
  unfold runOps.
  induction ops as [|op ops IH]; intros st; simpl; [lia|].
  pose proof (applyOp_mono st op). specialize (IH (applyOp st op)). lia.
Qed.

(** C9: over any sequence of admissions and drains of a new session,
    [currentSeq] never decreases, the chunks appended to the body carry
    consecutive numbers starting at [firstSeq], the body is exactly their
    payloads in that order, and [currentSeq] is the number of the last one
    appended (0 when nothing was appended). *)
Theorem currentSeq_tracks_delivery (n : nat) (u : string) (ops1 ops2 : list BufferOp) :
  let st1 := runOps ops1 (init_Guppy n u, []) in
  let st2 := runOps ops2 st1 in
  currentSeq (fst st1) <= currentSeq (fst st2)
  /\ seq <$> snd st2 = seqZ (firstSeq (fst st2)) (Z.of_nat (length (snd st2)))
  /\ body (fst st2) = payloads (snd st2)
  /\ currentSeq (fst st2) = match last (snd st2) with
                            | Some c => seq c
                            | None => 0
                            end.
Proof.
  intros st1 st2.
  split; [apply runOps_mono|].
  assert (HD : Delivered "" st2).
  { subst st2 st1. do 2 apply Delivered_runOps.
    simpl. split; [lia|]. split; [reflexivity|]. split; [reflexivity|].
    split; [reflexivity|]. intros Hne. contradiction. }
  destruct st2 as [d log]. simpl in *.
  destruct HD as (D1 & D2 & D3 & D4 & D5).
  split; [assumption|]. split; [assumption|].
  destruct (last log) as [c|] eqn:El.
  - assert (Hne : log <> []) by (intros ->; discriminate).
    destruct (D5 Hne) as [_ Hc].
    assert (Hl : last (seq <$> log) = Some (seq c)) by (rewrite fmap_last, El; reflexivity).
    rewrite D3, last_lookup, length_seqZ in Hl.
    apply lookup_seqZ in Hl. destruct log; [contradiction|]. simpl length in *. lia.
  - apply last_None in El. auto.
Qed.


(** ** A drain that stops too early *)

Lemma processChunks_scan_none (n : nat) (fSeq : Z) (cs : list iGuppyChunk) :
  forall i cur again,
    Forall (fun c => deliverable fSeq cur c = false) cs ->
    processChunks_scan n fSeq i cs cur again = (cs, cur, again, []).
Proof.
  induction cs as [|c rest IH]; intros i cur again Hall; [reflexivity|].
  inversion Hall as [|? ? Hc Hrest]; subst. simpl.
  rewrite Hc, IH by assumption. reflexivity.
Qed.

Lemma processChunks_scan_app (n : nat) (fSeq : Z) (a b : list iGuppyChunk) :
  forall i cur again,
    processChunks_scan n fSeq i (a ++ b) cur again =
    let '(a', cur1, again1, log1) := processChunks_scan n fSeq i a cur again in
    let '(b', cur2, again2, log2) :=
      processChunks_scan n fSeq (i + length a) b cur1 again1 in
    (a' ++ b', cur2, again2, log1 ++ log2).
Proof.
  induction a as [|c a IH]; intros i cur again; simpl.
  - rewrite Nat.add_0_r.
    destruct (processChunks_scan n fSeq i b cur again) as [[[b' cu] ag] lg].
    reflexivity.
  - replace (i + S (length a))%nat with (S i + length a)%nat by lia.
    destruct (deliverable fSeq cur c); rewrite IH;
      destruct (processChunks_scan n fSeq (S i) a _ _) as [[[a' cu] ag] lg];
      destruct (processChunks_scan n fSeq (S i + length a) b cu ag)
        as [[[b' cu'] ag'] lg']; reflexivity.
Qed.

(** When the awaited chunk sits in the last slot and the one after it in
    the first slot, one call of the drain appends the former only: the
    match in the last slot clears [again], and the first slot is left
    holding [currentSeq + 1]. *)
Lemma processChunks_leaves_next (d : iGuppy) (c0 cl : iGuppyChunk)
      (mid : list iGuppyChunk) :
  chunks d = c0 :: mid ++ [cl] ->
  0 < currentSeq d -> currentSeq d + 2 < INT_MAX ->
  seq cl = currentSeq d + 1 ->
  seq c0 = currentSeq d + 2 ->
  Forall (fun c => seq c <> currentSeq d + 1) mid ->
  let d' := fst (processChunks_Guppy_ d) in
  currentSeq d' = currentSeq d + 1
  /\ chunks d' = c0 :: mid ++ [emptyChunk]
  /\ body d' = (body d ++ data cl)%string
  /\ deliverable (firstSeq d') (currentSeq d') c0 = true.
Proof.
  intros Hcs Hpos Hmax Hl H0 Hmid.
  assert (Hcur : currentSeq d <> 0) by lia.
  assert (Hnone : Forall (fun c => deliverable (firstSeq d) (currentSeq d) c = false)
                         (c0 :: mid)).
  { constructor.
    - unfold deliverable. apply Z.eqb_neq in Hcur. rewrite Hcur. simpl.
      replace (seq c0 =? currentSeq d + 1) with false
        by (symmetry; apply Z.eqb_neq; lia).
      rewrite andb_false_r. reflexivity.
    - eapply Forall_impl; [exact Hmid|]. intros c Hc. unfold deliverable.
      apply Z.eqb_neq in Hcur. rewrite Hcur. simpl.
      apply Z.eqb_neq in Hc. rewrite Hc, andb_false_r. reflexivity. }
  assert (Hdl : deliverable (firstSeq d) (currentSeq d) cl = true).
  { unfold deliverable. apply Z.eqb_neq in Hcur. rewrite Hcur. simpl.
    replace (currentSeq d <? INT_MAX) with true by (symmetry; apply Z.ltb_lt; lia).
    replace (seq cl =? currentSeq d + 1) with true by (symmetry; apply Z.eqb_eq; lia).
    reflexivity. }
  assert (Hpass : processChunks_pass d =
                  (set_body (body d ++ data cl)%string
                     (set_currentSeq (currentSeq d + 1)
                        (set_chunks (c0 :: mid ++ [emptyChunk]) d)), false, [cl])).
  { unfold processChunks_pass. rewrite Hcs.
    assert (Hlast : (0 + length (c0 :: mid) <? length (c0 :: mid ++ [cl]) - 1)%nat
                    = false).
    { apply Nat.ltb_ge.
      change (length (c0 :: mid ++ [cl])) with (S (length (mid ++ [cl]))).
      change (length (c0 :: mid)) with (S (length mid)).
      rewrite length_app. change (length [cl]) with 1%nat. lia. }
    set (n := length (c0 :: mid ++ [cl])) in *.
    change (c0 :: mid ++ [cl]) with ((c0 :: mid) ++ [cl]).
    rewrite processChunks_scan_app, (processChunks_scan_none _ _ _ _ _ _ Hnone).
    cbn [processChunks_scan]. rewrite Hdl, Hlast.
    simpl. rewrite Hl, string_app_nil_r. reflexivity. }
  unfold processChunks_Guppy_. simpl processChunks_loop. rewrite Hpass.
  match goal with |- context [if ?b then _ else _] => destruct b end; simpl;
    (split; [reflexivity|]; split; [reflexivity|]; split; [reflexivity|]);
    unfold deliverable;
    replace (currentSeq d + 1 =? 0) with false by (symmetry; apply Z.eqb_neq; lia);
    replace (currentSeq d + 1 <? INT_MAX) with true by (symmetry; apply Z.ltb_lt; lia);
    replace (seq c0 =? currentSeq d + 1 + 1) with true by (symmetry; apply Z.eqb_eq; lia);
    reflexivity.
Qed.

(** C4, the code at the failing input: after chunk 6, the chunks after 7
    fill all slots but the last, and chunk 7 lands in the last slot.  The
    drain that follows appends chunk 7 and returns with chunk 8, the next
    one, still buffered in slot 0 (shown for arrays of 2 and of 8 slots). *)
Theorem processChunks_stops_before_next :
  let w2 := processAll [(("6 ok" ++ CRLF ++ "AB")%string, 10);
                        (("8" ++ CRLF ++ "EF")%string, 20);
                        (("7" ++ CRLF ++ "CD")%string, 30)]
                       (opened 2 "guppy://host/" 0) in
  let w8 := processAll [(("6 ok" ++ CRLF ++ "AB")%string, 10);
                        (("8" ++ CRLF ++ "EF")%string, 20);
                        (("9" ++ CRLF ++ "GH")%string, 30);
                        (("10" ++ CRLF ++ "IJ")%string, 40);
                        (("11" ++ CRLF ++ "KL")%string, 50);
                        (("12" ++ CRLF ++ "MN")%string, 60);
                        (("13" ++ CRLF ++ "OP")%string, 70);
                        (("14" ++ CRLF ++ "QR")%string, 80);
                        (("7" ++ CRLF ++ "CD")%string, 90)]
                       (opened 8 "guppy://host/" 0) in
  (currentSeq (guppy w2) = 7
   /\ chunks (guppy w2) !! 0%nat = Some (mkChunk 8 "EF")
   /\ body (guppy w2) = "ABCD"%string)
  /\ (currentSeq (guppy w8) = 7
      /\ chunks (guppy w8) !! 0%nat = Some (mkChunk 8 "EF")
      /\ body (guppy w8) = "ABCD"%string).
Proof. vm_compute. repeat split; reflexivity. Qed.

(** ** The iteration bound of the drain loop is never reached *)

Lemma occupied_cons (c : iGuppyChunk) (cs : list iGuppyChunk) :
  occupied (c :: cs)
  = ((if decide (seq c = 0%Z) then 0 else 1) + occupied cs)%nat.
Proof.
  unfold occupied. destruct (decide (seq c = 0)) as [E|E].
  - rewrite filter_cons_False; [reflexivity|]. intros H. apply H. exact E.
  - rewrite filter_cons_True by assumption. reflexivity.
Qed.

(** A scan either appends nothing and changes nothing, or lowers the
    measure. *)
Lemma processChunks_scan_measure (n : nat) (fSeq : Z) (cs : list iGuppyChunk) :
  forall i cur again cs' cur' again' log,
    processChunks_scan n fSeq i cs cur again = (cs', cur', again', log) ->
    (cs' = cs /\ cur' = cur /\ again' = again /\ log = [])
    \/ (drainMeasure cs' cur' < drainMeasure cs cur)%nat.
Proof.
  induction cs as [|c rest IH]; intros i cur again cs' cur' again' log H.
  - inversion H; subst. left. auto.
  - scan_step H IH.
    + right. apply deliverable_true in Hdel.
      assert (Hle : (drainMeasure r' cur' <= drainMeasure rest (seq c))%nat).
      { destruct (IH _ _ _ _ _ _ _ Hrec) as [(-> & -> & _)|Hlt]; lia. }
      unfold drainMeasure in *. rewrite !occupied_cons. simpl seq.
      destruct (decide (0 = 0)); [|contradiction].
      destruct (decide (seq c = 0)) as [E|E];
        destruct (Z.ltb_spec cur' 0), (Z.ltb_spec (seq c) 0), (Z.ltb_spec cur 0);
        lia.
    + destruct (IH _ _ _ _ _ _ _ Hrec) as [(-> & -> & -> & ->)|Hlt].
      * left. auto.
      * right. unfold drainMeasure in *. rewrite !occupied_cons. lia.
Qed.

Lemma processChunks_pass_measure (d d' : iGuppy) (log : list iGuppyChunk) :
  processChunks_pass d = (d', true, log) ->
  (drainMeasure (chunks d') (currentSeq d') < drainMeasure (chunks d) (currentSeq d))%nat.
Proof.
  unfold processChunks_pass. intros H.
  destruct (processChunks_scan _ _ _ _ _ _) as [[[cs' cur'] ag] lg] eqn:E.
  inversion H; subst; clear H. simpl.
  destruct (processChunks_scan_measure _ _ _ _ _ _ _ _ _ _ E)
    as [(_ & _ & Hag & _)|Hlt]; [discriminate|assumption].
Qed.

(** With enough iterations allowed, the bounded loop is the C loop. *)
Lemma processChunks_loop_doWhile :
  forall fuel d,
    (drainMeasure (chunks d) (currentSeq d) < fuel)%nat ->
    doWhile d (fst (processChunks_loop fuel d)) (snd (processChunks_loop fuel d)).
Proof.
  induction fuel as [|fuel IH]; intros d Hm; [lia|].
  simpl. destruct (processChunks_pass d) as [[d' again] log] eqn:E.
  destruct again.
  - pose proof (processChunks_pass_measure _ _ _ E) as Hlt.
    specialize (IH d' ltac:(lia)).
    destruct (processChunks_loop fuel d') as [d'' log']. simpl in *.
    eapply doWhile_again; eassumption.
  - simpl. apply doWhile_stop. assumption.
Qed.

(** [processChunks_Guppy_] always runs the loop to its end. *)
Lemma processChunks_Guppy_total (d : iGuppy) :
  exists d' log,
    doWhile d d' log
    /\ processChunks_Guppy_ d =
       (if negb (lastSeq d' =? 0) && (currentSeq d' =? lastSeq d' - 1)
        then set_state finished_GuppyState d' else d', log).
Proof.
  pose proof (processChunks_loop_doWhile
                (S (drainMeasure (chunks d) (currentSeq d))) d ltac:(lia)) as H.
  unfold processChunks_Guppy_.
  destruct (processChunks_loop _ d) as [d' log]. simpl in H.
  exists d', log. split; [assumption|reflexivity].
Qed.

(** ** What a read can do to the state *)

Lemma storeChunk_fields (d : iGuppy) (sq : Z) (payload : string) :
  let d' := storeChunk_Guppy_ d sq payload in
  state d' = state d /\ meta d' = meta d /\ body d' = body d
  /\ currentSeq d' = currentSeq d
  /\ firstSeq d' = firstSeq (noteFirstSeq d sq)
  /\ (firstSeq d <> 0 -> firstSeq d' = firstSeq d).
Proof.
  pose proof (noteFirstSeq_fields d sq) as F. simpl in F.
  destruct F as (F1 & F2 & F3 & F4 & F5 & F6 & F7 & F8 & F9).
  simpl.
  destruct (storeChunk_cases d sq payload)
    as [(_ & _ & ->)|[->|(j & _ & _ & _ & ->)]]; simpl;
    (repeat split; try assumption; try reflexivity);
    intros Hne; rewrite (F7 Hne); reflexivity.
Qed.

Lemma processChunks_Guppy_fields (d : iGuppy) :
  let d' := fst (processChunks_Guppy_ d) in
  firstSeq d' = firstSeq d /\ lastSeq d' = lastSeq d /\ meta d' = meta d
  /\ (state d' = state d
      \/ (state d' = finished_GuppyState
          /\ lastSeq d <> 0 /\ currentSeq d' = lastSeq d - 1)).
Proof.
  set (P := fun e => firstSeq e = firstSeq d /\ lastSeq e = lastSeq d
                     /\ meta e = meta d /\ state e = state d).
  assert (Hl : P (fst (processChunks_loop
                         (S (drainMeasure (chunks d) (currentSeq d))) d))).
  { apply processChunks_loop_keeps; [|repeat split].
    intros e e' again log Hp (P1 & P2 & P3 & P4).
    apply processChunks_pass_fields in Hp.
    destruct Hp as (Q1 & Q2 & Q3 & Q4 & _).
    repeat split; congruence. }
  destruct Hl as (P1 & P2 & P3 & P4).
  destruct (processChunks_Guppy_shape d) as [E|(E & H1 & H2)]; simpl in *;
    rewrite E; simpl.
  - auto.
  - repeat split; try assumption. right. rewrite <- P2. auto.
Qed.

Lemma cancel_Guppy_fields (w : World) :
  let d := guppy w in
  let d' := guppy (cancel_Guppy w) in
  state d' = state d /\ meta d' = meta d /\ body d' = body d
  /\ chunks d' = chunks d /\ firstSeq d' = firstSeq d
  /\ lastSeq d' = lastSeq d /\ currentSeq d' = currentSeq d
  /\ firstSent d' = firstSent d
  /\ trace (cancel_Guppy w) = trace w.
Proof. simpl. repeat split; reflexivity. Qed.

(** The session after a read: the drain applied to the session after the
    header, up to the timer fields that [cancel_Guppy] resets. *)
Lemma process_unfold (w : World) (bytes : string) (now : Z) :
  (guppy (process w bytes now) = guppy w
   \/ guppy (process w bytes now) = set_timer 0 (guppy w))
  \/ exists crlf,
      indexOfCStr_String bytes CRLF = Some crlf
      /\ let h := guppy (processHeader_ w (String.substring 0 crlf bytes)
                          (String.substring (crlf + 2)
                             (String.length bytes - crlf - 2) bytes) now) in
         let d' := fst (processChunks_Guppy_ h) in
         (guppy (process w bytes now) = d'
          \/ guppy (process w bytes now) = set_timer 0 d').
Proof.
  unfold process, processResponse_Guppy, cancelUnlessInProgress.
  destruct (String.length bytes =? 0)%nat.
  - left. simpl. destruct (isInProgress _); simpl; auto.
  - destruct (indexOfCStr_String bytes CRLF) as [crlf|].
    + right. exists crlf. split; [reflexivity|]. simpl.
      destruct (processChunks_Guppy_ _) as [d' log]. simpl.
      destruct (isInProgress (state d')); simpl; auto.
    + left. simpl. destruct (isInProgress _); simpl; auto.
Qed.

Lemma processHeader_known_first (w : World) (header payload : string) (now : Z) :
  firstSeq (guppy w) <> 0 ->
  let h := guppy (processHeader_ w header payload now) in
  firstSeq h = firstSeq (guppy w)
  /\ (state h = state (guppy w) \/ state h = invalidResponse_GuppyState).
Proof.
  intros Hf. unfold processHeader_.
  destruct (matchString_RegExp header) as [[c1 c2]|]; simpl; [|auto].
  destruct (Z.eqb_spec (firstSeq (guppy w)) 0); [contradiction|].
  destruct (6 <=? toInt_String c1); simpl; [|auto].
  destruct (isInProgress (state (guppy w))); simpl; [|auto].
  pose proof (storeChunk_fields (set_lastSent now (guppy w)) (toInt_String c1) payload)
    as F. simpl in F.
  destruct F as (F1 & _ & _ & _ & _ & F6). rewrite F1, (F6 Hf). auto.
Qed.

(** Once [firstSeq] is known, a read keeps it and either keeps the state
    or moves it to invalid-response or finished. *)
Lemma process_known_first (w : World) (bytes : string) (now : Z) :
  firstSeq (guppy w) <> 0 ->
  let d' := guppy (process w bytes now) in
  firstSeq d' = firstSeq (guppy w)
  /\ (state d' = state (guppy w)
      \/ state d' = invalidResponse_GuppyState
      \/ state d' = finished_GuppyState).
Proof.
  intros Hf. simpl.
  destruct (process_unfold w bytes now) as [[->| ->]|(crlf & _ & H)]; simpl; auto.
  simpl in H.
  match type of H with context [processHeader_ w ?hd ?pl now] =>
    pose proof (processHeader_known_first w hd pl now Hf) as [H1 H2];
    pose proof (processChunks_Guppy_fields (guppy (processHeader_ w hd pl now)))
      as (G1 & _ & _ & G4)
  end.
  simpl in *.
  destruct H as [-> | ->]; simpl; (split; [congruence|]);
    (destruct G4 as [G4|(G4 & _)]; rewrite G4;
     [destruct H2 as [E|E]; rewrite E; auto|auto]).
Qed.

(** C2 (as amended): once [firstSeq] is known and the state is not
    in-progress, no later sequence of reads brings it back to in-progress:
    the state stays, or becomes invalid-response or finished. *)
Theorem state_after_first_chunk (w : World) (reads : list (string * Z)) :
  firstSeq (guppy w) <> 0 ->
  state (guppy w) <> inProgress_GuppyState ->
  let w' := processAll reads w in
  firstSeq (guppy w') = firstSeq (guppy w)
  /\ state (guppy w') <> inProgress_GuppyState
  /\ (state (guppy w') = state (guppy w)
      \/ state (guppy w') = invalidResponse_GuppyState
      \/ state (guppy w') = finished_GuppyState).
Proof.
  revert w. unfold processAll.
  induction reads as [|[bytes now] reads IH]; intros w Hf Hs; simpl.
  - auto.
  - pose proof (process_known_first w bytes now Hf) as [H1 H2]. simpl in H1, H2.
    assert (Hs' : state (guppy (process w bytes now)) <> inProgress_GuppyState).
    { destruct H2 as [E|[E|E]]; rewrite E; [assumption|discriminate|discriminate]. }
    destruct (IH (process w bytes now)) as (I1 & I2 & I3);
      [congruence|assumption|].
    split; [congruence|]. split; [assumption|].
    destruct I3 as [E|[E|E]]; rewrite E; auto.
Qed.

Lemma state_after_first_chunk_witness :
  let w := processAll [(("6 ok" ++ CRLF ++ "AB")%string, 10);
                       (("oops" ++ CRLF)%string, 20)]
                      (opened 8 "guppy://host/" 0) in
  state (guppy w) = invalidResponse_GuppyState
  /\ state (guppy (processAll [(("7" ++ CRLF ++ "CD")%string, 30)] w))
     <> inProgress_GuppyState.
Proof.
  intros w. split; [vm_compute; reflexivity|].
  destruct (state_after_first_chunk w [(("7" ++ CRLF ++ "CD")%string, 30)])
    as (_ & H & _);
    [vm_compute; discriminate|vm_compute; discriminate|exact H].
Defined.

(** C2, counterexample: a status line 1 sets input-required; a next
    header 6 sets the state back to in-progress, and a next header 4 sets
    it to error instead. *)
Lemma terminal_state_overwritten :
  let w1 := process (opened 8 "guppy://host/" 0)
                    ("1 Enter passphrase" ++ CRLF) 10 in
  state (guppy w1) = inputRequired_GuppyState
  /\ state (guppy (process w1 ("6" ++ CRLF ++ "AB") 20)) = inProgress_GuppyState
  /\ state (guppy (process w1 ("4" ++ CRLF) 20)) = error_GuppyState.
Proof. vm_compute. repeat split; reflexivity. Qed.

(** ** The status line *)

Lemma substring_all (s : string) : String.substring 0 (String.length s) s = s.
Proof. induction s as [|a s IH]; simpl; [reflexivity|rewrite IH; reflexivity]. Qed.

Lemma statusLine_meta (captured : string) :
  (if (0 <? String.length captured)%nat
   then mid_String captured 1 (String.length captured - 1) else captured)
  = withoutSeparator captured.
Proof.
  destruct captured as [|a s]; [reflexivity|].
  unfold mid_String. simpl. rewrite Nat.sub_0_r. apply substring_all.
Qed.

(** The [switch]: state and metadata by status code. *)
Lemma statusLine_mapping (d : iGuppy) (sq : Z) (captured : string) :
  let d' := statusLine_ d sq captured in
  (sq = 0 \/ sq = 5 ->
   state d' = invalidResponse_GuppyState /\ meta d' = meta d)
  /\ (sq = 1 ->
      state d' = inputRequired_GuppyState /\ meta d' = withoutSeparator captured)
  /\ (sq = 3 ->
      state d' = redirect_GuppyState /\ meta d' = withoutSeparator captured)
  /\ (sq = 4 -> state d' = error_GuppyState /\ meta d' = meta d)
  /\ (isStatusCode sq = false -> state d' = inProgress_GuppyState)
  /\ firstSeq d' = firstSeq d /\ lastSeq d' = lastSeq d
  /\ currentSeq d' = currentSeq d /\ chunks d' = chunks d /\ body d' = body d.
Proof.
  unfold statusLine_, isStatusCode. rewrite statusLine_meta.
  destruct (Z.eqb_spec sq 0); destruct (Z.eqb_spec sq 5);
    destruct (Z.eqb_spec sq 1); destruct (Z.eqb_spec sq 3);
    destruct (Z.eqb_spec sq 4); simpl;
    repeat split; intros; try reflexivity; try lia; try discriminate.
Qed.

(** The drain of a session that has delivered nothing leaves [currentSeq]
    at 0 or at [firstSeq] or beyond. *)
Lemma processChunks_from_unset (d : iGuppy) :
  currentSeq d = 0 ->
  let d' := fst (processChunks_loop (S (drainMeasure (chunks d) (currentSeq d))) d) in
  currentSeq d' = 0 \/ (0 < firstSeq d /\ firstSeq d <= currentSeq d').
Proof.
  intros Hc d'. subst d'.
  assert (HD : Delivered (body d) (d, [])).
  { unfold Delivered. simpl. rewrite string_app_nil_r.
    split; [lia|]. split; [reflexivity|]. split; [reflexivity|].
    split; [auto|]. intros H. contradiction. }
  pose proof (Delivered_loop (body d) (S (drainMeasure (chunks d) (currentSeq d)))
                d [] HD) as HL.
  pose proof (processChunks_loop_keeps (fun e => firstSeq e = firstSeq d)) as Hk.
  specialize (Hk ltac:(intros e e' ag lg Hp He;
                       apply processChunks_pass_fields in Hp;
                       destruct Hp as (_ & _ & Hp & _); congruence)
                 (S (drainMeasure (chunks d) (currentSeq d))) d eq_refl).
  destruct (processChunks_loop _ d) as [d' log]. simpl in *.
  destruct HL as (_ & _ & _ & L4 & L5).
  destruct log as [|x log]; [left; auto|].
  right. destruct L5 as [L5 L6]; [discriminate|]. simpl length in L6. lia.
Qed.

(** C3: while [firstSeq] is unknown, a header that starts with digits is a
    status line.  After the header has been handled the state is
    invalid-response for 0 and 5 (metadata untouched), input-required for 1
    and redirect for 3 (metadata: the remainder without its first
    character), error for 4, and in-progress for every other value; when no
    watermark is known yet, the read as a whole ends in that state with
    that metadata. *)
Theorem status_line_mapping (w : World) (bytes : string) (now : Z)
        (crlf : nat) (c1 c2 : string) :
  firstSeq (guppy w) = 0 ->
  indexOfCStr_String bytes CRLF = Some crlf ->
  matchString_RegExp (String.substring 0 crlf bytes) = Some (c1, c2) ->
  let code := toInt_String c1 in
  let h := guppy (processHeader_ w (String.substring 0 crlf bytes)
                    (String.substring (crlf + 2)
                       (String.length bytes - crlf - 2) bytes) now) in
  let d' := guppy (process w bytes now) in
  (code = 0 \/ code = 5 ->
   state h = invalidResponse_GuppyState /\ meta h = meta (guppy w))
  /\ (code = 1 ->
      state h = inputRequired_GuppyState /\ meta h = withoutSeparator c2)
  /\ (code = 3 ->
      state h = redirect_GuppyState /\ meta h = withoutSeparator c2)
  /\ (code = 4 -> state h = error_GuppyState /\ meta h = meta (guppy w))
  /\ (isStatusCode code = false -> state h = inProgress_GuppyState)
  /\ (currentSeq (guppy w) = 0 -> lastSeq (guppy w) = 0 ->
      state d' = state h /\ meta d' = meta h).
Proof.
  intros Hf Hidx Hre code h d'.
  pose proof (statusLine_mapping (guppy w) code c2) as M. simpl in M.
  destruct M as (M1 & M2 & M3 & M4 & M5 & M6 & M7 & M8 & M9 & M10).
  set (s := statusLine_ (guppy w) code c2) in *.
  (* the session after the header: the status line, then maybe admission *)
  assert (Hh : (h = s /\ code < 6)
               \/ (6 <= code /\ state s = inProgress_GuppyState
                   /\ h = storeChunk_Guppy_ (set_lastSent now s) code
                          (String.substring (crlf + 2)
                             (String.length bytes - crlf - 2) bytes))).
  { subst h. unfold processHeader_. rewrite Hre. fold code.
    rewrite Hf. simpl. fold s.
    destruct (Z.leb_spec 6 code) as [Hge|Hlt]; simpl; [right|left; split; [reflexivity|lia]].
    assert (Hs : state s = inProgress_GuppyState).
    { apply M5. unfold isStatusCode.
      destruct (Z.eqb_spec code 0); [lia|]. destruct (Z.eqb_spec code 1); [lia|].
      destruct (Z.eqb_spec code 3); [lia|]. destruct (Z.eqb_spec code 4); [lia|].
      destruct (Z.eqb_spec code 5); [lia|]. reflexivity. }
    rewrite Hs. simpl. auto. }
  assert (Hsm : state h = state s /\ meta h = meta s).
  { destruct Hh as [[-> _]|(_ & _ & ->)]; [auto|].
    pose proof (storeChunk_fields (set_lastSent now s) code
                  (String.substring (crlf + 2)
                     (String.length bytes - crlf - 2) bytes)) as F.
    simpl in F. destruct F as (F1 & F2 & _). auto. }
  destruct Hsm as [Hst Hme]. rewrite Hst, Hme.
  split; [assumption|]. split; [assumption|]. split; [assumption|].
  split; [assumption|]. split; [assumption|].
  intros Hc Hl.
  (* the drain cannot reach the end-of-stream test's value *)
  assert (Hd : state (fst (processChunks_Guppy_ h)) = state h
               /\ meta (fst (processChunks_Guppy_ h)) = meta h).
  { pose proof (processChunks_Guppy_fields h) as G. simpl in G.
    destruct G as (_ & _ & G3 & G4). split; [|assumption].
    destruct G4 as [G4|(_ & G5 & G6)]; [assumption|exfalso].
    assert (G7 : currentSeq (fst (processChunks_loop
                                    (S (drainMeasure (chunks h) (currentSeq h))) h))
                 = lastSeq h - 1).
    { destruct (processChunks_Guppy_shape h) as [E|(E & _ & _)];
        rewrite E in G6; exact G6. }
    destruct Hh as [[Eh _]|(Hge & _ & Eh)]; [rewrite Eh in G5; congruence|].
    set (payload := String.substring (crlf + 2)
                      (String.length bytes - crlf - 2) bytes) in *.
    pose proof (storeChunk_fields (set_lastSent now s) code payload) as F.
    simpl in F. destruct F as (_ & _ & _ & F4 & F5 & _).
    assert (Hch : currentSeq h = 0) by (rewrite Eh, F4; congruence).
    pose proof (processChunks_from_unset h Hch) as Hu. cbv zeta in Hu.
    assert (Hls : lastSeq h = 0 \/ lastSeq h = code).
    { rewrite Eh.
      destruct (noteFirstSeq_fields (set_lastSent now s) code)
        as (_ & _ & _ & _ & N5 & _). simpl in N5.
      destruct (storeChunk_cases (set_lastSent now s) code payload)
        as [(_ & _ & ->)|[->|(j & _ & _ & _ & ->)]]; simpl;
        [right; reflexivity|left; congruence|left; congruence]. }
    assert (Hfs : firstSeq h = 0 \/ firstSeq h = code).
    { rewrite Eh, F5. unfold noteFirstSeq. simpl. rewrite M6, Hf. simpl.
      destruct (code <? INT_MAX); simpl; [right; reflexivity|left; congruence]. }
    lia. }
  destruct Hd as [Hd1 Hd2].
  subst d'. unfold process, processResponse_Guppy, cancelUnlessInProgress.
  assert (Hlen : (String.length bytes =? 0)%nat = false).
  { destruct bytes; [discriminate Hidx|reflexivity]. }
  rewrite Hlen, Hidx. fold h.
  destruct (processChunks_Guppy_ h) as [e log]. simpl in *.
  destruct (isInProgress (state e)); simpl; rewrite Hd1, Hd2, Hst, Hme; auto.
Qed.

Lemma status_line_mapping_witness :
  let w := opened 8 "guppy://host/" 0 in
  let w' := process w ("1 Enter passphrase" ++ CRLF) 10 in
  state (guppy w') = inputRequired_GuppyState
  /\ meta (guppy w') = "Enter passphrase"%string.
Proof.
  intros w w'.
  destruct (status_line_mapping w ("1 Enter passphrase" ++ CRLF) 10 18
              "1" " Enter passphrase")
    as (_ & H1 & _ & _ & _ & H6);
    [vm_compute; reflexivity|vm_compute; reflexivity|vm_compute; reflexivity|].
  destruct H1 as [A B]; [vm_compute; reflexivity|].
  destruct H6 as [C D]; [vm_compute; reflexivity|vm_compute; reflexivity|].
  subst w'. split; [rewrite C; exact A|rewrite D; exact B].
Defined.

(** ** The timeout *)

Lemma timeouts_app (a b : list Event) :
  timeouts (a ++ b) = (timeouts a + timeouts b)%nat.
Proof.
  induction a as [|e a IH]; simpl; [reflexivity|].
  destruct e; rewrite IH; reflexivity.
Qed.

(** A timer callback either notifies the timeout and returns 0, or writes
    at most one line and asks to be called again. *)
Lemma retryGuppy_cases (w : World) (now : Z) (status : iSocketStatus) :
  let '(w', interval) := retryGuppy_ w now status in
  firstSent (guppy w') = firstSent (guppy w)
  /\ sdlTimer w' = sdlTimer w
  /\ ((wrap64 (firstSent (guppy w) + 6000) <= now
       /\ interval = 0 /\ trace w' = trace w ++ [GuppyTimeout])
      \/ (now < wrap64 (firstSent (guppy w) + 6000)
          /\ interval = 100
          /\ (trace w' = trace w \/ exists line, trace w' = trace w ++ [Written line]))).
Proof.
  unfold retryGuppy_.
  destruct (Z.leb_spec (wrap64 (firstSent (guppy w) + 6000)) now) as [Hd|Hd].
  - simpl. split; [reflexivity|]. split; [reflexivity|]. left. auto.
  - destruct (_ && _ && _); [|destruct (_ && _)]; simpl;
      (split; [reflexivity|]; split; [reflexivity|]; right;
       split; [assumption|]; split; [reflexivity|]); eauto.
Qed.

Lemma tick_stopped (w : World) (now : Z) (status : iSocketStatus) :
  sdlTimer w = false -> tick w now status = w.
Proof. unfold tick. intros ->. reflexivity. Qed.

Lemma storeChunk_sent (d : iGuppy) (sq : Z) (payload : string) :
  firstSent (storeChunk_Guppy_ d sq payload) = firstSent d.
Proof.
  destruct (storeChunk_cases d sq payload)
    as [(_ & _ & ->)|[->|(j & _ & _ & _ & ->)]]; simpl;
    unfold noteFirstSeq; destruct (_ && _); reflexivity.
Qed.

Lemma processChunks_Guppy_sent (d : iGuppy) :
  firstSent (fst (processChunks_Guppy_ d)) = firstSent d.
Proof.
  pose proof (processChunks_loop_keeps (fun e => firstSent e = firstSent d)) as Hk.
  assert (Hstep : forall e e' again log,
             processChunks_pass e = (e', again, log) ->
             firstSent e = firstSent d -> firstSent e' = firstSent d).
  { intros e e' again log Hp He. unfold processChunks_pass in Hp.
    destruct (processChunks_scan _ _ _ _ _ _) as [[[cs' cur'] ag] lg].
    inversion Hp; subst. exact He. }
  specialize (Hk Hstep (S (drainMeasure (chunks d) (currentSeq d))) d eq_refl).
  destruct (processChunks_Guppy_shape d) as [->|[-> _]]; assumption.
Qed.

Lemma processHeader_world (w : World) (header payload : string) (now : Z) :
  let w' := processHeader_ w header payload now in
  firstSent (guppy w') = firstSent (guppy w)
  /\ sdlTimer w' = sdlTimer w
  /\ timeouts (trace w') = timeouts (trace w).
Proof.
  unfold processHeader_.
  destruct (matchString_RegExp header) as [[c1 c2]|]; simpl; [|auto].
  set (w1 := if firstSeq (guppy w) =? 0
             then on_guppy (fun d => statusLine_ d (toInt_String c1) c2) w
             else w).
  assert (H1 : firstSent (guppy w1) = firstSent (guppy w)
               /\ sdlTimer w1 = sdlTimer w /\ trace w1 = trace w).
  { subst w1. destruct (firstSeq (guppy w) =? 0); simpl; [|auto].
    unfold statusLine_.
    destruct (_ || _); [|destruct (_ =? 1); [|destruct (_ =? 3);
                                               [|destruct (_ =? 4)]]];
      simpl; auto. }
  destruct H1 as (A & B & C).
  destruct (6 <=? toInt_String c1); [|rewrite C; auto].
  destruct (isInProgress _); simpl;
    rewrite ?storeChunk_sent; simpl;
    rewrite C, timeouts_app; simpl; rewrite Nat.add_0_r; auto.
Qed.

(** A read leaves the first-send time alone, never starts the timer and
    never notifies a timeout. *)
Lemma process_world (w : World) (bytes : string) (now : Z) :
  let w' := process w bytes now in
  firstSent (guppy w') = firstSent (guppy w)
  /\ (sdlTimer w' = true -> sdlTimer w = true)
  /\ timeouts (trace w') = timeouts (trace w).
Proof.
  assert (Hc : forall v, firstSent (guppy (cancel_Guppy v)) = firstSent (guppy v)
                         /\ (sdlTimer (cancel_Guppy v) = true -> sdlTimer v = true)
                         /\ trace (cancel_Guppy v) = trace v).
  { intros v. simpl. repeat split. intros H. apply andb_true_iff in H. tauto. }
  unfold process, processResponse_Guppy, cancelUnlessInProgress.
  destruct (String.length bytes =? 0)%nat.
  - simpl. destruct (isInProgress _); [auto|].
    destruct (Hc w) as (A & B & C). rewrite C. auto.
  - destruct (indexOfCStr_String bytes CRLF) as [crlf|].
    + match goal with |- context [processHeader_ w ?hd ?pl now] =>
        pose proof (processHeader_world w hd pl now) as (A & B & C);
        pose proof (processChunks_Guppy_sent (guppy (processHeader_ w hd pl now))) as D
      end.
      destruct (processChunks_Guppy_ _) as [d' log]. simpl in *.
      destruct (isInProgress (state d')); simpl.
      * rewrite D, A, B, C. auto.
      * rewrite D, A, B, C. repeat split; try reflexivity.
        intros H. apply andb_true_iff in H. tauto.
    + simpl. destruct (isInProgress _); [auto|].
      destruct (Hc w) as (A & B & C). rewrite C. auto.
Qed.

Lemma step_stopped (w : World) (i : Input) :
  sdlTimer w = false ->
  sdlTimer (step w i) = false
  /\ timeouts (trace (step w i)) = timeouts (trace w).
Proof.
  intros Hoff. destruct i as [now status|bytes now|]; simpl.
  - rewrite tick_stopped by assumption. auto.
  - destruct (process_world w bytes now) as (_ & B & C). split; [|assumption].
    destruct (sdlTimer (process w bytes now)); [|reflexivity].
    rewrite <- Hoff. symmetry. apply B. reflexivity.
  - rewrite Hoff. auto.
Qed.

Lemma run_stopped (inputs : list Input) :
  forall w, sdlTimer w = false ->
            sdlTimer (run inputs w) = false
            /\ timeouts (trace (run inputs w)) = timeouts (trace w).
Proof.
  unfold run. induction inputs as [|i inputs IH]; intros w Hoff; simpl; [auto|].
  destruct (step_stopped w i Hoff) as [A B].
  destruct (IH (step w i) A) as [C D]. split; [assumption|congruence].
Qed.

Lemma run_ticks_stopped (l : list (Z * iSocketStatus)) :
  forall w, sdlTimer w = false -> run (ticks l) w = w.
Proof.
  unfold run. induction l as [|[now status] l IH]; intros w Hoff; simpl; [reflexivity|].
  rewrite tick_stopped by assumption. apply IH. assumption.
Qed.

Lemma step_timeoutInv (w : World) (i : Input) :
  timeoutInv w -> timeoutInv (step w i).
Proof.
  unfold timeoutInv. intros [I1 I2]. destruct (sdlTimer w) eqn:Hon.
  - specialize (I1 eq_refl).
    destruct i as [now status|bytes now|]; simpl.
    + unfold tick. rewrite Hon.
      pose proof (retryGuppy_cases w now status) as H.
      destruct (retryGuppy_ w now status) as [w' interval].
      destruct H as (_ & Hs & [(_ & -> & Ht)|(_ & -> & Ht)]); simpl.
      * split; [discriminate|]. rewrite Ht, timeouts_app, I1. simpl. lia.
      * assert (Hz : timeouts (trace w') = 0%nat).
        { destruct Ht as [->|[line ->]]; [assumption|].
          rewrite timeouts_app, I1. reflexivity. }
        split; [intros _; assumption|lia].
    + destruct (process_world w bytes now) as (_ & _ & C).
      split; [intros _|]; rewrite C; lia.
    + split; [intros _; assumption|assumption].
  - destruct (step_stopped w i Hon) as [A B].
    split; [rewrite A; discriminate|rewrite B; assumption].
Qed.

Lemma run_timeoutInv (inputs : list Input) :
  forall w, timeoutInv w -> timeoutInv (run inputs w).
Proof.
  unfold run. induction inputs as [|i inputs IH]; intros w H; simpl; [assumption|].
  apply IH. apply step_timeoutInv. assumption.
Qed.

(** Ticks before the deadline keep the timer and notify nothing. *)
Lemma run_ticks_early (l : list (Z * iSocketStatus)) :
  forall w,
    sdlTimer w = true ->
    Forall (fun p => fst p < wrap64 (firstSent (guppy w) + 6000)) l ->
    sdlTimer (run (ticks l) w) = true
    /\ firstSent (guppy (run (ticks l) w)) = firstSent (guppy w)
    /\ timeouts (trace (run (ticks l) w)) = timeouts (trace w).
Proof.
  unfold run.
  induction l as [|[now status] l IH]; intros w Hon Hall; simpl; [auto|].
  inversion Hall as [|? ? Hp Hl]; subst. simpl in Hp.
  assert (Ht : sdlTimer (tick w now status) = true
               /\ firstSent (guppy (tick w now status)) = firstSent (guppy w)
               /\ timeouts (trace (tick w now status)) = timeouts (trace w)).
  { unfold tick. rewrite Hon.
    pose proof (retryGuppy_cases w now status) as H.
    destruct (retryGuppy_ w now status) as [w' interval].
    destruct H as (Hf & Hs & [(Hd & _)|(_ & -> & Ht)]); [lia|]. simpl.
    split; [congruence|]. split; [assumption|].
    destruct Ht as [->|[line ->]]; [reflexivity|].
    rewrite timeouts_app. simpl. lia. }
  destruct Ht as (T1 & T2 & T3).
  destruct (IH (tick w now status) T1) as (A & B & C).
  - rewrite T2. assumption.
  - split; [assumption|]. split; congruence.
Qed.

(** C8: in a run of timer ticks of a session whose timer is registered,
    the first tick at or after [firstSent + 6000] notifies the timeout and
    removes the timer; whatever happens later, no further tick does
    anything (so the timer sends no request or acknowledgment), and the
    trace holds exactly one timeout notification.  In any run at all there
    is at most one. *)
Theorem timeout_raised_once (w : World) (before : list (Z * iSocketStatus))
        (now : Z) (status : iSocketStatus) (after : list Input) :
  sdlTimer w = true ->
  timeouts (trace w) = 0%nat ->
  0 <= firstSent (guppy w) < 2 ^ 64 - 6000 ->
  Forall (fun p => fst p < firstSent (guppy w) + 6000) before ->
  firstSent (guppy w) + 6000 <= now ->
  let w1 := run (ticks before) w in
  let w2 := tick w1 now status in
  let w3 := run after w2 in
  timeouts (trace w1) = 0%nat
  /\ trace w2 = trace w1 ++ [GuppyTimeout]
  /\ sdlTimer w2 = false
  /\ timeouts (trace w3) = 1%nat
  /\ sdlTimer w3 = false
  /\ (forall now' status', tick w3 now' status' = w3)
  /\ (forall later, run (ticks later) w3 = w3)
  /\ (forall inputs, (timeouts (trace (run inputs w)) <= 1)%nat).
Proof.
  intros Hon Hz Hrange Hbefore Hnow w1 w2 w3.
  assert (Hwrap : wrap64 (firstSent (guppy w) + 6000) = firstSent (guppy w) + 6000).
  { unfold wrap64. apply Z.mod_small. lia. }
  destruct (run_ticks_early before w Hon) as (A & B & C).
  { rewrite Hwrap. assumption. }
  fold w1 in A, B, C.
  assert (H2 : trace w2 = trace w1 ++ [GuppyTimeout] /\ sdlTimer w2 = false).
  { subst w2. unfold tick. rewrite A.
    pose proof (retryGuppy_cases w1 now status) as H.
    destruct (retryGuppy_ w1 now status) as [w' interval].
    destruct H as (_ & _ & [(_ & -> & Ht)|(Hd & _)]).
    - simpl. auto.
    - rewrite B, Hwrap in Hd. lia. }
  destruct H2 as [H2 H3].
  destruct (run_stopped after w2 H3) as [H4 H5]. fold w3 in H4, H5.
  split; [congruence|]. split; [assumption|]. split; [assumption|].
  split; [rewrite H5, H2, timeouts_app, C, Hz; reflexivity|].
  split; [assumption|].
  split; [intros; apply tick_stopped; assumption|].
  split; [intros; apply run_ticks_stopped; assumption|].
  intros inputs. apply run_timeoutInv. split; [intros _; assumption|lia].
Qed.

Lemma timeout_raised_once_witness :
  let w := opened 8 "guppy://host/" 0 in
  let w2 := tick (run (ticks [(100, connected_SocketStatus);
                              (1000, connected_SocketStatus);
                              (5900, connected_SocketStatus)]) w)
                 6000 connected_SocketStatus in
  let w3 := run [Tick 6100 connected_SocketStatus;
                 Read ("6 ok" ++ CRLF ++ "AB") 6150;
                 Tick 6700 connected_SocketStatus] w2 in
  sdlTimer w2 = false /\ timeouts (trace w3) = 1%nat.
Proof.
  intros w w2 w3.
  destruct (timeout_raised_once w
              [(100, connected_SocketStatus); (1000, connected_SocketStatus);
               (5900, connected_SocketStatus)]
              6000 connected_SocketStatus
              [Tick 6100 connected_SocketStatus;
               Read ("6 ok" ++ CRLF ++ "AB") 6150;
               Tick 6700 connected_SocketStatus])
    as (_ & _ & H3 & H4 & _).
  - reflexivity.
  - reflexivity.
  - vm_compute. split; [discriminate|reflexivity].
  - repeat constructor.
  - vm_compute. discriminate.
  - split; [exact H3|exact H4].
Defined.

(** ** The end-to-end scenario *)

(** The loop of [processChunks_Guppy_] computes what the C loop does. *)
Lemma doWhile_loop (d d' : iGuppy) (log : list iGuppyChunk) :
  doWhile d d' log ->
  forall fuel, (drainMeasure (chunks d) (currentSeq d) < fuel)%nat ->
               processChunks_loop fuel d = (d', log).
Proof.
  induction 1 as [d d' log Hp|d d' d'' log log' Hp Hrest IH]; intros fuel Hm.
  - destruct fuel as [|fuel]; [lia|]. simpl. rewrite Hp. reflexivity.
  - destruct fuel as [|fuel]; [lia|]. simpl. rewrite Hp.
    pose proof (processChunks_pass_measure _ _ _ Hp) as Hlt.
    rewrite (IH fuel) by lia. reflexivity.
Qed.

Lemma processChunks_Guppy_doWhile (d d' : iGuppy) (log : list iGuppyChunk) :
  doWhile d d' log ->
  processChunks_Guppy_ d =
  (if negb (lastSeq d' =? 0) && (currentSeq d' =? lastSeq d' - 1)
   then set_state finished_GuppyState d' else d', log).
Proof.
  intros H. unfold processChunks_Guppy_.
  rewrite (doWhile_loop _ _ _ H) by lia. reflexivity.
Qed.

(** Free slots at the end of the array change neither scan. *)
Lemma storeChunk_scan_free_tail (fSeq lSeq sq : Z) (k : nat) :
  forall i slot mx ms,
    sq <> 0 -> 0 <= slot -> 0 <= mx ->
    storeChunk_scan fSeq lSeq sq (replicate k emptyChunk) i slot mx ms
    = (false, slot, ms).
Proof.
  induction k as [|k IH]; intros i slot mx ms Hsq Hslot Hmx; [reflexivity|].
  change (replicate (S k) emptyChunk) with (emptyChunk :: replicate k emptyChunk).
  cbn [storeChunk_scan]. change (seq emptyChunk) with 0.
  destruct (Z.eqb_spec 0 sq); [congruence|].
  replace (slot <? 0) with false by (symmetry; apply Z.ltb_ge; lia). simpl.
  replace (0 >? mx) with false
    by (symmetry; destruct (Z.gtb_spec 0 mx); [lia|reflexivity]).
  apply IH; assumption.
Qed.

Lemma processChunks_scan_free_tail (n : nat) (fSeq : Z) (k : nat) :
  forall i cur again,
    deliverable fSeq cur emptyChunk = false ->
    processChunks_scan n fSeq i (replicate k emptyChunk) cur again
    = (replicate k emptyChunk, cur, again, []).
Proof.
  intros i cur again H. apply processChunks_scan_none.
  apply Forall_replicate. assumption.
Qed.

(** Admission into the first reusable slot. *)
Lemma storeChunk_scan_first_free (fSeq lSeq sq : Z) (pre : list iGuppyChunk) :
  forall i mx ms c rest,
    Forall (fun c => reusable fSeq lSeq c = false /\ seq c <> sq) pre ->
    reusable fSeq lSeq c = true -> seq c <> sq ->
    Forall (fun c => seq c <> sq) rest ->
    fst (storeChunk_scan fSeq lSeq sq (pre ++ c :: rest) i (-1) mx ms)
    = (false, Z.of_nat (i + length pre)).
Proof.
  induction pre as [|p pre IH]; intros i mx ms c rest Hpre Hc Hne Hrest.
  - simpl. destruct (Z.eqb_spec (seq c) sq); [contradiction|].
    rewrite Hc. simpl.
    rewrite Nat.add_0_r.
    destruct (seq c >? mx);
      match goal with |- fst ?t = _ =>
        rewrite (surjective_pairing t), (surjective_pairing (fst t)) end; simpl;
      rewrite storeChunk_scan_not_found by assumption;
      rewrite storeChunk_scan_kept_slot by lia; reflexivity.
  - inversion Hpre as [|? ? [Hp1 Hp2] Hpre']; subst. simpl.
    destruct (Z.eqb_spec (seq p) sq); [contradiction|].
    rewrite Hp1. simpl.
    replace (i + S (length pre))%nat with (S i + length pre)%nat by lia.
    destruct (seq p >? mx); apply IH; assumption.
Qed.

Lemma storeChunk_into_free (d : iGuppy) (sq : Z) (payload : string)
      (pre rest : list iGuppyChunk) (c : iGuppyChunk) :
  let d1 := noteFirstSeq d sq in
  payload <> ""%string ->
  outOfWindow d1 sq = false ->
  chunks d = pre ++ c :: rest ->
  Forall (fun c => reusable (firstSeq d1) (lastSeq d1) c = false /\ seq c <> sq) pre ->
  reusable (firstSeq d1) (lastSeq d1) c = true -> seq c <> sq ->
  Forall (fun c => seq c <> sq) rest ->
  storeChunk_Guppy_ d sq payload
  = set_chunks (pre ++ mkChunk sq payload :: rest) d1.
Proof.
  intros d1 Hp Hw Hcs Hpre Hc Hne Hrest.
  destruct (noteFirstSeq_fields d sq) as (_ & _ & _ & F4 & _).
  fold d1 in F4.
  unfold storeChunk_Guppy_. fold d1. rewrite Hw.
  replace (String.length payload =? 0)%nat with false
    by (destruct payload; [contradiction|reflexivity]).
  rewrite andb_false_r.
  pose proof (storeChunk_scan_first_free (firstSeq d1) (lastSeq d1) sq pre
                0 (-1) (-1) c rest Hpre Hc Hne Hrest) as Hscan.
  rewrite F4, Hcs.
  destruct (storeChunk_scan _ _ _ _ _ _ _ _) as [[found slot] ms].
  simpl in Hscan. inversion Hscan; subst found slot.
  replace (Z.of_nat (length pre) <? 0) with false
    by (symmetry; apply Z.ltb_ge; lia).
  rewrite andb_false_r.
  replace (0 <=? Z.of_nat (length pre)) with true
    by (symmetry; apply Z.leb_le; lia).
  rewrite Nat2Z.id.
  f_equal. rewrite insert_app_r_alt by lia.
  rewrite Nat.sub_diag. reflexivity.
Qed.

(** A pass over an array that ends in free slots. *)
Lemma processChunks_pass_padded (d : iGuppy) (pre : list iGuppyChunk) (k : nat)
      (pre' : list iGuppyChunk) (cur' : Z) (again : bool) (log : list iGuppyChunk) :
  chunks d = pre ++ replicate k emptyChunk ->
  processChunks_scan (length pre + k) (firstSeq d) 0 pre (currentSeq d) false
  = (pre', cur', again, log) ->
  deliverable (firstSeq d) cur' emptyChunk = false ->
  processChunks_pass d
  = (set_body (body d ++ payloads log)%string
       (set_currentSeq cur' (set_chunks (pre' ++ replicate k emptyChunk) d)),
     again, log).
Proof.
  intros Hcs Hscan Hfree. unfold processChunks_pass.
  rewrite Hcs, length_app, length_replicate, processChunks_scan_app, Hscan.
  rewrite processChunks_scan_free_tail by assumption.
  rewrite app_nil_r. reflexivity.
Qed.

(** A read with a header line, step by step. *)
Lemma process_with_header (w : World) (bytes : string) (now : Z) (crlf : nat) :
  indexOfCStr_String bytes CRLF = Some crlf ->
  process w bytes now
  = let w2 := processHeader_ w (String.substring 0 crlf bytes)
                (String.substring (crlf + 2)
                   (String.length bytes - crlf - 2) bytes) now in
    cancelUnlessInProgress
      (mkWorld (fst (processChunks_Guppy_ (guppy w2))) (trace w2) (sdlTimer w2)).
Proof.
  intros Hidx. unfold process, processResponse_Guppy.
  replace (String.length bytes =? 0)%nat with false
    by (destruct bytes; [discriminate Hidx|reflexivity]).
  rewrite Hidx. cbv zeta.
  destruct (processChunks_Guppy_ _) as [d' log]. reflexivity.
Qed.

(** A chunk header read by a session that is streaming. *)
Lemma processHeader_chunk (w : World) (header payload : string) (now : Z)
      (c1 c2 : string) :
  matchString_RegExp header = Some (c1, c2) ->
  firstSeq (guppy w) <> 0 ->
  6 <= toInt_String c1 ->
  state (guppy w) = inProgress_GuppyState ->
  processHeader_ w header payload now
  = mkWorld (storeChunk_Guppy_ (set_lastSent now (guppy w)) (toInt_String c1) payload)
            (trace w ++ [Written (format_int (toInt_String c1) ++ CRLF)%string])
            (sdlTimer w).
Proof.
  intros Hre Hf Hge Hst. unfold processHeader_. rewrite Hre.
  replace (firstSeq (guppy w) =? 0) with false by (symmetry; apply Z.eqb_neq; lia).
  replace (6 <=? toInt_String c1) with true by (symmetry; apply Z.leb_le; lia).
  simpl. rewrite Hst. reflexivity.
Qed.

(** The first header read by a new session, when it carries a chunk. *)
Lemma processHeader_first_chunk (w : World) (header payload : string) (now : Z)
      (c1 c2 : string) :
  matchString_RegExp header = Some (c1, c2) ->
  firstSeq (guppy w) = 0 ->
  6 <= toInt_String c1 ->
  processHeader_ w header payload now
  = mkWorld (storeChunk_Guppy_
               (set_lastSent now
                  (set_meta (withoutSeparator c2)
                     (set_state inProgress_GuppyState (guppy w))))
               (toInt_String c1) payload)
            (trace w ++ [Written (format_int (toInt_String c1) ++ CRLF)%string])
            (sdlTimer w).
Proof.
  intros Hre Hf Hge. unfold processHeader_. rewrite Hre, Hf.
  replace (6 <=? toInt_String c1) with true by (symmetry; apply Z.leb_le; lia).
  simpl. unfold statusLine_. rewrite statusLine_meta.
  destruct (Z.eqb_spec (toInt_String c1) 0); [lia|].
  destruct (Z.eqb_spec (toInt_String c1) 5); [lia|].
  destruct (Z.eqb_spec (toInt_String c1) 1); [lia|].
  destruct (Z.eqb_spec (toInt_String c1) 3); [lia|].
  destruct (Z.eqb_spec (toInt_String c1) 4); [lia|].
  reflexivity.
Qed.

(** Computes a pass over an array made of [pre] and [k] free slots. *)
Ltac padded_pass pre k :=
  etransitivity;
  [eapply (processChunks_pass_padded _ pre k); reflexivity|reflexivity].

Lemma scenario_step1 (k : nat) (u : string) :
  process (opened (S (S (S k))) u 0) ("6 hello" ++ CRLF ++ "AB") 10
  = mkWorld (mkGuppy inProgress_GuppyState u "hello" "AB" 1 0 10
               (replicate (S (S (S k))) emptyChunk) 6 0 6)
            [Written (u ++ CRLF)%string; Written ("6" ++ CRLF)%string] true.
Proof.
  rewrite (process_with_header _ _ _ 7) by reflexivity. cbv zeta.
  rewrite (processHeader_first_chunk _ _ _ _ "6" " hello")
    by (vm_compute; first [reflexivity|discriminate]).
  change (toInt_String "6") with 6.
  rewrite (storeChunk_into_free _ _ _ [] (replicate (S (S k)) emptyChunk) emptyChunk);
    [|vm_compute; discriminate|reflexivity|reflexivity|constructor|reflexivity
     |discriminate|apply Forall_replicate; discriminate].
  rewrite (processChunks_Guppy_doWhile _
             (mkGuppy inProgress_GuppyState u "hello" "AB" 1 0 10
                (replicate (S (S (S k))) emptyChunk) 6 0 6)
             ([mkChunk 6 "AB"] ++ [])).
  - reflexivity.
  - eapply doWhile_again; [padded_pass [mkChunk 6 "AB"] (S (S k))|].
    eapply doWhile_stop. padded_pass [emptyChunk] (S (S k)).
Qed.

Lemma scenario_step2 (k : nat) (u : string) (tr : list Event) :
  process (mkWorld (mkGuppy inProgress_GuppyState u "hello" "AB" 1 0 10
                      (replicate (S (S (S k))) emptyChunk) 6 0 6) tr true)
          ("8" ++ CRLF ++ "EF") 20
  = mkWorld (mkGuppy inProgress_GuppyState u "hello" "AB" 1 0 20
               (mkChunk 8 "EF" :: replicate (S (S k)) emptyChunk) 6 0 6)
            (tr ++ [Written ("8" ++ CRLF)%string]) true.
Proof.
  rewrite (process_with_header _ _ _ 1) by reflexivity. cbv zeta.
  rewrite (processHeader_chunk _ _ _ _ "8" "")
    by (vm_compute; first [reflexivity|discriminate]).
  change (toInt_String "8") with 8.
  rewrite (storeChunk_into_free _ _ _ [] (replicate (S (S k)) emptyChunk) emptyChunk);
    [|vm_compute; discriminate|reflexivity|reflexivity|constructor|reflexivity
     |discriminate|apply Forall_replicate; discriminate].
  rewrite (processChunks_Guppy_doWhile _
             (mkGuppy inProgress_GuppyState u "hello" "AB" 1 0 20
                (mkChunk 8 "EF" :: replicate (S (S k)) emptyChunk) 6 0 6) []).
  - reflexivity.
  - eapply doWhile_stop. padded_pass [mkChunk 8 "EF"] (S (S k)).
Qed.

Lemma scenario_step3 (k : nat) (u : string) (tr : list Event) :
  process (mkWorld (mkGuppy inProgress_GuppyState u "hello" "AB" 1 0 20
                      (mkChunk 8 "EF" :: replicate (S (S k)) emptyChunk) 6 0 6)
                   tr true)
          ("7" ++ CRLF ++ "CD") 30
  = mkWorld (mkGuppy inProgress_GuppyState u "hello" "ABCDEF" 1 0 30
               (replicate (S (S (S k))) emptyChunk) 6 0 8)
            (tr ++ [Written ("7" ++ CRLF)%string]) true.
Proof.
  rewrite (process_with_header _ _ _ 1) by reflexivity. cbv zeta.
  rewrite (processHeader_chunk _ _ _ _ "7" "")
    by (vm_compute; first [reflexivity|discriminate]).
  change (toInt_String "7") with 7.
  rewrite (storeChunk_into_free _ _ _ [mkChunk 8 "EF"]
             (replicate (S k) emptyChunk) emptyChunk);
    [|vm_compute; discriminate|reflexivity|reflexivity
     |constructor; [split; [reflexivity|discriminate]|constructor]
     |reflexivity|discriminate|apply Forall_replicate; discriminate].
  rewrite (processChunks_Guppy_doWhile _
             (mkGuppy inProgress_GuppyState u "hello" "ABCDEF" 1 0 30
                (replicate (S (S (S k))) emptyChunk) 6 0 8)
             ([mkChunk 7 "CD"] ++ [mkChunk 8 "EF"] ++ [])).
  - reflexivity.
  - eapply doWhile_again;
      [padded_pass [mkChunk 8 "EF"; mkChunk 7 "CD"] (S k)|].
    eapply doWhile_again;
      [padded_pass [mkChunk 8 "EF"; emptyChunk] (S k)|].
    eapply doWhile_stop. padded_pass [emptyChunk; emptyChunk] (S k).
Qed.

Lemma scenario_step4 (k : nat) (u : string) (tr : list Event) :
  process (mkWorld (mkGuppy inProgress_GuppyState u "hello" "ABCDEF" 1 0 30
                      (replicate (S (S (S k))) emptyChunk) 6 0 8) tr true)
          ("9" ++ CRLF) 40
  = mkWorld (mkGuppy finished_GuppyState u "hello" "ABCDEF" 0 0 40
               (replicate (S (S (S k))) emptyChunk) 6 9 8)
            (tr ++ [Written ("9" ++ CRLF)%string]) false.
Proof.
  rewrite (process_with_header _ _ _ 1) by reflexivity. cbv zeta.
  rewrite (processHeader_chunk _ _ _ _ "9" "")
    by (vm_compute; first [reflexivity|discriminate]).
  change (toInt_String "9") with 9.
  rewrite (processChunks_Guppy_doWhile _
             (mkGuppy inProgress_GuppyState u "hello" "ABCDEF" 1 0 40
                (replicate (S (S (S k))) emptyChunk) 6 9 8) []).
  - reflexivity.
  - eapply doWhile_stop. padded_pass (@nil iGuppyChunk) (S (S (S k))).
Qed.

(** C1: a new session with at least three slots, opened at time 0.  The
    read with status line 6 and payload AB leaves the session in progress,
    acknowledges 6 and delivers AB; chunk 8 is buffered; chunk 7 lets the
    drain deliver CD and then EF; the terminator 9 sets [lastSeq] and the
    session is finished. *)
Theorem reassembly_scenario (n : nat) (u : string) :
  (3 <= n)%nat ->
  let w0 := opened n u 0 in
  let w1 := process w0 ("6 hello" ++ CRLF ++ "AB") 10 in
  let w2 := process w1 ("8" ++ CRLF ++ "EF") 20 in
  let w3 := process w2 ("7" ++ CRLF ++ "CD") 30 in
  let w4 := process w3 ("9" ++ CRLF) 40 in
  (state (guppy w1) = inProgress_GuppyState
   /\ trace w1 = trace w0 ++ [Written ("6" ++ CRLF)%string]
   /\ body (guppy w1) = "AB"%string
   /\ currentSeq (guppy w1) = 6)
  /\ (chunks (guppy w2) !! 0%nat = Some (mkChunk 8 "EF")
      /\ body (guppy w2) = "AB"%string
      /\ currentSeq (guppy w2) = 6)
  /\ (body (guppy w3) = "ABCDEF"%string
      /\ currentSeq (guppy w3) = 8)
  /\ (lastSeq (guppy w4) = 9
      /\ currentSeq (guppy w4) = 8
      /\ body (guppy w4) = "ABCDEF"%string
      /\ state (guppy w4) = finished_GuppyState).
Proof.
  intros Hn. destruct n as [|[|[|k]]]; try lia.
  intros w0 w1 w2 w3 w4.
  assert (H1 := scenario_step1 k u). fold w0 w1 in H1.
  assert (H2 := scenario_step2 k u
                  [Written (u ++ CRLF)%string; Written ("6" ++ CRLF)%string]).
  rewrite <- H1 in H2. fold w2 in H2.
  assert (H3 := scenario_step3 k u
                  ([Written (u ++ CRLF)%string; Written ("6" ++ CRLF)%string]
                     ++ [Written ("8" ++ CRLF)%string])).
  rewrite <- H2 in H3. fold w3 in H3.
  assert (H4 := scenario_step4 k u
                  (([Written (u ++ CRLF)%string; Written ("6" ++ CRLF)%string]
                      ++ [Written ("8" ++ CRLF)%string])
                     ++ [Written ("7" ++ CRLF)%string])).
  rewrite <- H3 in H4. fold w4 in H4.
  rewrite H1, H2, H3, H4. simpl.
  repeat split; reflexivity.
Qed.

Lemma reassembly_scenario_witness :
  let w0 := opened 8 "guppy://host/" 0 in
  let w1 := process w0 ("6 hello" ++ CRLF ++ "AB") 10 in
  let w2 := process w1 ("8" ++ CRLF ++ "EF") 20 in
  let w3 := process w2 ("7" ++ CRLF ++ "CD") 30 in
  let w4 := process w3 ("9" ++ CRLF) 40 in
  body (guppy w3) = "ABCDEF"%string /\ state (guppy w4) = finished_GuppyState.
Proof.
  intros w0 w1 w2 w3 w4.
  destruct (reassembly_scenario 8 "guppy://host/") as (_ & _ & [H3 _] & (_ & _ & _ & H4));
    [lia|].
  split; [exact H3|exact H4].
Defined.

(** * Further properties of the code *)

(** ** Array bounds of the admission scan *)

Lemma storeChunk_scan_bounds (fSeq lSeq sq : Z) (cs : list iGuppyChunk) :
  forall i slot mx ms,
    (slot = -1 \/ 0 <= slot < Z.of_nat i) ->
    (ms = -1 \/ 0 <= ms < Z.of_nat i) ->
    let r := storeChunk_scan fSeq lSeq sq cs i slot mx ms in
    (snd (fst r) = -1 \/ 0 <= snd (fst r) < Z.of_nat (i + length cs))
    /\ (snd r = -1 \/ 0 <= snd r < Z.of_nat (i + length cs)).
Proof.
  induction cs as [|c cs IH]; intros i slot mx ms Hs Hm; simpl.
  - rewrite Nat.add_0_r. auto.
  - destruct (seq c =? sq); simpl; [split; lia|].
    replace (i + S (length cs))%nat with (S i + length cs)%nat by lia.
    destruct ((slot <? 0) && reusable fSeq lSeq c);
      destruct (seq c >? mx); apply IH; lia.
Qed.

(** X1: the slot the scan of [storeChunk_Guppy_] proposes and its eviction
    candidate are either -1 or positions of the array, so the write to
    [d->chunks[slot]] is always inside the array. *)
Theorem storeChunk_scan_in_bounds (fSeq lSeq sq : Z) (cs : list iGuppyChunk) :
  let r := storeChunk_scan fSeq lSeq sq cs 0 (-1) (-1) (-1) in
  (snd (fst r) = -1 \/ 0 <= snd (fst r) < Z.of_nat (length cs))
  /\ (snd r = -1 \/ 0 <= snd r < Z.of_nat (length cs)).
Proof.
  apply (storeChunk_scan_bounds fSeq lSeq sq cs 0 (-1) (-1) (-1)); left; reflexivity.
Qed.

(** ** Admission into the first reusable slot *)

(** X2: a data chunk inside the window whose number no slot holds is
    written into the first slot that is free or holds a number outside the
    window; every other slot and every other field but [firstSeq] stay as
    they were. *)
Theorem storeChunk_first_reusable (d : iGuppy) (sq : Z) (payload : string)
        (pre rest : list iGuppyChunk) (c : iGuppyChunk) :
  (lastSeq d = 0 -> payload <> ""%string) ->
  outOfWindow (noteFirstSeq d sq) sq = false ->
  chunks d = pre ++ c :: rest ->
  Forall (fun c => reusable (firstSeq (noteFirstSeq d sq)) (lastSeq d) c = false) pre ->
  reusable (firstSeq (noteFirstSeq d sq)) (lastSeq d) c = true ->
  Forall (fun c => seq c <> sq) (chunks d) ->
  storeChunk_Guppy_ d sq payload
  = set_chunks (pre ++ mkChunk sq payload :: rest) (noteFirstSeq d sq).
Proof.
  intros Hp Hw Hcs Hpre Hc Hall.
  destruct (noteFirstSeq_fields d sq) as (_ & _ & _ & F4 & F5 & _).
  set (d1 := noteFirstSeq d sq) in *.
  rewrite Hcs in Hall. apply Forall_app in Hall. destruct Hall as [Hpre' Hrest].
  inversion Hrest as [|? ? Hne Hrest']; subst.
  assert (Hpre2 : Forall (fun c => reusable (firstSeq d1) (lastSeq d1) c = false
                                   /\ seq c <> sq) pre).
  { rewrite F5. apply Forall_and. split; assumption. }
  pose proof (storeChunk_scan_first_free (firstSeq d1) (lastSeq d1) sq pre
                0 (-1) (-1) c rest Hpre2) as Hscan.
  rewrite F5 in Hscan. specialize (Hscan Hc Hne Hrest').
  unfold storeChunk_Guppy_. fold d1. rewrite Hw, F5, F4, Hcs.
  replace ((lastSeq d =? 0) && (String.length payload =? 0)%nat) with false.
  2:{ symmetry. destruct (Z.eqb_spec (lastSeq d) 0) as [E|E]; [|reflexivity].
      specialize (Hp E). destruct payload; [contradiction|reflexivity]. }
  destruct (storeChunk_scan _ _ _ _ _ _ _ _) as [[found slot] ms].
  simpl in Hscan. inversion Hscan; subst found slot.
  replace (Z.of_nat (length pre) <? 0) with false
    by (symmetry; apply Z.ltb_ge; lia).
  rewrite andb_false_r.
  replace (0 <=? Z.of_nat (length pre)) with true
    by (symmetry; apply Z.leb_le; lia).
  rewrite Nat2Z.id. f_equal.
  rewrite insert_app_r_alt by lia. rewrite Nat.sub_diag. reflexivity.
Qed.

Lemma storeChunk_first_reusable_witness :
  let d := set_chunks [mkChunk 8 "EF"; mkChunk 12 "ZZ"; emptyChunk]
             (set_lastSeq 9 (set_currentSeq 6 (set_firstSeq 6 (init_Guppy 3 "")))) in
  chunks (storeChunk_Guppy_ d 7 "CD")
  = [mkChunk 8 "EF"; mkChunk 7 "CD"; emptyChunk].
Proof.
  intros d.
  rewrite (storeChunk_first_reusable d 7 "CD" [mkChunk 8 "EF"] [emptyChunk]
             (mkChunk 12 "ZZ")).
  - reflexivity.
  - intros _. discriminate.
  - reflexivity.
  - reflexivity.
  - repeat constructor.
  - reflexivity.
  - repeat constructor; discriminate.
Defined.

(** ** What a drain does to the slots *)

Lemma keptOrAppended_weaken (l1 l2 : list iGuppyChunk) (c c' : iGuppyChunk) :
  (forall x, x ∈ l1 -> x ∈ l2) -> keptOrAppended l1 c c' -> keptOrAppended l2 c c'.
Proof. intros Hsub [H|[H1 H2]]; [left; assumption|right; auto]. Qed.

Lemma keptOrAppended_compose (l1 l2 : list iGuppyChunk) (a b : list iGuppyChunk) :
  Forall2 (keptOrAppended l1) a b ->
  forall c, Forall2 (keptOrAppended l2) b c ->
            Forall2 (keptOrAppended (l1 ++ l2)) a c.
Proof.
  induction 1 as [|x y a b Hxy Hab IH]; intros c Hbc.
  - inversion Hbc; subst. constructor.
  - inversion Hbc as [|? z ? c' Hyz Hbc']; subst. constructor; [|apply IH; assumption].
    destruct Hxy as [->|[-> Hx]].
    + eapply keptOrAppended_weaken; [|exact Hyz].
      intros e He. apply elem_of_app. right. assumption.
    + destruct Hyz as [->|[-> _]];
        right; (split; [reflexivity|apply elem_of_app; left; assumption]).
Qed.

Lemma processChunks_scan_kept (n : nat) (fSeq : Z) (cs : list iGuppyChunk) :
  forall i cur again cs' cur' again' log,
    processChunks_scan n fSeq i cs cur again = (cs', cur', again', log) ->
    Forall2 (keptOrAppended log) cs cs'.
Proof.
  induction cs as [|c rest IH]; intros i cur again cs' cur' again' log H.
  - inversion H; subst. constructor.
  - scan_step H IH.
    + constructor.
      * right. split; [reflexivity|left].
      * eapply Forall2_impl; [eapply IH; eassumption|].
        intros x y. apply keptOrAppended_weaken. intros e He. right. assumption.
    + constructor; [left; reflexivity|eapply IH; eassumption].
Qed.

Lemma processChunks_loop_kept :
  forall fuel d,
    let r := processChunks_loop fuel d in
    Forall2 (keptOrAppended (snd r)) (chunks d) (chunks (fst r))
    /\ body (fst r) = (body d ++ payloads (snd r))%string.
Proof.
  induction fuel as [|fuel IH]; intros d; simpl.
  - split; [|rewrite string_app_nil_r; reflexivity].
    apply Forall2_same_length_lookup_2; [reflexivity|].
    intros i x y Hx Hy. left. congruence.
  - destruct (processChunks_pass d) as [[d' again] log] eqn:E.
    assert (Hp : Forall2 (keptOrAppended log) (chunks d) (chunks d')
                 /\ body d' = (body d ++ payloads log)%string).
    { unfold processChunks_pass in E.
      destruct (processChunks_scan _ _ _ _ _ _) as [[[cs' cur'] ag] lg] eqn:Es.
      inversion E; subst. simpl. split; [|reflexivity].
      eapply processChunks_scan_kept; eassumption. }
    destruct Hp as [Hp1 Hp2].
    destruct again; [|simpl; auto].
    specialize (IH d'). simpl in IH.
    destruct (processChunks_loop fuel d') as [d'' log']. simpl in *.
    destruct IH as [I1 I2]. split.
    + eapply keptOrAppended_compose; eassumption.
    + rewrite I2, Hp2, payloads_app, string_app_assoc. reflexivity.
Qed.

Lemma processChunks_Guppy_kept (d : iGuppy) :
  let r := processChunks_Guppy_ d in
  Forall2 (keptOrAppended (snd r)) (chunks d) (chunks (fst r))
  /\ body (fst r) = (body d ++ payloads (snd r))%string.
Proof.
  pose proof (processChunks_loop_kept
                (S (drainMeasure (chunks d) (currentSeq d))) d) as H.
  unfold processChunks_Guppy_.
  destruct (processChunks_loop _ d) as [d' log]. simpl in *.
  destruct (negb _ && _); simpl; exact H.
Qed.

(** X3: a drain loses no chunk.  Every slot is either left exactly as it
    was or freed, and a freed slot's chunk is among those appended; the
    body grows by the payloads of the appended chunks, in order. *)
Theorem processChunks_keeps_or_appends (d : iGuppy) :
  let r := processChunks_Guppy_ d in
  Forall2 (keptOrAppended (snd r)) (chunks d) (chunks (fst r))
  /\ body (fst r) = (body d ++ payloads (snd r))%string.
Proof. apply processChunks_Guppy_kept. Qed.

(** ** Progress of a drain *)

Lemma processChunks_scan_first (n : nat) (fSeq : Z) (cs : list iGuppyChunk) :
  forall i cur again cs' cur' again' log,
    processChunks_scan n fSeq i cs cur again = (cs', cur', again', log) ->
    Exists (fun c => deliverable fSeq cur c = true) cs ->
    cur < cur'
    /\ exists c lg, log = c :: lg /\ deliverable fSeq cur c = true /\ c ∈ cs.
Proof.
  induction cs as [|c rest IH]; intros i cur again cs' cur' again' log H Hex.
  - inversion Hex.
  - scan_step H IH.
    + pose proof (processChunks_scan_mono _ _ _ _ _ _ _ _ _ _ Hrec) as Hmono.
      pose proof (deliverable_true _ _ _ Hdel) as Hd.
      split; [lia|]. exists c, lg'. split; [reflexivity|]. split; [assumption|left].
    + inversion Hex as [? ? Hc|? ? Hrest]; subst; [congruence|].
      destruct (IH _ _ _ _ _ _ _ Hrec Hrest) as (I1 & x & lg & I2 & I3 & I4).
      split; [assumption|]. exists x, lg. split; [assumption|].
      split; [assumption|right; assumption].
Qed.

(** Without an append a scan changes nothing; with one it raises
    [currentSeq]. *)
Lemma processChunks_scan_progress (n : nat) (fSeq : Z) (cs : list iGuppyChunk) :
  forall i cur again cs' cur' again' log,
    processChunks_scan n fSeq i cs cur again = (cs', cur', again', log) ->
    (log = [] -> cs' = cs /\ cur' = cur) /\ (log <> [] -> cur < cur').
Proof.
  induction cs as [|c rest IH]; intros i cur again cs' cur' again' log H.
  - inversion H; subst. split; [auto|intros Hn; contradiction].
  - scan_step H IH.
    + pose proof (processChunks_scan_mono _ _ _ _ _ _ _ _ _ _ Hrec) as Hmono.
      pose proof (deliverable_true _ _ _ Hdel) as Hd.
      split; [discriminate|intros _; lia].
    + destruct (IH _ _ _ _ _ _ _ Hrec) as [I1 I2].
      split; [|assumption]. intros Hn. destruct (I1 Hn) as [-> ->]. auto.
Qed.

Lemma processChunks_loop_progress :
  forall fuel d,
    let r := processChunks_loop fuel d in
    (snd r = [] -> body (fst r) = body d /\ currentSeq (fst r) = currentSeq d)
    /\ (snd r <> [] -> currentSeq d < currentSeq (fst r)).
Proof.
  induction fuel as [|fuel IH]; intros d; simpl.
  - split; [auto|intros Hn; contradiction].
  - destruct (processChunks_pass d) as [[d' again] log] eqn:E.
    assert (Hp : (log = [] -> body d' = body d /\ currentSeq d' = currentSeq d)
                 /\ (log <> [] -> currentSeq d < currentSeq d')
                 /\ currentSeq d <= currentSeq d').
    { unfold processChunks_pass in E.
      destruct (processChunks_scan _ _ _ _ _ _) as [[[cs' cur'] ag] lg] eqn:Es.
      inversion E; subst. simpl.
      destruct (processChunks_scan_progress _ _ _ _ _ _ _ _ _ _ Es) as [P1 P2].
      pose proof (processChunks_scan_mono _ _ _ _ _ _ _ _ _ _ Es).
      split; [|split; assumption].
      intros Hn. rewrite Hn. simpl. rewrite string_app_nil_r.
      destruct (P1 Hn) as [_ ->]. auto. }
    destruct Hp as (P1 & P2 & P3).
    destruct again; [|simpl; auto].
    specialize (IH d'). simpl in IH.
    destruct (processChunks_loop fuel d') as [d'' log']. simpl in *.
    destruct IH as [I1 I2].
    destruct log' as [|x log'].
    + destruct (I1 eq_refl) as [I3 I4]. rewrite app_nil_r, I3, I4. auto.
    + specialize (I2 ltac:(discriminate)).
      split; [intros Hn; apply app_eq_nil in Hn; destruct Hn; discriminate|].
      intros _. lia.
Qed.

(** X4: when some slot holds the chunk the session waits for, one call of
    the drain appends it first and leaves [currentSeq] higher than before. *)
Theorem processChunks_appends_awaited (d : iGuppy) :
  Exists (fun c => deliverable (firstSeq d) (currentSeq d) c = true) (chunks d) ->
  let r := processChunks_Guppy_ d in
  currentSeq d < currentSeq (fst r)
  /\ exists c lg, snd r = c :: lg
                  /\ deliverable (firstSeq d) (currentSeq d) c = true
                  /\ c ∈ chunks d.
Proof.
  intros Hex.
  unfold processChunks_Guppy_. simpl processChunks_loop.
  destruct (processChunks_pass d) as [[d' again] log] eqn:E.
  assert (Hp : currentSeq d < currentSeq d'
               /\ exists c lg, log = c :: lg
                               /\ deliverable (firstSeq d) (currentSeq d) c = true
                               /\ c ∈ chunks d).
  { unfold processChunks_pass in E.
    destruct (processChunks_scan _ _ _ _ _ _) as [[[cs' cur'] ag] lg] eqn:Es.
    inversion E; subst. simpl.
    eapply processChunks_scan_first; eassumption. }
  destruct Hp as (P1 & c & lg & -> & P3 & P4).
  destruct again.
  - pose proof (processChunks_loop_keeps (fun e => currentSeq d' <= currentSeq e)) as Hk.
    assert (Hstep : forall e e' ag l,
               processChunks_pass e = (e', ag, l) ->
               currentSeq d' <= currentSeq e -> currentSeq d' <= currentSeq e').
    { intros e e' ag l Hpass Hle. apply processChunks_pass_fields in Hpass.
      destruct Hpass as (_ & _ & _ & _ & _ & _ & Hm). lia. }
    specialize (Hk Hstep (drainMeasure (chunks d) (currentSeq d)) d' (Z.le_refl _)).
    destruct (processChunks_loop _ d') as [d'' log']. simpl in *.
    destruct (negb _ && _); simpl; (split; [lia|]); exists c, (lg ++ log'); auto.
  - simpl. destruct (negb _ && _); simpl; (split; [assumption|]); exists c, lg; auto.
Qed.

Lemma processChunks_appends_awaited_witness :
  let d := set_chunks [mkChunk 9 "GH"; mkChunk 7 "CD"; emptyChunk]
             (set_currentSeq 6 (set_firstSeq 6 (init_Guppy 3 ""))) in
  currentSeq d < currentSeq (fst (processChunks_Guppy_ d)).
Proof.
  intros d.
  destruct (processChunks_appends_awaited d) as [H _]; [|exact H].
  right. left. reflexivity.
Defined.

(** ** The update flag of a read *)

(** Handling the header touches neither the body nor [currentSeq]. *)
Lemma processHeader_delivered (w : World) (header payload : string) (now : Z) :
  let h := guppy (processHeader_ w header payload now) in
  body h = body (guppy w) /\ currentSeq h = currentSeq (guppy w).
Proof.
  unfold processHeader_.
  destruct (matchString_RegExp header) as [[c1 c2]|]; simpl; [|auto].
  set (w1 := if firstSeq (guppy w) =? 0
             then on_guppy (fun d => statusLine_ d (toInt_String c1) c2) w
             else w).
  assert (H1 : body (guppy w1) = body (guppy w)
               /\ currentSeq (guppy w1) = currentSeq (guppy w)).
  { subst w1. destruct (firstSeq (guppy w) =? 0); simpl; [|auto].
    destruct (statusLine_mapping (guppy w) (toInt_String c1) c2)
      as (_ & _ & _ & _ & _ & _ & _ & M8 & _ & M10). auto. }
  destruct H1 as [A B].
  destruct (6 <=? toInt_String c1); [|auto].
  destruct (isInProgress _); simpl; [|auto].
  destruct (storeChunk_fields (set_lastSent now (guppy w1)) (toInt_String c1) payload)
    as (_ & _ & F3 & F4 & _).
  simpl in F3, F4. rewrite F3, F4. auto.
Qed.

(** X5: a read sets the update flag exactly when it raised [currentSeq];
    when the flag is not set, body and [currentSeq] are as they were. *)
Theorem notifyUpdate_tracks_currentSeq (w : World) (bytes : string) (now : Z) :
  let r := processResponse_Guppy w bytes now in
  (snd r = false ->
   body (guppy (fst r)) = body (guppy w)
   /\ currentSeq (guppy (fst r)) = currentSeq (guppy w))
  /\ (snd r = true -> currentSeq (guppy w) < currentSeq (guppy (fst r))).
Proof.
  assert (Hc : forall v, body (guppy (cancelUnlessInProgress v)) = body (guppy v)
                         /\ currentSeq (guppy (cancelUnlessInProgress v))
                            = currentSeq (guppy v)).
  { intros v. unfold cancelUnlessInProgress.
    destruct (isInProgress _); simpl; auto. }
  unfold processResponse_Guppy.
  destruct (String.length bytes =? 0)%nat.
  - simpl. split; [intros _; apply Hc|discriminate].
  - destruct (indexOfCStr_String bytes CRLF) as [crlf|];
      [|simpl; split; [intros _; apply Hc|discriminate]].
    match goal with |- context [processHeader_ w ?hd ?pl now] =>
      pose proof (processHeader_delivered w hd pl now) as [B1 B2];
      set (h := processHeader_ w hd pl now) in *
    end.
    simpl in B1, B2.
    pose proof (processChunks_loop_progress
                  (S (drainMeasure (chunks (guppy h)) (currentSeq (guppy h))))
                  (guppy h)) as HP.
    unfold processChunks_Guppy_.
    destruct (processChunks_loop _ (guppy h)) as [d' log]. cbv zeta in HP.
    simpl fst in HP. simpl snd in HP. destruct HP as [P1 P2].
    set (e := if negb (lastSeq d' =? 0) && (currentSeq d' =? lastSeq d' - 1)
              then set_state finished_GuppyState d' else d').
    assert (He : body e = body d' /\ currentSeq e = currentSeq d')
      by (subst e; destruct (negb _ && _); simpl; auto).
    destruct He as [E1 E2].
    simpl fst. simpl snd.
    destruct (Hc (mkWorld e (trace h) (sdlTimer h))) as [C1 C2].
    simpl in C1, C2. rewrite C1, C2, E1, E2.
    destruct log as [|x log]; simpl.
    + split; [intros _|discriminate].
      destruct (P1 eq_refl) as [Q1 Q2]. rewrite Q1, Q2. auto.
    + split; [discriminate|intros _].
      rewrite <- B2. apply P2. discriminate.
Qed.

Lemma notifyUpdate_tracks_currentSeq_witness :
  let w := opened 3 "guppy://host/" 0 in
  let r := processResponse_Guppy w ("6 ok" ++ CRLF ++ "AB")%string 10 in
  snd r = true /\ currentSeq (guppy w) < currentSeq (guppy (fst r)).
Proof.
  intros w r. assert (H : snd r = true) by (vm_compute; reflexivity).
  split; [exact H|].
  exact (proj2 (notifyUpdate_tracks_currentSeq w ("6 ok" ++ CRLF ++ "AB")%string 10) H).
Defined.

(** ** Chunks that arrive in order *)

(** The drain of a buffer whose only occupied slot, the first one, holds
    the awaited chunk. *)
Lemma processChunks_single (d : iGuppy) (c : iGuppyChunk) (m : nat) :
  chunks d = c :: replicate m emptyChunk ->
  deliverable (firstSeq d) (currentSeq d) c = true ->
  deliverable (firstSeq d) (seq c) emptyChunk = false ->
  exists d',
    processChunks_Guppy_ d
    = (if negb (lastSeq d' =? 0) && (currentSeq d' =? lastSeq d' - 1)
       then set_state finished_GuppyState d' else d', [c])
    /\ chunks d' = replicate (S m) emptyChunk
    /\ currentSeq d' = seq c
    /\ body d' = (body d ++ data c)%string
    /\ firstSeq d' = firstSeq d /\ lastSeq d' = lastSeq d /\ state d' = state d.
Proof.
  intros Hcs Hdel Hfree.
  assert (Hp1 : processChunks_pass d
                = (set_body (body d ++ payloads [c])%string
                     (set_currentSeq (seq c)
                        (set_chunks ([emptyChunk] ++ replicate m emptyChunk) d)),
                   (0 <? length [c] + m - 1)%nat, [c])).
  { apply (processChunks_pass_padded d [c] m); [exact Hcs| |exact Hfree].
    simpl. rewrite Hdel. reflexivity. }
  set (d1 := set_body (body d ++ payloads [c])%string
               (set_currentSeq (seq c)
                  (set_chunks ([emptyChunk] ++ replicate m emptyChunk) d))) in *.
  destruct (0 <? length [c] + m - 1)%nat.
  - assert (Hp2 : processChunks_pass d1
                  = (set_body (body d1 ++ payloads [])%string
                       (set_currentSeq (seq c)
                          (set_chunks ([emptyChunk] ++ replicate m emptyChunk) d1)),
                     false, [])).
    { apply (processChunks_pass_padded d1 [emptyChunk] m); [reflexivity| |exact Hfree].
      simpl. rewrite Hfree. reflexivity. }
    exists (set_body (body d1 ++ payloads [])%string
              (set_currentSeq (seq c)
                 (set_chunks ([emptyChunk] ++ replicate m emptyChunk) d1))).
    split.
    + apply (processChunks_Guppy_doWhile d _ ([c] ++ [])).
      eapply doWhile_again; [exact Hp1|]. apply doWhile_stop. exact Hp2.
    + simpl. rewrite !string_app_nil_r. auto 10.
  - exists d1. split.
    + apply (processChunks_Guppy_doWhile d _ [c]).
      apply doWhile_stop. exact Hp1.
    + simpl. rewrite !string_app_nil_r. auto 10.
Qed.

(** One chunk admitted in order into an empty buffer, then drained. *)
Lemma inOrder_round (m : nat) (d : iGuppy) (s : Z) (p : string) :
  chunks d = replicate (S m) emptyChunk ->
  lastSeq d = 0 ->
  0 < s < INT_MAX ->
  p <> ""%string ->
  (firstSeq d = 0 /\ currentSeq d = 0)
  \/ (0 < firstSeq d /\ firstSeq d <= currentSeq d /\ currentSeq d = s - 1) ->
  let d' := fst (processChunks_Guppy_ (storeChunk_Guppy_ d s p)) in
  chunks d' = replicate (S m) emptyChunk
  /\ lastSeq d' = 0
  /\ currentSeq d' = s
  /\ 0 < firstSeq d' /\ firstSeq d' <= s
  /\ (firstSeq d = 0 -> firstSeq d' = s)
  /\ (firstSeq d <> 0 -> firstSeq d' = firstSeq d)
  /\ body d' = (body d ++ p)%string
  /\ state d' = state d.
Proof.
  intros Hcs Hl Hs Hp Hcase.
  destruct (noteFirstSeq_fields d s) as (F1 & F2 & F3 & F4 & F5 & F6 & F7 & F8 & _).
  set (d1 := noteFirstSeq d s) in *.
  assert (Hf1 : 0 < firstSeq d1 /\ firstSeq d1 <= s
                /\ (firstSeq d = 0 -> firstSeq d1 = s)
                /\ (firstSeq d <> 0 -> firstSeq d1 = firstSeq d)).
  { destruct Hcase as [[A B]|(A & B & C)].
    - rewrite (F8 A) by lia. repeat split; intros; lia.
    - rewrite (F7 ltac:(lia)). repeat split; intros; lia. }
  destruct Hf1 as (G1 & G2 & G3 & G4).
  assert (Hcur : currentSeq d = 0 \/ currentSeq d = s - 1)
    by (destruct Hcase as [[_ B]|(_ & _ & C)]; auto).
  assert (Hstore : storeChunk_Guppy_ d s p
                   = set_chunks ([] ++ mkChunk s p :: replicate m emptyChunk) d1).
  { apply (storeChunk_into_free d s p [] (replicate m emptyChunk) emptyChunk).
    - assumption.
    - fold d1. unfold outOfWindow. rewrite F5, F6, Hl. simpl.
      rewrite orb_false_r.
      replace (s <? firstSeq d1) with false by (symmetry; apply Z.ltb_ge; lia).
      rewrite andb_false_r, orb_false_r.
      destruct Hcur as [E|E]; rewrite E; [reflexivity|].
      replace (s <=? s - 1) with false by (symmetry; apply Z.leb_gt; lia).
      apply andb_false_r.
    - exact Hcs.
    - constructor.
    - reflexivity.
    - simpl. lia.
    - apply Forall_replicate. simpl. lia. }
  rewrite Hstore. simpl app.
  set (d2 := set_chunks (mkChunk s p :: replicate m emptyChunk) d1).
  assert (Hdel : deliverable (firstSeq d2) (currentSeq d2) (mkChunk s p) = true).
  { destruct (deliverable _ _ _) eqn:E; [reflexivity|exfalso].
    apply deliverable_false in E. simpl in E. rewrite F6 in E.
    destruct E as [E1 E2].
    destruct Hcase as [[A B]|(A & B & C)].
    - apply E2; [assumption|lia|]. symmetry. apply G3. assumption.
    - apply E1; lia. }
  assert (Hfree : deliverable (firstSeq d2) (seq (mkChunk s p)) emptyChunk = false).
  { destruct (deliverable (firstSeq d2) (seq (mkChunk s p)) emptyChunk) eqn:E;
      [exfalso|reflexivity].
    apply deliverable_true in E. simpl in E. lia. }
  destruct (processChunks_single d2 (mkChunk s p) m eq_refl Hdel Hfree)
    as (d' & Heq & C1 & C2 & C3 & C4 & C5 & C6).
  rewrite Heq. simpl fst.
  assert (Hl' : lastSeq d' = 0) by (rewrite C5; simpl; congruence).
  rewrite Hl'. simpl.
  rewrite C1, C2, C3, C4, C6. simpl. rewrite F3, F1. auto 12.
Qed.

Lemma inOrder_from (m : nat) (ps : list string) :
  forall (d : iGuppy) (log : list iGuppyChunk) (s : Z),
    chunks d = replicate (S m) emptyChunk ->
    lastSeq d = 0 ->
    0 < s -> s + Z.of_nat (length ps) < INT_MAX ->
    Forall (fun p => p <> ""%string) ps ->
    (firstSeq d = 0 /\ currentSeq d = 0 /\ ps <> [])
    \/ (0 < firstSeq d /\ firstSeq d <= currentSeq d /\ currentSeq d = s - 1) ->
    let d' := fst (runOps (inOrderOps s ps) (d, log)) in
    state d' = finished_GuppyState
    /\ body d' = (body d ++ concatAll ps)%string
    /\ (firstSeq d = 0 -> firstSeq d' = s)
    /\ (firstSeq d <> 0 -> firstSeq d' = firstSeq d)
    /\ currentSeq d' = s + Z.of_nat (length ps) - 1
    /\ lastSeq d' = s + Z.of_nat (length ps)
    /\ chunks d' = replicate (S m) emptyChunk.
Proof.
  induction ps as [|p ps IH]; intros d log s Hcs Hl Hs Hmax Hne Hcase.
  - destruct Hcase as [(_ & _ & H)|(A & B & C)]; [contradiction|].
    simpl length in *. simpl inOrderOps. unfold runOps. simpl fold_left.
    destruct (noteFirstSeq_fields d s) as (_ & _ & _ & _ & _ & _ & F7 & _).
    assert (Hstore : storeChunk_Guppy_ d s "" = set_lastSeq s d).
    { unfold storeChunk_Guppy_. rewrite (F7 ltac:(lia)), Hl. reflexivity. }
    rewrite Hstore.
    assert (Hpass : processChunks_pass (set_lastSeq s d)
                    = (set_body (body d ++ payloads [])%string
                         (set_currentSeq (currentSeq d)
                            (set_chunks ([] ++ replicate (S m) emptyChunk)
                               (set_lastSeq s d))), false, [])).
    { apply (processChunks_pass_padded (set_lastSeq s d) [] (S m));
        [exact Hcs|reflexivity|].
      destruct (deliverable _ _ _) eqn:E; [exfalso|reflexivity].
      apply deliverable_true in E. simpl in E. lia. }
    rewrite (processChunks_Guppy_doWhile _ _ [] (doWhile_stop _ _ _ Hpass)).
    simpl.
    replace (s =? 0) with false by (symmetry; apply Z.eqb_neq; lia).
    replace (currentSeq d =? s - 1) with true by (symmetry; apply Z.eqb_eq; lia).
    simpl. rewrite string_app_nil_r.
    repeat split; intros; try reflexivity; lia.
  - inversion Hne as [|? ? Hp Hne']; subst.
    simpl length in Hmax. simpl inOrderOps. unfold runOps. simpl fold_left.
    assert (Hround := inOrder_round m d s p Hcs Hl ltac:(lia) Hp).
    destruct Hround as (R1 & R2 & R3 & R4 & R5 & R6 & R7 & R8 & R9).
    { destruct Hcase as [(A & B & _)|H]; [left; auto|right; exact H]. }
    destruct (processChunks_Guppy_ (storeChunk_Guppy_ d s p)) as [d1 log1].
    simpl in R1, R2, R3, R4, R5, R6, R7, R8, R9.
    specialize (IH d1 (log ++ log1) (s + 1) R1 R2 ltac:(lia) ltac:(lia) Hne').
    destruct IH as (I1 & I2 & I3 & I4 & I5 & I6 & I7).
    { right. lia. }
    unfold runOps in *. cbv zeta in *.
    split; [exact I1|]. split.
    { rewrite I2, R8. simpl. rewrite string_app_assoc. reflexivity. }
    split; [intros E; rewrite I4 by lia; auto|].
    split; [intros E; rewrite I4 by lia; auto|].
    simpl length. split; [lia|]. split; [lia|exact I7].
Qed.

(** X6: on a new session with at least one slot, admitting the chunks
    numbered [s], [s + 1], ... in order (non-empty payloads, each followed
    by a drain) and then the terminator ends in the finished state with
    the body equal to the payloads in order, every slot free again. *)
Theorem in_order_delivery_finishes (n : nat) (u : string) (s : Z) (ps : list string) :
  (1 <= n)%nat ->
  0 < s -> s + Z.of_nat (length ps) < INT_MAX ->
  ps <> [] ->
  Forall (fun p => p <> ""%string) ps ->
  let d := fst (runOps (inOrderOps s ps) (init_Guppy n u, [])) in
  state d = finished_GuppyState
  /\ body d = concatAll ps
  /\ firstSeq d = s
  /\ currentSeq d = s + Z.of_nat (length ps) - 1
  /\ lastSeq d = s + Z.of_nat (length ps)
  /\ chunks d = replicate n emptyChunk.
Proof.
  intros Hn Hs Hmax Hne Hall.
  destruct n as [|m]; [lia|].
  destruct (inOrder_from m ps (init_Guppy (S m) u) [] s)
    as (I1 & I2 & I3 & _ & I5 & I6 & I7); try assumption; try reflexivity.
  { left. auto. }
  cbv zeta. simpl in I2. rewrite (I3 eq_refl). auto 10.
Qed.

Lemma in_order_delivery_finishes_witness :
  let d := fst (runOps (inOrderOps 6 ["AB"; "CD"; "EF"]%string)
                       (init_Guppy 1 "guppy://host/", [])) in
  state d = finished_GuppyState /\ body d = "ABCDEF"%string.
Proof.
  intros d.
  destruct (in_order_delivery_finishes 1 "guppy://host/" 6 ["AB"; "CD"; "EF"]%string)
    as (H1 & H2 & _).
  - lia.
  - lia.
  - vm_compute. reflexivity.
  - discriminate.
  - repeat constructor; discriminate.
  - split; [exact H1|exact H2].
Defined.

(** ** Reads, seen from outside *)

Lemma sameBuffer_refl (d : iGuppy) : sameBuffer d d.
Proof. unfold sameBuffer. auto 10. Qed.

Lemma sameBuffer_trans (a b c : iGuppy) :
  sameBuffer a b -> sameBuffer b c -> sameBuffer a c.
Proof.
  unfold sameBuffer.
  intros (A1 & A2 & A3 & A4 & A5) (B1 & B2 & B3 & B4 & B5).
  repeat split; congruence.
Qed.

(** What handling a header does to the session: nothing to the buffer, or
    the admission of a chunk numbered 6 or more into a session in
    progress. *)
Lemma processHeader_cases (w : World) (header payload : string) (now : Z) :
  let h := guppy (processHeader_ w header payload now) in
  exists d0,
    sameBuffer (guppy w) d0
    /\ (h = d0
        \/ exists sq, 6 <= sq /\ state d0 = inProgress_GuppyState
                      /\ h = storeChunk_Guppy_ d0 sq payload).
Proof.
  unfold processHeader_.
  destruct (matchString_RegExp header) as [[c1 c2]|]; simpl.
  - set (w1 := if firstSeq (guppy w) =? 0
               then on_guppy (fun d => statusLine_ d (toInt_String c1) c2) w
               else w).
    assert (H1 : sameBuffer (guppy w) (guppy w1)).
    { subst w1. destruct (firstSeq (guppy w) =? 0); [|apply sameBuffer_refl].
      simpl. unfold statusLine_.
      destruct (_ || _); [|destruct (_ =? 1); [|destruct (_ =? 3);
                                                 [|destruct (_ =? 4)]]];
        unfold sameBuffer; simpl; auto 10. }
    destruct (Z.leb_spec 6 (toInt_String c1)) as [Hge|Hlt].
    + destruct (isInProgress (state (guppy w1))) eqn:Hs; simpl.
      * exists (set_lastSent now (guppy w1)). split.
        -- eapply sameBuffer_trans; [exact H1|]. unfold sameBuffer. simpl. auto 10.
        -- right. exists (toInt_String c1). split; [assumption|].
           split; [|reflexivity]. simpl.
           destruct (state (guppy w1)); try discriminate. reflexivity.
      * exists (set_lastSent now (guppy w1)). split; [|left; reflexivity].
        eapply sameBuffer_trans; [exact H1|]. unfold sameBuffer. simpl. auto 10.
    + exists (guppy w1). split; [assumption|left; reflexivity].
  - exists (set_state invalidResponse_GuppyState (guppy w)).
    split; [unfold sameBuffer; simpl; auto 10|left; reflexivity].
Qed.

(** A property of the buffer kept by admission of numbers from 6 up and by
    the drain is kept by every read. *)
Lemma process_keeps (P : iGuppy -> Prop) :
  (forall d e, sameBuffer d e -> P d -> P e) ->
  (forall d sq payload, 6 <= sq -> P d -> P (storeChunk_Guppy_ d sq payload)) ->
  (forall d, P d -> P (fst (processChunks_Guppy_ d))) ->
  forall w bytes now, P (guppy w) -> P (guppy (process w bytes now)).
Proof.
  intros Hsame Hstore Hdrain w bytes now HP.
  assert (Ht : forall e, P e -> P (set_timer 0 e)).
  { intros e He. apply (Hsame e); [|assumption]. unfold sameBuffer. simpl. auto. }
  destruct (process_unfold w bytes now) as [[->| ->]|(crlf & _ & H)]; auto.
  simpl in H.
  match type of H with context [processHeader_ w ?hd ?pl now] =>
    destruct (processHeader_cases w hd pl now) as (d0 & Hd0 & Hh);
    set (h := guppy (processHeader_ w hd pl now)) in *
  end.
  assert (Hph : P h).
  { destruct Hh as [->|(sq & Hge & _ & ->)].
    - eapply Hsame; eassumption.
    - apply Hstore; [assumption|]. eapply Hsame; eassumption. }
  destruct H as [-> | ->]; auto.
Qed.

(** ** Sequences of calls *)

Lemma tick_sameBuffer (w : World) (now : Z) (status : iSocketStatus) :
  sameBuffer (guppy w) (guppy (tick w now status)).
Proof.
  unfold tick. destruct (sdlTimer w); [|apply sameBuffer_refl].
  unfold retryGuppy_.
  destruct (_ <=? now); [simpl; apply sameBuffer_refl|].
  destruct (_ && _ && _); [simpl; unfold sameBuffer; simpl; auto|].
  destruct (_ && _); simpl; [unfold sameBuffer; simpl; auto|apply sameBuffer_refl].
Qed.

Lemma open_sameBuffer (w : World) (now : Z) :
  sameBuffer (guppy w) (guppy (open_Guppy w now)).
Proof.
  unfold open_Guppy. simpl.
  destruct (firstSent (guppy w) =? 0); simpl;
    destruct (timer (guppy w) =? 0); simpl; unfold sameBuffer; simpl; auto.
Qed.

Lemma calls_keeps (P : iGuppy -> Prop) :
  (forall d e, sameBuffer d e -> P d -> P e) ->
  (forall d sq payload, 6 <= sq -> P d -> P (storeChunk_Guppy_ d sq payload)) ->
  (forall d, P d -> P (fst (processChunks_Guppy_ d))) ->
  forall l w, P (guppy w) -> P (guppy (calls l w)).
Proof.
  intros Hsame Hstore Hdrain. unfold calls.
  induction l as [|c l IH]; intros w HP; simpl; [assumption|].
  apply IH. destruct c as [now|now status|bytes now|]; simpl.
  - eapply Hsame; [apply open_sameBuffer|assumption].
  - eapply Hsame; [apply tick_sameBuffer|assumption].
  - apply process_keeps; assumption.
  - eapply Hsame; [|exact HP]. unfold sameBuffer. simpl. auto.
Qed.

Lemma storeChunk_lastSeq_known (d : iGuppy) (sq : Z) (payload : string) :
  lastSeq d <> 0 -> lastSeq (storeChunk_Guppy_ d sq payload) = lastSeq d.
Proof.
  intros Hl.
  destruct (noteFirstSeq_fields d sq) as (_ & _ & _ & _ & F5 & _).
  destruct (storeChunk_cases d sq payload)
    as [(H0 & _)|[->|(j & _ & _ & _ & ->)]]; simpl; congruence.
Qed.

(** X7: once [firstSeq] is known no call changes it, and the same holds
    for [lastSeq], over any sequence of opens, timer ticks, reads and
    cancels. *)
Theorem watermarks_are_final (l : list Call) (w : World) :
  (firstSeq (guppy w) = 0 \/ firstSeq (guppy (calls l w)) = firstSeq (guppy w))
  /\ (lastSeq (guppy w) = 0 \/ lastSeq (guppy (calls l w)) = lastSeq (guppy w)).
Proof.
  set (f0 := firstSeq (guppy w)). set (l0 := lastSeq (guppy w)).
  apply (calls_keeps (fun d => (f0 = 0 \/ firstSeq d = f0)
                               /\ (l0 = 0 \/ lastSeq d = l0))).
  - intros d e (_ & E2 & E3 & _) [P1 P2]. rewrite E2, E3. auto.
  - intros d sq payload _ [P1 P2]. split.
    + destruct P1 as [P1|P1]; [left; assumption|].
      destruct (storeChunk_fields d sq payload) as (_ & _ & _ & _ & _ & F6).
      simpl in F6. destruct (Z.eq_dec f0 0); [left; assumption|right].
      rewrite F6; congruence.
    + destruct P2 as [P2|P2]; [left; assumption|].
      destruct (Z.eq_dec l0 0); [left; assumption|right].
      rewrite storeChunk_lastSeq_known; congruence.
  - intros d [P1 P2].
    destruct (processChunks_Guppy_fields d) as (G1 & G2 & _). simpl in G1, G2.
    rewrite G1, G2. auto.
  - subst f0 l0. auto.
Qed.

Lemma processChunks_Guppy_grows (d : iGuppy) :
  let r := processChunks_Guppy_ d in
  body (fst r) = (body d ++ payloads (snd r))%string
  /\ currentSeq d <= currentSeq (fst r).
Proof.
  pose proof (processChunks_loop_kept
                (S (drainMeasure (chunks d) (currentSeq d))) d) as [_ H1].
  pose proof (processChunks_loop_progress
                (S (drainMeasure (chunks d) (currentSeq d))) d) as [H2 H3].
  unfold processChunks_Guppy_.
  destruct (processChunks_loop _ d) as [d' log]. simpl in *.
  assert (Hle : currentSeq d <= currentSeq d').
  { destruct log as [|x log]; [destruct (H2 eq_refl); lia|].
    specialize (H3 ltac:(discriminate)). lia. }
  destruct (negb _ && _); simpl; auto.
Qed.

(** X8: over any sequence of calls the body only grows at its end and
    [currentSeq] never decreases. *)
Theorem body_only_grows (l : list Call) (w : World) :
  (exists suffix, body (guppy (calls l w)) = (body (guppy w) ++ suffix)%string)
  /\ currentSeq (guppy w) <= currentSeq (guppy (calls l w)).
Proof.
  set (b0 := body (guppy w)). set (c0 := currentSeq (guppy w)).
  apply (calls_keeps (fun d => (exists suffix, body d = (b0 ++ suffix)%string)
                               /\ c0 <= currentSeq d)).
  - intros d e (_ & _ & _ & E4 & E5) [P1 P2]. rewrite E4, E5. auto.
  - intros d sq payload _ [P1 P2].
    destruct (storeChunk_fields d sq payload) as (_ & _ & F3 & F4 & _).
    simpl in F3, F4. rewrite F3, F4. auto.
  - intros d [[suffix P1] P2].
    destruct (processChunks_Guppy_grows d) as [G1 G2]. simpl in G1, G2.
    split; [|lia].
    exists (suffix ++ payloads (snd (processChunks_Guppy_ d)))%string.
    rewrite G1, P1, string_app_assoc. reflexivity.
  - split; [exists ""%string; subst b0; rewrite string_app_nil_r; reflexivity|].
    subst c0. lia.
Qed.

Lemma keptOrAppended_Forall (P : iGuppyChunk -> Prop) (log a b : list iGuppyChunk) :
  P emptyChunk -> Forall2 (keptOrAppended log) a b -> Forall P a -> Forall P b.
Proof.
  intros He. induction 1 as [|x y a b Hxy Hab IH]; intros Ha; [constructor|].
  inversion Ha; subst. constructor; [|apply IH; assumption].
  destruct Hxy as [->|[-> _]]; assumption.
Qed.

(** X9: in every session reached from [init_Guppy] by any sequence of
    calls, the array keeps its size, every occupied slot holds a number of
    at least 6 that is above [currentSeq], and no two occupied slots hold
    the same number. *)
Theorem reachable_buffer_invariant (n : nat) (u : string) (l : list Call) :
  let d := guppy (calls l (created n u)) in
  length (chunks d) = n
  /\ Forall (fun c => seq c = 0 \/ (6 <= seq c /\ currentSeq d < seq c)) (chunks d)
  /\ NoDup (occupiedSeqs (chunks d))
  /\ BufferInv d.
Proof.
  assert (H : (fun d => BufferInv d /\ length (chunks d) = n
                        /\ Forall (fun c => seq c = 0 \/ 6 <= seq c) (chunks d))
                (guppy (calls l (created n u)))).
  { apply calls_keeps.
    - intros d e (E1 & E2 & _ & E4 & _) ([I1 I2 I3 I4] & P2 & P3).
      rewrite E1. split; [|auto].
      constructor; rewrite ?E1, ?E2, ?E4; assumption.
    - intros d sq payload Hge (P1 & P2 & P3).
      split; [apply storeChunk_inv; [lia|assumption]|].
      destruct (noteFirstSeq_fields d sq) as (_ & _ & _ & F4 & _).
      destruct (storeChunk_cases d sq payload)
        as [(_ & _ & ->)|[->|(j & _ & _ & _ & ->)]]; simpl; rewrite ?F4; auto.
      rewrite length_insert. split; [assumption|].
      apply Forall_insert; [assumption|]. right. simpl. assumption.
    - intros d (P1 & P2 & P3).
      split; [apply processChunks_Guppy_inv; assumption|].
      destruct (processChunks_Guppy_kept d) as [K _].
      split.
      + rewrite <- P2. symmetry. eapply Forall2_length. exact K.
      + eapply keptOrAppended_Forall; [|exact K|exact P3]. left. reflexivity.
    - simpl. split; [apply init_BufferInv|].
      split; [apply length_replicate|].
      apply Forall_replicate. left. reflexivity. }
  cbv zeta. destruct H as (I & Hlen & Hall).
  split; [assumption|]. split; [|split; [apply I|assumption]].
  destruct I as [_ _ Ha _].
  rewrite Forall_forall in Hall, Ha. apply Forall_forall. intros c Hc.
  destruct (Z.eq_dec (seq c) 0) as [E|E]; [left; assumption|right].
  destruct (Hall c Hc) as [H0|H6]; [contradiction|].
  split; [assumption|]. apply (Ha c Hc E).
Qed.

(** ** The acknowledgment of a read *)

(** X10: a read appends to what the session has written exactly the
    acknowledgment of its header's number when that number is 6 or more,
    and nothing otherwise, whatever the state of the session and whether
    or not the chunk is accepted. *)
Theorem read_writes_its_ack (w : World) (bytes : string) (now : Z) :
  trace (process w bytes now) = trace w ++ ackOfRead bytes.
Proof.
  assert (Hc : forall v, trace (cancelUnlessInProgress v) = trace v).
  { intros v. unfold cancelUnlessInProgress. destruct (isInProgress _); reflexivity. }
  unfold process, processResponse_Guppy, ackOfRead.
  destruct bytes as [|a bytes]; [simpl; rewrite Hc, app_nil_r; reflexivity|].
  simpl String.length. simpl Nat.eqb.
  destruct (indexOfCStr_String (String a bytes) CRLF) as [crlf|];
    [|simpl; rewrite Hc, app_nil_r; reflexivity].
  match goal with |- context [processHeader_ w ?hd ?pl now] =>
    set (hd0 := hd); set (pl0 := pl)
  end.
  destruct (processChunks_Guppy_ (guppy (processHeader_ w hd0 pl0 now))) as [d' log].
  simpl fst. rewrite Hc. simpl trace.
  unfold processHeader_.
  destruct (matchString_RegExp hd0) as [[c1 c2]|]; [|simpl; rewrite app_nil_r; reflexivity].
  set (w1 := if firstSeq (guppy w) =? 0
             then on_guppy (fun d => statusLine_ d (toInt_String c1) c2) w
             else w).
  assert (H1 : trace w1 = trace w)
    by (subst w1; destruct (firstSeq (guppy w) =? 0); reflexivity).
  destruct (6 <=? toInt_String c1); [|rewrite H1, app_nil_r; reflexivity].
  destruct (isInProgress _); simpl; rewrite H1; reflexivity.
Qed.

(** ** The timer of a session *)

Lemma storeChunk_timer (d : iGuppy) (sq : Z) (payload : string) :
  timer (storeChunk_Guppy_ d sq payload) = timer d.
Proof.
  destruct (storeChunk_cases d sq payload)
    as [(_ & _ & ->)|[->|(j & _ & _ & _ & ->)]]; simpl;
    unfold noteFirstSeq; destruct (_ && _); reflexivity.
Qed.

Lemma processChunks_Guppy_timer (d : iGuppy) :
  timer (fst (processChunks_Guppy_ d)) = timer d.
Proof.
  pose proof (processChunks_loop_keeps (fun e => timer e = timer d)) as Hk.
  assert (Hstep : forall e e' again log,
             processChunks_pass e = (e', again, log) ->
             timer e = timer d -> timer e' = timer d).
  { intros e e' again log Hp He. unfold processChunks_pass in Hp.
    destruct (processChunks_scan _ _ _ _ _ _) as [[[cs' cur'] ag] lg].
    inversion Hp; subst. exact He. }
  specialize (Hk Hstep (S (drainMeasure (chunks d) (currentSeq d))) d eq_refl).
  destruct (processChunks_Guppy_shape d) as [->|[-> _]]; assumption.
Qed.

Lemma processHeader_timer (w : World) (header payload : string) (now : Z) :
  timer (guppy (processHeader_ w header payload now)) = timer (guppy w)
  /\ sdlTimer (processHeader_ w header payload now) = sdlTimer w.
Proof.
  unfold processHeader_.
  destruct (matchString_RegExp header) as [[c1 c2]|]; simpl; [|auto].
  set (w1 := if firstSeq (guppy w) =? 0
             then on_guppy (fun d => statusLine_ d (toInt_String c1) c2) w
             else w).
  assert (H1 : timer (guppy w1) = timer (guppy w) /\ sdlTimer w1 = sdlTimer w).
  { subst w1. destruct (firstSeq (guppy w) =? 0); simpl; [|auto].
    unfold statusLine_.
    destruct (_ || _); [|destruct (_ =? 1); [|destruct (_ =? 3);
                                               [|destruct (_ =? 4)]]];
      simpl; auto. }
  destruct H1 as [A B].
  destruct (6 <=? toInt_String c1); [|auto].
  destruct (isInProgress _); simpl; rewrite ?storeChunk_timer; simpl; auto.
Qed.

(** While SDL holds a timer for the session, [d->timer] is its id. *)
Lemma timerKnown_call (w : World) (c : Call) :
  (sdlTimer w = true -> timer (guppy w) <> 0) ->
  sdlTimer (call w c) = true -> timer (guppy (call w c)) <> 0.
Proof.
  intros HT. destruct c as [now|now status|bytes now|]; simpl.
  - unfold open_Guppy. simpl.
    destruct (firstSent (guppy w) =? 0); simpl;
      destruct (Z.eqb_spec (timer (guppy w)) 0); simpl; intros H;
      try discriminate; auto.
  - unfold tick. destruct (sdlTimer w) eqn:Hon; [|intros H; congruence].
    pose proof (retryGuppy_cases w now status) as H.
    unfold retryGuppy_ in *.
    destruct (_ <=? now); [simpl; discriminate|].
    destruct (_ && _ && _); [simpl; auto|].
    destruct (_ && _); simpl; auto.
  - unfold process, processResponse_Guppy.
    assert (Hc : forall v, (sdlTimer v = true -> timer (guppy v) <> 0) ->
                           sdlTimer (cancelUnlessInProgress v) = true ->
                           timer (guppy (cancelUnlessInProgress v)) <> 0).
    { intros v Hv. unfold cancelUnlessInProgress.
      destruct (isInProgress _); [assumption|]. simpl.
      intros H. apply andb_true_iff in H. destruct H as [H1 H2].
      apply Z.eqb_eq in H2. specialize (Hv H1). contradiction. }
    destruct (String.length bytes =? 0)%nat; [simpl; apply Hc; assumption|].
    destruct (indexOfCStr_String bytes CRLF) as [crlf|];
      [|simpl; apply Hc; assumption].
    match goal with |- context [processHeader_ w ?hd ?pl now] =>
      destruct (processHeader_timer w hd pl now) as [A B];
      pose proof (processChunks_Guppy_timer (guppy (processHeader_ w hd pl now))) as C
    end.
    destruct (processChunks_Guppy_ _) as [d' log]. simpl in *.
    apply Hc. simpl. rewrite C, A, B. assumption.
  - intros H. apply andb_true_iff in H. destruct H as [H1 H2].
    apply Z.eqb_eq in H2. specialize (HT H1). contradiction.
Qed.

Lemma timerKnown_calls (l : list Call) :
  forall w, (sdlTimer w = true -> timer (guppy w) <> 0) ->
            sdlTimer (calls l w) = true -> timer (guppy (calls l w)) <> 0.
Proof.
  unfold calls. induction l as [|c l IH]; intros w HT; simpl; [assumption|].
  apply IH. apply timerKnown_call. assumption.
Qed.

Lemma timerCalls_stopped (ts : list (Z * iSocketStatus)) :
  forall w, sdlTimer w = false -> calls (timerCalls ts) w = w.
Proof.
  unfold calls. induction ts as [|[now status] ts IH]; intros w Hoff; simpl;
    [reflexivity|].
  rewrite tick_stopped by assumption. apply IH. assumption.
Qed.

(** X11: on every session reached from [init_Guppy] by any sequence of
    calls, [cancel_Guppy] and [deinit_Guppy] leave no timer behind: no
    later timer tick does anything. *)
Theorem no_timer_after_cancel_or_deinit (n : nat) (u : string) (l : list Call)
        (ts : list (Z * iSocketStatus)) :
  let w := calls l (created n u) in
  sdlTimer (cancel_Guppy w) = false
  /\ sdlTimer (deinit_Guppy w) = false
  /\ calls (timerCalls ts) (cancel_Guppy w) = cancel_Guppy w
  /\ calls (timerCalls ts) (deinit_Guppy w) = deinit_Guppy w.
Proof.
  intros w.
  assert (HT : sdlTimer w = true -> timer (guppy w) <> 0).
  { apply timerKnown_calls. simpl. discriminate. }
  assert (Hoff : sdlTimer w && (timer (guppy w) =? 0) = false).
  { destruct (sdlTimer w); [|reflexivity]. simpl.
    apply Z.eqb_neq. apply HT. reflexivity. }
  assert (H1 : sdlTimer (cancel_Guppy w) = false) by (simpl; exact Hoff).
  assert (H2 : sdlTimer (deinit_Guppy w) = false) by (simpl; exact Hoff).
  split; [assumption|]. split; [assumption|].
  split; apply timerCalls_stopped; assumption.
Qed.

(** ** Spacing of what the timer sends *)

Lemma trace_not_longer (tr : list Event) (e : Event) : tr <> tr ++ [e].
Proof.
  intros H. apply (f_equal (@length Event)) in H.
  rewrite length_app in H. simpl in H. lia.
Qed.

(** Within 500 ticks of the last send the callback writes nothing. *)
Lemma tick_quiet (w : World) (now : Z) (status : iSocketStatus) :
  0 <= lastSent (guppy w) -> lastSent (guppy w) + 1000 < 2 ^ 64 ->
  now < lastSent (guppy w) + 500 ->
  forall line, trace (tick w now status) <> trace w ++ [Written line].
Proof.
  intros H0 H1 Hnow line. unfold tick.
  destruct (sdlTimer w); [|apply trace_not_longer].
  unfold retryGuppy_.
  destruct (_ <=? now).
  - simpl. intros H. apply app_inv_head in H. discriminate.
  - assert (W1 : wrap64 (lastSent (guppy w) + 1000) = lastSent (guppy w) + 1000)
      by (apply Z.mod_small; lia).
    assert (W2 : wrap64 (lastSent (guppy w) + 500) = lastSent (guppy w) + 500)
      by (apply Z.mod_small; lia).
    rewrite W1, W2.
    replace (lastSent (guppy w) + 1000 <=? now) with false
      by (symmetry; apply Z.leb_gt; lia).
    replace (lastSent (guppy w) + 500 <=? now) with false
      by (symmetry; apply Z.leb_gt; lia).
    rewrite !andb_false_r. simpl. apply trace_not_longer.
Qed.

Lemma tick_wrote (w : World) (now : Z) (status : iSocketStatus) (line : string) :
  trace (tick w now status) = trace w ++ [Written line] ->
  lastSent (guppy (tick w now status)) = now.
Proof.
  unfold tick. destruct (sdlTimer w);
    [|intros H; apply trace_not_longer in H; contradiction].
  unfold retryGuppy_.
  destruct (_ <=? now).
  - simpl. intros H. apply app_inv_head in H. discriminate.
  - destruct (_ && _ && _); [reflexivity|].
    destruct (_ && _); [reflexivity|].
    simpl. intros H. apply trace_not_longer in H. contradiction.
Qed.

Lemma storeChunk_lastSent (d : iGuppy) (sq : Z) (payload : string) :
  lastSent (storeChunk_Guppy_ d sq payload) = lastSent d.
Proof.
  destruct (storeChunk_cases d sq payload)
    as [(_ & _ & ->)|[->|(j & _ & _ & _ & ->)]]; simpl;
    unfold noteFirstSeq; destruct (_ && _); reflexivity.
Qed.

Lemma processChunks_Guppy_lastSent (d : iGuppy) :
  lastSent (fst (processChunks_Guppy_ d)) = lastSent d.
Proof.
  pose proof (processChunks_loop_keeps (fun e => lastSent e = lastSent d)) as Hk.
  assert (Hstep : forall e e' again log,
             processChunks_pass e = (e', again, log) ->
             lastSent e = lastSent d -> lastSent e' = lastSent d).
  { intros e e' again log Hp He. unfold processChunks_pass in Hp.
    destruct (processChunks_scan _ _ _ _ _ _) as [[[cs' cur'] ag] lg].
    inversion Hp; subst. exact He. }
  specialize (Hk Hstep (S (drainMeasure (chunks d) (currentSeq d))) d eq_refl).
  destruct (processChunks_Guppy_shape d) as [->|[-> _]]; assumption.
Qed.

(** A read that acknowledges records the time of the acknowledgment. *)
Lemma process_acked_lastSent (w : World) (bytes : string) (now : Z) :
  ackOfRead bytes <> [] -> lastSent (guppy (process w bytes now)) = now.
Proof.
  assert (Hc : forall v, lastSent (guppy (cancelUnlessInProgress v))
                         = lastSent (guppy v)).
  { intros v. unfold cancelUnlessInProgress. destruct (isInProgress _); reflexivity. }
  unfold ackOfRead, process, processResponse_Guppy.
  destruct bytes as [|a bytes]; [intros H; contradiction|].
  simpl String.length. simpl Nat.eqb.
  destruct (indexOfCStr_String (String a bytes) CRLF) as [crlf|];
    [|intros H; contradiction].
  match goal with |- context [processHeader_ w ?hd ?pl now] =>
    set (hd0 := hd); set (pl0 := pl)
  end.
  intros Hack.
  pose proof (processChunks_Guppy_lastSent (guppy (processHeader_ w hd0 pl0 now))) as HL.
  destruct (processChunks_Guppy_ (guppy (processHeader_ w hd0 pl0 now))) as [d' log].
  simpl fst in *. rewrite Hc. simpl guppy. rewrite HL.
  unfold processHeader_.
  destruct (matchString_RegExp hd0) as [[c1 c2]|]; [|contradiction].
  destruct (6 <=? toInt_String c1); [|contradiction].
  destruct (isInProgress _); simpl; rewrite ?storeChunk_lastSent; reflexivity.
Qed.

(** X12: after the session has sent something at time [now] (the request
    of [open_Guppy], the acknowledgment of a read, or a line resent by the
    timer), a timer tick less than 500 later writes no line. *)
Theorem timer_waits_after_send (w : World) (bytes : string)
        (now : Z) (status : iSocketStatus) (now' : Z) (status' : iSocketStatus) :
  0 <= now -> now + 1000 < 2 ^ 64 -> now' < now + 500 ->
  (forall line, trace (tick (open_Guppy w now) now' status')
                <> trace (open_Guppy w now) ++ [Written line])
  /\ (ackOfRead bytes <> [] ->
      forall line, trace (tick (process w bytes now) now' status')
                   <> trace (process w bytes now) ++ [Written line])
  /\ ((exists sent, trace (tick w now status) = trace w ++ [Written sent]) ->
      forall line, trace (tick (tick w now status) now' status')
                   <> trace (tick w now status) ++ [Written line]).
Proof.
  intros H0 H1 Hnow.
  assert (Hopen : lastSent (guppy (open_Guppy w now)) = now).
  { unfold open_Guppy. simpl.
    destruct (firstSent (guppy w) =? 0); simpl;
      destruct (timer (guppy w) =? 0); reflexivity. }
  split; [|split].
  - apply tick_quiet; rewrite Hopen; assumption.
  - intros Hack. apply tick_quiet; rewrite process_acked_lastSent by assumption;
      assumption.
  - intros [sent Hsent]. apply tick_wrote in Hsent.
    apply tick_quiet; rewrite Hsent; assumption.
Qed.

Lemma timer_waits_after_send_witness :
  let w := opened 8 "guppy://host/" 0 in
  trace (tick (process w ("6 ok" ++ CRLF ++ "AB") 100) 550 connected_SocketStatus)
  <> trace (process w ("6 ok" ++ CRLF ++ "AB") 100) ++ [Written ("6" ++ CRLF)%string].
Proof.
  intros w.
  destruct (timer_waits_after_send w ("6 ok" ++ CRLF ++ "AB") 100
              connected_SocketStatus 550 connected_SocketStatus)
    as (_ & H & _); [lia|vm_compute; reflexivity|lia|].
  apply H. vm_compute. discriminate.
Defined.

(** ** Opening a session again *)

(** X13: after the timeout was notified, and unless [cancel_Guppy] ran in
    between, [open_Guppy] sends the request but starts no timer, because
    [d->timer] still holds the old id: no retransmission and no second
    timeout follow. *)
Theorem open_after_timeout_starts_no_timer (w : World) (now : Z)
        (status : iSocketStatus) (now2 : Z) (ts : list (Z * iSocketStatus)) :
  sdlTimer w = true ->
  timer (guppy w) <> 0 ->
  wrap64 (firstSent (guppy w) + 6000) <= now ->
  let w1 := tick w now status in
  let w2 := open_Guppy w1 now2 in
  trace w1 = trace w ++ [GuppyTimeout]
  /\ trace w2 = trace w1 ++ [Written (url (guppy w) ++ CRLF)%string]
  /\ state (guppy w2) = inProgress_GuppyState
  /\ sdlTimer w2 = false
  /\ calls (timerCalls ts) w2 = w2.
Proof.
  intros Hon Ht Hd w1 w2.
  assert (E1 : w1 = set_sdlTimer false (emit GuppyTimeout w)).
  { subst w1. unfold tick, retryGuppy_. rewrite Hon.
    replace (wrap64 (firstSent (guppy w) + 6000) <=? now) with true
      by (symmetry; apply Z.leb_le; assumption).
    reflexivity. }
  assert (E2 : sdlTimer w2 = false
               /\ trace w2 = trace w1 ++ [Written (url (guppy w) ++ CRLF)%string]
               /\ state (guppy w2) = inProgress_GuppyState).
  { subst w2. rewrite E1. unfold open_Guppy. simpl.
    destruct (firstSent (guppy w) =? 0); simpl;
      destruct (Z.eqb_spec (timer (guppy w)) 0); try contradiction; simpl; auto. }
  destruct E2 as (A & B & C).
  split; [rewrite E1; reflexivity|]. split; [assumption|].
  split; [assumption|]. split; [assumption|].
  apply timerCalls_stopped. assumption.
Qed.

Lemma open_after_timeout_starts_no_timer_witness :
  let w := opened 8 "guppy://host/" 10 in
  sdlTimer (open_Guppy (tick w 6010 connected_SocketStatus) 7000) = false.
Proof.
  intros w.
  destruct (open_after_timeout_starts_no_timer w 6010 connected_SocketStatus 7000 [])
    as (_ & _ & _ & H & _);
    [reflexivity|vm_compute; discriminate|vm_compute; discriminate|exact H].
Defined.

(** X14: opening a cancelled session again starts the timer but keeps the
    time of the first send, so the 6000 deadline is not extended: a tick
    at or after it notifies the timeout at once. *)
Theorem reopen_keeps_deadline (w : World) (now2 now : Z) (status : iSocketStatus) :
  firstSent (guppy w) <> 0 ->
  wrap64 (firstSent (guppy w) + 6000) <= now ->
  let w2 := open_Guppy (cancel_Guppy w) now2 in
  firstSent (guppy w2) = firstSent (guppy w)
  /\ sdlTimer w2 = true
  /\ trace (tick w2 now status) = trace w2 ++ [GuppyTimeout]
  /\ sdlTimer (tick w2 now status) = false.
Proof.
  intros Hf Hd w2.
  assert (E : firstSent (guppy w2) = firstSent (guppy w) /\ sdlTimer w2 = true).
  { subst w2. unfold open_Guppy. simpl.
    destruct (Z.eqb_spec (firstSent (guppy w)) 0); [contradiction|]. simpl. auto. }
  destruct E as [A B]. split; [assumption|]. split; [assumption|].
  unfold tick, retryGuppy_. rewrite B, A.
  replace (wrap64 (firstSent (guppy w) + 6000) <=? now) with true
    by (symmetry; apply Z.leb_le; assumption).
  simpl. auto.
Qed.

Lemma reopen_keeps_deadline_witness :
  let w := opened 8 "guppy://host/" 10 in
  let w2 := open_Guppy (cancel_Guppy w) 5000 in
  trace (tick w2 6010 connected_SocketStatus) = trace w2 ++ [GuppyTimeout].
Proof.
  intros w w2.
  destruct (reopen_keeps_deadline w 5000 6010 connected_SocketStatus)
    as (_ & _ & H & _);
    [vm_compute; discriminate|vm_compute; discriminate|exact H].
Defined.

(** ** A terminator that arrives too late *)

Lemma processHeader_not_finished (w : World) (header payload : string) (now : Z) :
  state (guppy w) <> finished_GuppyState ->
  state (guppy (processHeader_ w header payload now)) <> finished_GuppyState.
Proof.
  intros Hs. unfold processHeader_.
  destruct (matchString_RegExp header) as [[c1 c2]|]; simpl; [|discriminate].
  set (w1 := if firstSeq (guppy w) =? 0
             then on_guppy (fun d => statusLine_ d (toInt_String c1) c2) w
             else w).
  assert (H1 : state (guppy w1) <> finished_GuppyState).
  { subst w1. destruct (firstSeq (guppy w) =? 0); simpl; [|assumption].
    unfold statusLine_.
    destruct (_ || _); [|destruct (_ =? 1); [|destruct (_ =? 3);
                                               [|destruct (_ =? 4)]]];
      simpl; discriminate. }
  destruct (6 <=? toInt_String c1); [|assumption].
  destruct (isInProgress _); simpl; [|assumption].
  destruct (storeChunk_fields (set_lastSent now (guppy w1)) (toInt_String c1) payload)
    as (F1 & _). simpl in F1. rewrite F1. assumption.
Qed.

Lemma process_late_terminator (w : World) (bytes : string) (now : Z) :
  lastSeq (guppy w) <> 0 ->
  lastSeq (guppy w) <= currentSeq (guppy w) ->
  state (guppy w) <> finished_GuppyState ->
  let d' := guppy (process w bytes now) in
  lastSeq d' = lastSeq (guppy w)
  /\ lastSeq d' <= currentSeq d'
  /\ state d' <> finished_GuppyState.
Proof.
  intros Hl Hle Hs. cbv zeta.
  destruct (process_unfold w bytes now) as [[->| ->]|(crlf & _ & H)]; simpl; auto.
  simpl in H.
  match type of H with context [processHeader_ w ?hd ?pl now] =>
    destruct (processHeader_cases w hd pl now) as (d0 & (_ & _ & E3 & E4 & _) & Hh);
    pose proof (processHeader_not_finished w hd pl now Hs) as Hnf;
    set (h := guppy (processHeader_ w hd pl now)) in *
  end.
  assert (Hh' : lastSeq h = lastSeq (guppy w) /\ currentSeq h = currentSeq (guppy w)).
  { destruct Hh as [->|(sq & _ & _ & ->)]; [auto|].
    rewrite storeChunk_lastSeq_known by congruence.
    destruct (storeChunk_fields d0 sq
                (String.substring (crlf + 2) (String.length bytes - crlf - 2) bytes))
      as (_ & _ & _ & F4 & _). simpl in F4. rewrite F4. auto. }
  destruct Hh' as [A B].
  destruct (processChunks_Guppy_fields h) as (_ & G2 & _ & G4).
  destruct (processChunks_Guppy_grows h) as [_ G5].
  simpl in G2, G4, G5.
  assert (Hfin : lastSeq (fst (processChunks_Guppy_ h)) = lastSeq (guppy w)
                 /\ lastSeq (fst (processChunks_Guppy_ h))
                    <= currentSeq (fst (processChunks_Guppy_ h))
                 /\ state (fst (processChunks_Guppy_ h)) <> finished_GuppyState).
  { split; [congruence|]. split; [lia|].
    destruct G4 as [G4|(_ & _ & G6)]; [congruence|lia]. }
  destruct H as [-> | ->]; simpl; exact Hfin.
Qed.

(** X15: once [lastSeq] is known and not above [currentSeq] (a chunk
    without payload whose number was already delivered has been taken for
    the terminator), no sequence of reads ever sets the state to finished. *)
Theorem late_terminator_never_finishes (w : World) (reads : list (string * Z)) :
  lastSeq (guppy w) <> 0 ->
  lastSeq (guppy w) <= currentSeq (guppy w) ->
  state (guppy w) <> finished_GuppyState ->
  state (guppy (processAll reads w)) <> finished_GuppyState
  /\ lastSeq (guppy (processAll reads w)) = lastSeq (guppy w).
Proof.
  revert w. unfold processAll.
  induction reads as [|[bytes now] reads IH]; intros w Hl Hle Hs; simpl; [auto|].
  destruct (process_late_terminator w bytes now Hl Hle Hs) as (A & B & C).
  destruct (IH (process w bytes now)) as [I1 I2]; try assumption; [congruence|].
  split; [assumption|congruence].
Qed.

Lemma late_terminator_never_finishes_witness :
  let w := processAll [(("6 ok" ++ CRLF ++ "AB")%string, 10);
                       (("7" ++ CRLF ++ "CD")%string, 20);
                       (("7" ++ CRLF)%string, 30)]
                      (opened 8 "guppy://host/" 0) in
  lastSeq (guppy w) = 7
  /\ state (guppy (processAll [(("8" ++ CRLF ++ "EF")%string, 40);
                               (("9" ++ CRLF)%string, 50)] w))
     <> finished_GuppyState.
Proof.
  intros w. split; [vm_compute; reflexivity|].
  destruct (late_terminator_never_finishes w
              [(("8" ++ CRLF ++ "EF")%string, 40); (("9" ++ CRLF)%string, 50)])
    as [H _];
    [vm_compute; discriminate|vm_compute; discriminate|vm_compute; discriminate
    |exact H].
Defined.

(** ** Reads without a complete header *)

(** X16: bytes that hold no line terminator are dropped, not kept for the
    next read: a session in progress is left exactly as it was, so a
    header split over two reads is never put together again. *)
Theorem incomplete_read_is_dropped (w : World) (a b : string) (t1 t2 : Z) :
  indexOfCStr_String a CRLF = None ->
  state (guppy w) = inProgress_GuppyState ->
  process w a t1 = w
  /\ process (process w a t1) b t2 = process w b t2.
Proof.
  intros Hidx Hs.
  assert (H : process w a t1 = w).
  { unfold process, processResponse_Guppy, cancelUnlessInProgress.
    rewrite Hidx. destruct (String.length a =? 0)%nat; simpl; rewrite Hs; reflexivity. }
  rewrite H. auto.
Qed.

Lemma incomplete_read_is_dropped_witness :
  let w := opened 8 "guppy://host/" 0 in
  let w' := process (process w "6 ok" 10) (CRLF ++ "AB") 20 in
  state (guppy w') = invalidResponse_GuppyState /\ body (guppy w') = ""%string.
Proof.
  intros w w'. subst w'.
  destruct (incomplete_read_is_dropped w "6 ok" (CRLF ++ "AB") 10 20) as [_ H];
    [vm_compute; reflexivity|vm_compute; reflexivity|].
  rewrite H. vm_compute. split; reflexivity.
Defined.

(** ** The text of a success status line *)

(** X17: when the first recognised header is not one of the status codes
    0, 1, 3, 4, 5, the text after its number, without the first character,
    replaces the session's metadata, also when that text is empty. *)
Theorem success_status_replaces_meta (w : World) (bytes : string) (now : Z)
        (crlf : nat) (c1 c2 : string) :
  firstSeq (guppy w) = 0 ->
  indexOfCStr_String bytes CRLF = Some crlf ->
  matchString_RegExp (String.substring 0 crlf bytes) = Some (c1, c2) ->
  isStatusCode (toInt_String c1) = false ->
  meta (guppy (process w bytes now)) = withoutSeparator c2.
Proof.
  intros Hf Hidx Hre Hcode.
  assert (Hc : forall v, meta (guppy (cancelUnlessInProgress v)) = meta (guppy v)).
  { intros v. unfold cancelUnlessInProgress. destruct (isInProgress _); reflexivity. }
  rewrite (process_with_header w bytes now crlf Hidx). cbv zeta.
  rewrite Hc. simpl guppy.
  match goal with |- context [processHeader_ w ?hd ?pl now] =>
    set (pl0 := pl)
  end.
  destruct (processChunks_Guppy_fields
              (guppy (processHeader_ w (String.substring 0 crlf bytes) pl0 now)))
    as (_ & _ & G3 & _).
  simpl in G3. rewrite G3.
  unfold processHeader_. rewrite Hre, Hf. simpl.
  assert (Hm : meta (statusLine_ (guppy w) (toInt_String c1) c2) = withoutSeparator c2).
  { unfold statusLine_, isStatusCode in *. rewrite statusLine_meta.
    destruct (toInt_String c1 =? 0); [discriminate|].
    destruct (toInt_String c1 =? 1); [discriminate|].
    destruct (toInt_String c1 =? 3); [discriminate|].
    destruct (toInt_String c1 =? 4); [discriminate|].
    destruct (toInt_String c1 =? 5); [discriminate|]. reflexivity. }
  destruct (6 <=? toInt_String c1); [|exact Hm].
  destruct (isInProgress _); simpl; [|exact Hm].
  destruct (storeChunk_fields
              (set_lastSent now (statusLine_ (guppy w) (toInt_String c1) c2))
              (toInt_String c1) pl0) as (_ & F2 & _).
  simpl in F2. rewrite F2. exact Hm.
Qed.

Lemma success_status_replaces_meta_witness :
  let w := on_guppy (set_meta "text/plain") (opened 8 "guppy://host/" 0) in
  meta (guppy (process w ("6" ++ CRLF ++ "AB") 10)) = ""%string.
Proof.
  intros w.
  apply (success_status_replaces_meta w ("6" ++ CRLF ++ "AB") 10 1 "6" "");
    vm_compute; reflexivity.
Defined.

(** ** A finished session *)

(** The drain of a buffer in which nothing can be delivered. *)
Lemma processChunks_nothing (d : iGuppy) :
  Forall (fun c => deliverable (firstSeq d) (currentSeq d) c = false) (chunks d) ->
  let d' := fst (processChunks_Guppy_ d) in
  sameBuffer d d'
  /\ state d' = (if negb (lastSeq d =? 0) && (currentSeq d =? lastSeq d - 1)
                 then finished_GuppyState else state d).
Proof.
  intros Hall.
  assert (Hpass : processChunks_pass d
                  = (set_body (body d ++ payloads [])%string
                       (set_currentSeq (currentSeq d) (set_chunks (chunks d) d)),
                     false, [])).
  { unfold processChunks_pass. rewrite processChunks_scan_none by assumption.
    reflexivity. }
  rewrite (processChunks_Guppy_doWhile _ _ [] (doWhile_stop _ _ _ Hpass)).
  simpl. destruct (negb _ && _); simpl;
    (split; [unfold sameBuffer; simpl; rewrite string_app_nil_r; auto|reflexivity]).
Qed.

Lemma processHeader_not_in_progress (w : World) (header payload : string) (now : Z) :
  firstSeq (guppy w) <> 0 ->
  state (guppy w) <> inProgress_GuppyState ->
  sameBuffer (guppy w) (guppy (processHeader_ w header payload now)).
Proof.
  intros Hf Hs. unfold processHeader_.
  destruct (matchString_RegExp header) as [[c1 c2]|]; simpl;
    [|unfold sameBuffer; simpl; auto].
  destruct (Z.eqb_spec (firstSeq (guppy w)) 0); [contradiction|].
  destruct (6 <=? toInt_String c1); [|apply sameBuffer_refl].
  simpl. destruct (state (guppy w)) eqn:E; simpl;
    try (unfold sameBuffer; simpl; auto; fail).
  contradiction.
Qed.

Lemma process_finished (w : World) (bytes : string) (now : Z) :
  firstSeq (guppy w) <> 0 ->
  lastSeq (guppy w) <> 0 ->
  currentSeq (guppy w) = lastSeq (guppy w) - 1 ->
  Forall (fun c => seq c = 0) (chunks (guppy w)) ->
  state (guppy w) = finished_GuppyState ->
  sameBuffer (guppy w) (guppy (process w bytes now))
  /\ state (guppy (process w bytes now)) = finished_GuppyState.
Proof.
  intros Hf Hl Hc Hfree Hs.
  destruct (process_unfold w bytes now) as [[->| ->]|(crlf & _ & H)];
    [split; [apply sameBuffer_refl|assumption]
    |split; [unfold sameBuffer; simpl; auto|assumption]|].
  simpl in H.
  match type of H with context [processHeader_ w ?hd ?pl now] =>
    pose proof (processHeader_not_in_progress w hd pl now Hf
                  ltac:(rewrite Hs; discriminate)) as Hsame;
    set (h := guppy (processHeader_ w hd pl now)) in *
  end.
  destruct Hsame as (E1 & E2 & E3 & E4 & E5).
  assert (Hnone : Forall (fun c => deliverable (firstSeq h) (currentSeq h) c = false)
                         (chunks h)).
  { rewrite E1, E2, E4. eapply Forall_impl; [exact Hfree|].
    intros c H0. destruct (deliverable _ _ c) eqn:Ed; [exfalso|reflexivity].
    apply deliverable_true in Ed. simpl in H0. lia. }
  destruct (processChunks_nothing h Hnone) as [(S1 & S2 & S3 & S4 & S5) St].
  rewrite E3, E4 in St.
  replace (lastSeq (guppy w) =? 0) with false in St
    by (symmetry; apply Z.eqb_neq; assumption).
  replace (currentSeq (guppy w) =? lastSeq (guppy w) - 1) with true in St
    by (symmetry; apply Z.eqb_eq; assumption).
  simpl in St.
  destruct H as [-> | ->]; simpl;
    (split; [unfold sameBuffer; simpl; repeat split; congruence|assumption]).
Qed.

(** X18: a session that finished with every slot free stays finished
    whatever is read afterwards, and its body, buffer and watermarks stay
    as they are. *)
Theorem finished_session_stays_finished (w : World) (reads : list (string * Z)) :
  firstSeq (guppy w) <> 0 ->
  lastSeq (guppy w) <> 0 ->
  currentSeq (guppy w) = lastSeq (guppy w) - 1 ->
  Forall (fun c => seq c = 0) (chunks (guppy w)) ->
  state (guppy w) = finished_GuppyState ->
  state (guppy (processAll reads w)) = finished_GuppyState
  /\ sameBuffer (guppy w) (guppy (processAll reads w)).
Proof.
  revert w. unfold processAll.
  induction reads as [|[bytes now] reads IH]; intros w Hf Hl Hc Hfree Hs; simpl.
  - split; [assumption|apply sameBuffer_refl].
  - destruct (process_finished w bytes now Hf Hl Hc Hfree Hs) as [Hsame Hst].
    pose proof Hsame as (E1 & E2 & E3 & E4 & E5).
    destruct (IH (process w bytes now)) as [I1 I2]; try congruence.
    split; [assumption|]. eapply sameBuffer_trans; eassumption.
Qed.

Lemma finished_session_stays_finished_witness :
  let w := processAll [(("6 ok" ++ CRLF ++ "AB")%string, 10);
                       (("7" ++ CRLF)%string, 20)]
                      (opened 8 "guppy://host/" 0) in
  state (guppy (processAll [(("oops" ++ CRLF)%string, 30);
                            (("8" ++ CRLF ++ "EF")%string, 40)] w))
  = finished_GuppyState.
Proof.
  intros w.
  destruct (finished_session_stays_finished w
              [(("oops" ++ CRLF)%string, 30); (("8" ++ CRLF ++ "EF")%string, 40)])
    as [H _];
    [vm_compute; discriminate|vm_compute; discriminate|vm_compute; reflexivity
    |vm_compute; repeat constructor|vm_compute; reflexivity|exact H].
Defined.

(** ** What the timer writes *)

Lemma calls_BufferInv (n : nat) (u : string) (l : list Call) :
  BufferInv (guppy (calls l (created n u))).
Proof.
  apply calls_keeps.
  - intros d e (E1 & E2 & _ & E4 & _) [I1 I2 I3 I4].
    constructor; rewrite ?E1, ?E2, ?E4; assumption.
  - intros d sq payload Hge HI. apply storeChunk_inv; [lia|assumption].
  - intros d HI. apply processChunks_Guppy_inv. assumption.
  - apply init_BufferInv.
Qed.

(** X19: in every session reached from [init_Guppy], a line written by a
    timer tick is either the request, sent while the socket is connected
    and no chunk is known, or the acknowledgment of [currentSeq], sent
    once a chunk was delivered; in between ([firstSeq] known, nothing
    delivered) the timer writes nothing. *)
Theorem timer_line_is_request_or_ack (n : nat) (u : string) (l : list Call)
        (now : Z) (status : iSocketStatus) (line : string) :
  let w := calls l (created n u) in
  trace (tick w now status) = trace w ++ [Written line] ->
  (line = (url (guppy w) ++ CRLF)%string
   /\ firstSeq (guppy w) = 0 /\ currentSeq (guppy w) = 0
   /\ status = connected_SocketStatus)
  \/ (line = (format_int (currentSeq (guppy w)) ++ CRLF)%string
      /\ firstSeq (guppy w) <> 0 /\ currentSeq (guppy w) <> 0).
Proof.
  intros w.
  destruct (calls_BufferInv n u l) as [_ Hcur _ _]. fold w in Hcur.
  unfold tick. destruct (sdlTimer w);
    [|intros H; apply trace_not_longer in H; contradiction].
  unfold retryGuppy_.
  destruct (_ <=? now).
  { simpl. intros H. apply app_inv_head in H. discriminate. }
  destruct (Z.eqb_spec (firstSeq (guppy w)) 0) as [Ef|Ef]; simpl.
  - destruct status; simpl.
    + destruct (_ <=? now); simpl.
      * intros H. apply app_inv_head in H. inversion H; subst.
        left. repeat split; try reflexivity; try assumption.
        destruct Hcur as [Hc|[Hc _]]; [assumption|lia].
      * destruct (Z.eqb_spec (currentSeq (guppy w)) 0) as [Ec|Ec]; simpl.
        -- intros H. apply trace_not_longer in H. contradiction.
        -- destruct Hcur as [Hc|[Hc _]]; [contradiction|lia].
    + destruct (Z.eqb_spec (currentSeq (guppy w)) 0) as [Ec|Ec]; simpl.
      * intros H. apply trace_not_longer in H. contradiction.
      * destruct Hcur as [Hc|[Hc _]]; [contradiction|lia].
  - destruct (Z.eqb_spec (currentSeq (guppy w)) 0) as [Ec|Ec]; simpl.
    + intros H. apply trace_not_longer in H. contradiction.
    + destruct (_ <=? now); simpl.
      * intros H. apply app_inv_head in H. inversion H; subst.
        right. auto.
      * intros H. apply trace_not_longer in H. contradiction.
Qed.

Lemma timer_line_is_request_or_ack_witness :
  let w := calls [OpenCall 0; ReadCall ("6 ok" ++ CRLF ++ "AB") 10]
                 (created 8 "guppy://host/") in
  currentSeq (guppy w) <> 0.
Proof.
  intros w.
  destruct (timer_line_is_request_or_ack 8 "guppy://host/"
              [OpenCall 0; ReadCall ("6 ok" ++ CRLF ++ "AB") 10]
              600 connected_SocketStatus ("6" ++ CRLF))
    as [(_ & H & _)|(_ & _ & H)].
  - vm_compute. reflexivity.
  - exfalso. revert H. vm_compute. discriminate.
  - exact H.
Defined.

(** ** The timer after a read *)

(** X20: in every session reached from [init_Guppy], a read that leaves
    the state other than in-progress has removed the timer and cleared
    [d->timer], so that no later timer tick does anything. *)
Theorem read_leaving_progress_stops_timer (n : nat) (u : string) (l : list Call)
        (bytes : string) (now : Z) (ts : list (Z * iSocketStatus)) :
  let w' := process (calls l (created n u)) bytes now in
  state (guppy w') <> inProgress_GuppyState ->
  timer (guppy w') = 0
  /\ sdlTimer w' = false
  /\ calls (timerCalls ts) w' = w'.
Proof.
  intros w' Hs.
  assert (HT : sdlTimer w' = true -> timer (guppy w') <> 0).
  { apply (timerKnown_call (calls l (created n u)) (ReadCall bytes now)).
    apply timerKnown_calls. simpl. discriminate. }
  assert (Ht : timer (guppy w') = 0).
  { revert Hs. subst w'. unfold process, processResponse_Guppy.
    assert (Hc : forall v,
               state (guppy (cancelUnlessInProgress v)) <> inProgress_GuppyState ->
               timer (guppy (cancelUnlessInProgress v)) = 0).
    { intros v. unfold cancelUnlessInProgress.
      destruct (state (guppy v)) eqn:E; simpl; try reflexivity.
      rewrite E. intros H. contradiction. }
    destruct (String.length bytes =? 0)%nat; [apply Hc|].
    destruct (indexOfCStr_String bytes CRLF) as [crlf|]; [|apply Hc].
    destruct (processChunks_Guppy_ _) as [d' log]. apply Hc. }
  assert (Hoff : sdlTimer w' = false).
  { destruct (sdlTimer w'); [|reflexivity]. exfalso. apply HT; auto. }
  split; [assumption|]. split; [assumption|].
  apply timerCalls_stopped. assumption.
Qed.

Lemma read_leaving_progress_stops_timer_witness :
  sdlTimer (process (calls [OpenCall 0] (created 8 "guppy://host/"))
                    ("4 not found" ++ CRLF) 10) = false.
Proof.
  destruct (read_leaving_progress_stops_timer 8 "guppy://host/" [OpenCall 0]
              ("4 not found" ++ CRLF) 10 []) as (_ & H & _);
    [vm_compute; discriminate|exact H].
Defined.

(** ** Two chunks that arrive swapped *)

Lemma outOfWindow_inside (d : iGuppy) (sq : Z) :
  (currentSeq d = 0 \/ currentSeq d < sq) ->
  (firstSeq d = 0 \/ firstSeq d <= sq) ->
  (lastSeq d = 0 \/ sq <= lastSeq d) ->
  outOfWindow d sq = false.
Proof.
  intros H1 H2 H3. unfold outOfWindow.
  assert (A : negb (currentSeq d =? 0) && (sq <=? currentSeq d) = false).
  { destruct (Z.eqb_spec (currentSeq d) 0); [reflexivity|]. simpl.
    apply Z.leb_gt. lia. }
  assert (B : negb (firstSeq d =? 0) && (sq <? firstSeq d) = false).
  { destruct (Z.eqb_spec (firstSeq d) 0); [reflexivity|]. simpl.
    apply Z.ltb_ge. lia. }
  assert (C : negb (lastSeq d =? 0) && (sq >? lastSeq d) = false).
  { destruct (Z.eqb_spec (lastSeq d) 0); [reflexivity|]. simpl.
    destruct (Z.gtb_spec sq (lastSeq d)); [lia|reflexivity]. }
  rewrite A, B, C. reflexivity.
Qed.

Lemma deliverable_next (fSeq cur : Z) (c : iGuppyChunk) :
  0 < cur -> cur < INT_MAX -> deliverable fSeq cur c = (seq c =? cur + 1).
Proof.
  intros H0 H1. unfold deliverable.
  replace (cur =? 0) with false by (symmetry; apply Z.eqb_neq; lia).
  replace (cur <? INT_MAX) with true by (symmetry; apply Z.ltb_lt; lia).
  simpl. apply orb_false_r.
Qed.

(** The drain of a buffer whose first two slots hold the chunk after the
    awaited one and the awaited one, in an array of at least three slots. *)
Lemma processChunks_swapped (d : iGuppy) (c1 c0 : iGuppyChunk) (k : nat) :
  chunks d = c1 :: c0 :: replicate (S k) emptyChunk ->
  0 < currentSeq d -> currentSeq d + 2 < INT_MAX ->
  seq c0 = currentSeq d + 1 -> seq c1 = currentSeq d + 2 ->
  let d' := fst (processChunks_Guppy_ d) in
  chunks d' = replicate (S (S (S k))) emptyChunk
  /\ currentSeq d' = currentSeq d + 2
  /\ body d' = (body d ++ data c0 ++ data c1)%string
  /\ firstSeq d' = firstSeq d /\ lastSeq d' = lastSeq d
  /\ (lastSeq d = 0 -> state d' = state d).
Proof.
  intros Hcs Hpos Hmax H0 H1.
  assert (Dc1 : deliverable (firstSeq d) (currentSeq d) c1 = false).
  { rewrite deliverable_next by lia. apply Z.eqb_neq. lia. }
  assert (Dc0 : deliverable (firstSeq d) (currentSeq d) c0 = true).
  { rewrite deliverable_next by lia. apply Z.eqb_eq. lia. }
  assert (Dc1' : deliverable (firstSeq d) (seq c0) c1 = true).
  { rewrite deliverable_next by lia. apply Z.eqb_eq. lia. }
  assert (De0 : deliverable (firstSeq d) (seq c0) emptyChunk = false).
  { rewrite deliverable_next by lia. apply Z.eqb_neq. simpl. lia. }
  assert (De1 : deliverable (firstSeq d) (seq c1) emptyChunk = false).
  { rewrite deliverable_next by lia. apply Z.eqb_neq. simpl. lia. }
  set (d1 := set_body (body d ++ payloads [c0])%string
               (set_currentSeq (seq c0)
                  (set_chunks ([c1; emptyChunk] ++ replicate (S k) emptyChunk) d))).
  set (d2 := set_body (body d1 ++ payloads [c1])%string
               (set_currentSeq (seq c1)
                  (set_chunks ([emptyChunk; emptyChunk] ++ replicate (S k) emptyChunk)
                     d1))).
  set (d3 := set_body (body d2 ++ payloads [])%string
               (set_currentSeq (seq c1)
                  (set_chunks ([emptyChunk; emptyChunk] ++ replicate (S k) emptyChunk)
                     d2))).
  assert (P1 : processChunks_pass d = (d1, true, [c0])).
  { apply (processChunks_pass_padded d [c1; c0] (S k)); [exact Hcs| |exact De0].
    simpl. rewrite Dc1, Dc0. reflexivity. }
  assert (P2 : processChunks_pass d1 = (d2, true, [c1])).
  { apply (processChunks_pass_padded d1 [c1; emptyChunk] (S k));
      [reflexivity| |exact De1].
    simpl. rewrite Dc1', De1. reflexivity. }
  assert (P3 : processChunks_pass d2 = (d3, false, [])).
  { apply (processChunks_pass_padded d2 [emptyChunk; emptyChunk] (S k));
      [reflexivity| |exact De1].
    simpl. rewrite De1. reflexivity. }
  cbv zeta.
  rewrite (processChunks_Guppy_doWhile d d3 ([c0] ++ [c1] ++ [])).
  - cbn [fst].
    assert (Hf : chunks d3 = replicate (S (S (S k))) emptyChunk
                 /\ currentSeq d3 = currentSeq d + 2
                 /\ body d3 = (body d ++ data c0 ++ data c1)%string
                 /\ firstSeq d3 = firstSeq d /\ lastSeq d3 = lastSeq d
                 /\ state d3 = state d).
    { simpl. rewrite !string_app_nil_r, string_app_assoc. auto 10. }
    destruct Hf as (A & B & C & D & E & F). clearbody d3.
    destruct (negb (lastSeq d3 =? 0) && (currentSeq d3 =? lastSeq d3 - 1)) eqn:Hfin;
      simpl; rewrite ?A, ?B, ?C, ?D, ?E, ?F; repeat split; try reflexivity.
    intros Hl. rewrite E, Hl in Hfin. discriminate.
  - eapply doWhile_again; [exact P1|].
    eapply doWhile_again; [exact P2|].
    apply doWhile_stop. exact P3.
Qed.

(** X21: with at least three slots, all free, two consecutive chunks that
    arrive in the wrong order are both delivered, in the right order, by
    the drain that follows the second arrival. *)
Theorem one_swap_is_repaired (k : nat) (d : iGuppy) (s : Z) (p q : string) :
  chunks d = replicate (S (S (S k))) emptyChunk ->
  lastSeq d = 0 ->
  0 < firstSeq d -> firstSeq d <= currentSeq d ->
  currentSeq d = s - 1 -> s + 1 < INT_MAX ->
  p <> ""%string -> q <> ""%string ->
  let d1 := fst (runOps [Admit (s + 1) q; Drain] (d, [])) in
  let d2 := fst (runOps [Admit (s + 1) q; Drain; Admit s p; Drain] (d, [])) in
  (body d1 = body d /\ currentSeq d1 = currentSeq d)
  /\ body d2 = (body d ++ p ++ q)%string
  /\ currentSeq d2 = s + 1
  /\ chunks d2 = replicate (S (S (S k))) emptyChunk.
Proof.
  intros Hcs Hl Hf Hfc Hc Hmax Hp Hq.
  assert (Hn : forall sq, noteFirstSeq d sq = d).
  { intros sq. destruct (noteFirstSeq_fields d sq) as (_ & _ & _ & _ & _ & _ & F7 & _).
    apply F7. lia. }
  (* the later chunk is stored in slot 0 and stays there *)
  assert (S1 : storeChunk_Guppy_ d (s + 1) q
               = set_chunks (mkChunk (s + 1) q :: replicate (S (S k)) emptyChunk) d).
  { pose proof (storeChunk_into_free d (s + 1) q []
                  (replicate (S (S k)) emptyChunk) emptyChunk) as H.
    cbv zeta in H. rewrite Hn in H. apply H; try assumption.
    - apply outOfWindow_inside; lia.
    - constructor.
    - reflexivity.
    - simpl. lia.
    - apply Forall_replicate. simpl. lia. }
  set (e1 := set_chunks (mkChunk (s + 1) q :: replicate (S (S k)) emptyChunk) d) in *.
  assert (N1 : Forall (fun c => deliverable (firstSeq e1) (currentSeq e1) c = false)
                      (chunks e1)).
  { change (chunks e1)
      with (mkChunk (s + 1) q :: replicate (S (S k)) emptyChunk).
    change (firstSeq e1) with (firstSeq d).
    change (currentSeq e1) with (currentSeq d).
    constructor.
    - rewrite deliverable_next by lia. apply Z.eqb_neq. simpl. lia.
    - apply Forall_replicate. rewrite deliverable_next by lia.
      apply Z.eqb_neq. simpl. lia. }
  destruct (processChunks_nothing e1 N1) as [(A1 & A2 & A3 & A4 & A5) _].
  set (e2 := fst (processChunks_Guppy_ e1)) in *.
  simpl in A1, A2, A3, A4, A5.
  (* the awaited chunk is stored in slot 1 *)
  assert (Hn2 : forall sq, noteFirstSeq e2 sq = e2).
  { intros sq. destruct (noteFirstSeq_fields e2 sq) as (_ & _ & _ & _ & _ & _ & F7 & _).
    apply F7. lia. }
  assert (S2 : storeChunk_Guppy_ e2 s p
               = set_chunks ([mkChunk (s + 1) q] ++ mkChunk s p
                               :: replicate (S k) emptyChunk) e2).
  { pose proof (storeChunk_into_free e2 s p [mkChunk (s + 1) q]
                  (replicate (S k) emptyChunk) emptyChunk) as H.
    cbv zeta in H. rewrite Hn2 in H. apply H; try assumption.
    - apply outOfWindow_inside; lia.
    - constructor; [|constructor]. split; [|simpl; lia].
      unfold reusable. simpl. rewrite A2, A3, Hl. simpl.
      replace (s + 1 =? 0) with false by (symmetry; apply Z.eqb_neq; lia).
      replace (s + 1 <? firstSeq d) with false by (symmetry; apply Z.ltb_ge; lia).
      simpl. rewrite andb_false_r. reflexivity.
    - reflexivity.
    - simpl. lia.
    - apply Forall_replicate. simpl. lia. }
  set (e3 := set_chunks ([mkChunk (s + 1) q] ++ mkChunk s p
                           :: replicate (S k) emptyChunk) e2) in *.
  destruct (processChunks_swapped e3 (mkChunk (s + 1) q) (mkChunk s p) k)
    as (B1 & B2 & B3 & _);
    [first [reflexivity | unfold e3; simpl; lia] ..|].
  assert (R1 : fst (runOps [Admit (s + 1) q; Drain] (d, [])) = e2).
  { unfold runOps. simpl. rewrite S1. fold e1.
    destruct (processChunks_Guppy_ e1) as [x lg]. reflexivity. }
  assert (R2 : fst (runOps [Admit (s + 1) q; Drain; Admit s p; Drain] (d, []))
               = fst (processChunks_Guppy_ e3)).
  { unfold runOps. simpl. rewrite S1. fold e1.
    destruct (processChunks_Guppy_ e1) as [x lg].
    assert (Hx : x = e2) by reflexivity.
    simpl. rewrite Hx, S2. fold e3.
    destruct (processChunks_Guppy_ e3) as [y lg']. reflexivity. }
  cbv zeta. rewrite R1, R2.
  simpl in B2, B3. rewrite A4, A5 in *.
  split; [auto|]. split; [exact B3|]. split; [lia|exact B1].
Qed.

Lemma one_swap_is_repaired_witness :
  let d := fst (runOps [Admit 6 "AB"; Drain] (init_Guppy 3 "guppy://host/", [])) in
  body (fst (runOps [Admit 8 "EF"; Drain; Admit 7 "CD"; Drain] (d, [])))
  = "ABCDEF"%string.
Proof.
  intros d.
  refine (proj1 (proj2 (one_swap_is_repaired 0 d 7 "CD" "EF" _ _ _ _ _ _ _ _)));
    vm_compute; first [reflexivity|discriminate].
Defined.

(** * Admission into a full buffer *)

(** ** Where the first chunk goes *)

Lemma reusable_cases (fSeq lSeq : Z) (c : iGuppyChunk) :
  reusable fSeq lSeq c = true ->
  seq c = 0 \/ (0 < fSeq /\ seq c < fSeq) \/ (0 < lSeq /\ lSeq < seq c).
Proof.
  unfold reusable. intros H.
  apply orb_true_iff in H. destruct H as [H|H].
  - apply orb_true_iff in H. destruct H as [H|H].
    + left. apply Z.eqb_eq. exact H.
    + apply andb_true_iff in H. destruct H as [H1 H2].
      right. left. apply Z.gtb_lt in H1. apply Z.ltb_lt in H2. lia.
  - apply andb_true_iff in H. destruct H as [H1 H2].
    right. right. apply Z.gtb_lt in H1. apply Z.gtb_lt in H2. lia.
Qed.

Lemma deliverable_first (fSeq : Z) (c : iGuppyChunk) :
  0 < fSeq -> seq c = fSeq -> deliverable fSeq 0 c = true.
Proof.
  intros Hf Hc. unfold deliverable.
  replace (seq c =? fSeq) with true by (symmetry; apply Z.eqb_eq; assumption).
  replace (fSeq >? 0) with true by (symmetry; apply Z.gtb_lt; lia).
  reflexivity.
Qed.

(** The chunk that is [firstSeq] always gets a slot of a non-empty array:
    a reusable one, or else the one holding the highest number. *)
Lemma storeChunk_first_stored (d : iGuppy) (sq : Z) (payload : string) :
  let d1 := noteFirstSeq d sq in
  sq = firstSeq d1 ->
  (lastSeq d1 <> 0 \/ payload <> ""%string) ->
  outOfWindow d1 sq = false ->
  Forall (fun c => seq c <> sq /\ 0 <= seq c) (chunks d) ->
  chunks d <> [] ->
  exists j, (j < length (chunks d))%nat
            /\ storeChunk_Guppy_ d sq payload
               = set_chunks (<[j := mkChunk sq payload]> (chunks d)) d1.
Proof.
  intros d1 Hsq Hnt Hwin Hall Hne.
  pose proof (noteFirstSeq_fields d sq) as HN. cbv zeta in HN. fold d1 in HN.
  destruct HN as (_ & _ & _ & F4 & _).
  assert (Hnf : Forall (fun c => seq c <> sq) (chunks d))
    by (eapply Forall_impl; [exact Hall|]; simpl; tauto).
  pose proof (storeChunk_scan_not_found (firstSeq d1) (lastSeq d1) sq (chunks d)
                0 (-1) (-1) (-1) Hnf) as Hfound.
  pose proof (storeChunk_scan_max (firstSeq d1) (lastSeq d1) sq (chunks d)
                0 (-1) (-1) (-1) Hnf) as Hmax.
  destruct (storeChunk_scan_bounds (firstSeq d1) (lastSeq d1) sq (chunks d)
              0 (-1) (-1) (-1)) as [Hslot _]; [left; reflexivity|left; reflexivity|].
  assert (Hterm : ((lastSeq d1 =? 0) && (String.length payload =? 0)%nat) = false).
  { destruct Hnt as [Hl|Hp].
    - apply Z.eqb_neq in Hl. rewrite Hl. reflexivity.
    - destruct payload; [contradiction|]. apply andb_false_r. }
  unfold storeChunk_Guppy_. fold d1. rewrite Hterm, Hwin, F4.
  destruct (storeChunk_scan _ _ _ _ _ _ _ _) as [[found slot] ms].
  simpl in Hfound, Hmax, Hslot. subst found.
  replace (sq =? firstSeq d1) with true by (symmetry; apply Z.eqb_eq; exact Hsq).
  destruct Hmax as [[_ Hle]|(j & c & Hj & Hr & _ & _)].
  { exfalso. destruct (chunks d) as [|c0 cs]; [contradiction|].
    inversion Hle as [|? ? Hle1 _]. inversion Hall as [|? ? [_ Hall1] _]. lia. }
  apply lookup_lt_Some in Hj.
  destruct Hslot as [->|Hs].
  - exists j. split; [assumption|]. simpl. subst ms.
    replace (0 <=? Z.of_nat j) with true by (symmetry; apply Z.leb_le; lia).
    rewrite Nat2Z.id. reflexivity.
  - exists (Z.to_nat slot). split; [lia|].
    replace (slot <? 0) with false by (symmetry; apply Z.ltb_ge; lia).
    simpl.
    replace (0 <=? slot) with true by (symmetry; apply Z.leb_le; lia).
    reflexivity.
Qed.

(** A drain that finds a chunk to deliver raises [currentSeq]. *)
Lemma processChunks_Guppy_progress (d : iGuppy) :
  Exists (fun c => deliverable (firstSeq d) (currentSeq d) c = true) (chunks d) ->
  currentSeq d < currentSeq (fst (processChunks_Guppy_ d)).
Proof.
  intros Hex.
  unfold processChunks_Guppy_. simpl processChunks_loop.
  destruct (processChunks_pass d) as [[d' again] log] eqn:E.
  assert (Hp : currentSeq d < currentSeq d').
  { unfold processChunks_pass in E.
    destruct (processChunks_scan _ _ _ _ _ _) as [[[cs' cur'] ag] lg] eqn:Es.
    inversion E; subst. simpl.
    exact (proj1 (processChunks_scan_first _ _ _ _ _ _ _ _ _ _ Es Hex)). }
  destruct again.
  - pose proof (processChunks_loop_keeps (fun e => currentSeq d' <= currentSeq e)) as Hk.
    assert (Hstep : forall e e' ag l,
               processChunks_pass e = (e', ag, l) ->
               currentSeq d' <= currentSeq e -> currentSeq d' <= currentSeq e').
    { intros e e' ag l Hpass Hle. apply processChunks_pass_fields in Hpass.
      destruct Hpass as (_ & _ & _ & _ & _ & _ & Hm). lia. }
    specialize (Hk Hstep (drainMeasure (chunks d) (currentSeq d)) d' (Z.le_refl _)).
    destruct (processChunks_loop _ d') as [d'' log']. simpl in *.
    destruct (negb _ && _); simpl; lia.
  - simpl. destruct (negb _ && _); simpl; assumption.
Qed.

(** ** What every read leaves behind *)

Lemma Settled_same (d e : iGuppy) : sameBuffer d e -> Settled d -> Settled e.
Proof.
  intros (E1 & E2 & E3 & E4 & _) (HI & H2 & H3).
  split; [|rewrite E1, E2, E3, E4; auto].
  destruct HI as [I1 I2 I3 I4].
  constructor; rewrite ?E1, ?E2, ?E4; assumption.
Qed.

Lemma Settled_drain (d : iGuppy) :
  Settled d -> Settled (fst (processChunks_Guppy_ d)).
Proof.
  intros (HI & H2 & H3).
  pose proof (processChunks_Guppy_inv d HI) as HI'.
  pose proof (processChunks_Guppy_fields d) as HF. cbv zeta in HF.
  destruct HF as (F1 & F2 & _).
  pose proof (processChunks_Guppy_grows d) as HG. cbv zeta in HG.
  destruct HG as [_ Hmono].
  split; [exact HI'|]. split.
  - rewrite F1, F2. exact H2.
  - intros Hf Hc. rewrite F1 in Hf.
    assert (Hc0 : currentSeq d = 0).
    { destruct HI as [_ I2 _ _]. destruct I2 as [|[? ?]]; [assumption|lia]. }
    destruct (H3 Hf Hc0) as [Hre Hor].
    assert (Hnone : Forall (fun c => deliverable (firstSeq d) (currentSeq d) c = false)
                           (chunks d)).
    { destruct Hor as [Hnil|Hlf]; [rewrite Hnil; constructor|].
      eapply Forall_impl; [exact Hre|]. intros c Hr. simpl in Hr.
      apply reusable_cases in Hr. rewrite Hc0.
      destruct (deliverable (firstSeq d) 0 c) eqn:E; [|reflexivity].
      apply deliverable_true in E. lia. }
    pose proof (processChunks_nothing d Hnone) as HN. cbv zeta in HN.
    destruct HN as [(E1 & E2 & E3 & _) _].
    rewrite E1, E2, E3. split; assumption.
Qed.

(** Once the chunk that is [firstSeq] sits in a slot, the drain delivers
    it. *)
Lemma Settled_after_delivery (e : iGuppy) :
  BufferInv e -> firstSeq e <> 0 ->
  Exists (fun c => deliverable (firstSeq e) (currentSeq e) c = true) (chunks e) ->
  Settled (fst (processChunks_Guppy_ e)).
Proof.
  intros HI Hf Hex.
  pose proof (processChunks_Guppy_progress e Hex) as Hlt.
  pose proof (processChunks_Guppy_fields e) as HF. cbv zeta in HF.
  destruct HF as (F1 & _).
  split; [apply processChunks_Guppy_inv; assumption|]. split.
  - intros H0. rewrite F1 in H0. contradiction.
  - intros _ Hc. exfalso.
    destruct HI as [_ I2 _ _]. destruct I2 as [|[? ?]]; lia.
Qed.

Lemma stored_deliverable (d : iGuppy) (sq : Z) (payload : string) (j : nat) :
  (j < length (chunks d))%nat -> 0 < sq ->
  Exists (fun c => deliverable sq 0 c = true) (<[j := mkChunk sq payload]> (chunks d)).
Proof.
  intros Hj Hsq. apply Exists_exists. exists (mkChunk sq payload). split.
  - eapply list_elem_of_lookup_2. apply list_lookup_insert_eq. exact Hj.
  - apply deliverable_first; [assumption|reflexivity].
Qed.

(** The first chunk with a number below [INT_MAX], when it is not taken
    for the terminator: it is stored and delivered at once. *)
Lemma Settled_first_data (d : iGuppy) (sq : Z) (payload : string) :
  6 <= sq -> sq < INT_MAX -> Settled d -> firstSeq d = 0 ->
  (lastSeq d <> 0 \/ payload <> ""%string) ->
  Settled (fst (processChunks_Guppy_ (storeChunk_Guppy_ d sq payload))).
Proof.
  intros Hsq Hlt HS Hf0 Hnt. pose proof HS as (HI & H2 & _).
  assert (HIe : BufferInv (storeChunk_Guppy_ d sq payload))
    by (apply storeChunk_inv; [lia|assumption]).
  pose proof (noteFirstSeq_fields d sq) as HN. cbv zeta in HN.
  destruct HN as (_ & _ & _ & N4 & N5 & N6 & _ & N8 & _).
  specialize (N8 Hf0 Hlt).
  pose proof (storeChunk_fields d sq payload) as HF. cbv zeta in HF.
  destruct HF as (_ & _ & _ & F4 & F5 & _).
  pose proof HI as [_ I2 I3 _].
  assert (Hc0 : currentSeq d = 0) by (destruct I2 as [|[? ?]]; [assumption|lia]).
  assert (Hsl : Forall (fun c => seq c = 0 \/ INT_MAX <= seq c) (chunks d)).
  { eapply Forall_impl; [exact I3|]. intros c Ha. unfold ahead in Ha.
    rewrite Hf0 in Ha. simpl in Ha.
    destruct (Z.eq_dec (seq c) 0); [left; assumption|right].
    apply Ha. assumption. }
  destruct (Nat.eq_dec (length (chunks d)) 0%nat) as [Hlen|Hlen].
  - (* an array without slots keeps nothing *)
    apply nil_length_inv in Hlen.
    apply Settled_drain. split; [exact HIe|]. split.
    + intros H0. rewrite F5, N8 in H0. lia.
    + intros _ _.
      assert (He : chunks (storeChunk_Guppy_ d sq payload) = []).
      { destruct (storeChunk_cases d sq payload)
          as [(_ & _ & ->)|[->|(j & _ & _ & _ & ->)]]; simpl; rewrite N4, Hlen;
          reflexivity. }
      rewrite He. split; [constructor|left; reflexivity].
  - destruct (storeChunk_first_stored d sq payload) as (j & Hj & He).
    + symmetry. exact N8.
    + rewrite N5. exact Hnt.
    + apply outOfWindow_inside.
      * left. rewrite N6. exact Hc0.
      * right. rewrite N8. lia.
      * rewrite N5. destruct (H2 Hf0); [left; assumption|right; lia].
    + eapply Forall_impl; [exact Hsl|]. intros c Hc. simpl in Hc. lia.
    + intros Hnil. rewrite Hnil in Hlen. contradiction.
    + apply Settled_after_delivery; [exact HIe|rewrite F5, N8; lia|].
      rewrite F5, F4, N8, Hc0, He.
      change (chunks (set_chunks (<[j := mkChunk sq payload]> (chunks d))
                        (noteFirstSeq d sq)))
        with (<[j := mkChunk sq payload]> (chunks d)).
      apply stored_deliverable; [exact Hj|lia].
Qed.

Lemma Settled_store_drain (d : iGuppy) (sq : Z) (payload : string) :
  6 <= sq -> Settled d ->
  Settled (fst (processChunks_Guppy_ (storeChunk_Guppy_ d sq payload))).
Proof.
  intros Hsq HS. pose proof HS as (HI & H2 & H3).
  assert (HIe : BufferInv (storeChunk_Guppy_ d sq payload))
    by (apply storeChunk_inv; [lia|assumption]).
  pose proof (noteFirstSeq_fields d sq) as HN. cbv zeta in HN.
  destruct HN as (_ & _ & N3 & N4 & N5 & N6 & N7 & N8 & N9).
  pose proof (storeChunk_fields d sq payload) as HF. cbv zeta in HF.
  destruct HF as (_ & _ & _ & F4 & F5 & _).
  pose proof HI as [I1 I2 I3 _].
  destruct (Z.eq_dec (firstSeq d) 0) as [Hf0|Hf].
  - (* the first number is not known yet *)
    assert (Hc0 : currentSeq d = 0) by (destruct I2 as [|[? ?]]; [assumption|lia]).
    assert (Hsl : Forall (fun c => seq c = 0 \/ INT_MAX <= seq c) (chunks d)).
    { eapply Forall_impl; [exact I3|]. intros c Ha. unfold ahead in Ha.
      rewrite Hf0 in Ha. simpl in Ha.
      destruct (Z.eq_dec (seq c) 0); [left; assumption|right].
      apply Ha. assumption. }
    destruct (Z.lt_ge_cases sq INT_MAX) as [Hlt|Hge].
    + (* this chunk becomes the first *)
      specialize (N8 Hf0 Hlt).
      destruct (Z.eq_dec (lastSeq d) 0) as [Hl|Hl];
        [destruct (string_dec payload "") as [Hp|Hp]|].
      * (* taken for the terminator *)
        assert (He : storeChunk_Guppy_ d sq payload
                     = set_lastSeq sq (noteFirstSeq d sq)).
        { unfold storeChunk_Guppy_. rewrite N5, Hl, Hp. reflexivity. }
        apply Settled_drain. rewrite He in *.
        split; [exact HIe|]. simpl. split; [intros H0; lia|].
        intros _ _. rewrite N8, N4. split; [|right; reflexivity].
        eapply Forall_impl; [exact Hsl|]. intros c Hc. simpl in Hc.
        unfold reusable. destruct Hc as [->|Hc]; [reflexivity|].
        replace (sq >? 0) with true by (symmetry; apply Z.gtb_lt; lia).
        replace (seq c >? sq) with true by (symmetry; apply Z.gtb_lt; lia).
        simpl. apply orb_true_r.
      * apply (Settled_first_data d sq payload); auto.
      * apply (Settled_first_data d sq payload); auto.
    + (* [INT_MAX]: the first number stays unknown *)
      specialize (N9 Hf0 Hge).
      apply Settled_drain. split; [exact HIe|]. split.
      * intros _.
        destruct (storeChunk_cases d sq payload)
          as [(_ & _ & ->)|[->|(j & _ & _ & _ & ->)]]; simpl; rewrite ?N5; auto.
      * intros H0. rewrite F5, N9 in H0. contradiction.
  - (* the first number is known *)
    specialize (N7 Hf).
    destruct (Z.eq_dec (currentSeq d) 0) as [Hc|Hc].
    + destruct (H3 Hf Hc) as [Hre Hor].
      destruct (storeChunk_cases d sq payload)
        as [(Hl0 & _ & He)|[He|(j & _ & Hwin & _ & He)]];
        rewrite N7 in *.
      * (* terminator: only without slots *)
        apply Settled_drain. rewrite He.
        destruct Hor as [Hnil|Hlf]; [|lia].
        split; [rewrite <- He; exact HIe|]. simpl. split; [intros H0; contradiction|].
        intros _ _. rewrite Hnil. split; [constructor|left; reflexivity].
      * apply Settled_drain. rewrite He. exact HS.
      * destruct Hor as [Hnil|Hlf].
        -- apply Settled_drain. eapply Settled_same; [|exact HS].
           rewrite He, Hnil. unfold sameBuffer. simpl. auto.
        -- destruct (Nat.lt_ge_cases j (length (chunks d))) as [Hj|Hj].
           ++ apply outOfWindow_false in Hwin. destruct Hwin as (_ & W2 & W3).
              assert (Hsf : sq = firstSeq d) by lia.
              apply Settled_after_delivery; [exact HIe|rewrite F5; exact Hf|].
              rewrite F5, F4, Hc, <- Hsf, He.
              change (chunks (set_chunks (<[j := mkChunk sq payload]> (chunks d)) d))
                with (<[j := mkChunk sq payload]> (chunks d)).
              apply stored_deliverable; [assumption|lia].
           ++ apply Settled_drain. eapply Settled_same; [|exact HS].
              rewrite He, list_insert_ge by lia. unfold sameBuffer. simpl. auto.
    + apply Settled_drain. split; [exact HIe|]. split.
      * intros H0. rewrite F5, N7 in H0. contradiction.
      * intros _ H0. rewrite F4 in H0. contradiction.
Qed.

Lemma process_settled (w : World) (bytes : string) (now : Z) :
  Settled (guppy w) -> Settled (guppy (process w bytes now)).
Proof.
  intros HS.
  assert (Ht : forall e, Settled e -> Settled (set_timer 0 e)).
  { intros e He. eapply Settled_same; [|exact He]. unfold sameBuffer. simpl. auto. }
  destruct (process_unfold w bytes now) as [[->| ->]|(crlf & _ & H)]; auto.
  simpl in H.
  match type of H with context [processHeader_ w ?hd ?pl now] =>
    destruct (processHeader_cases w hd pl now) as (d0 & Hd0 & Hh);
    set (h := guppy (processHeader_ w hd pl now)) in *
  end.
  assert (Hd : Settled (fst (processChunks_Guppy_ h))).
  { destruct Hh as [->|(sq & Hge & _ & ->)].
    - apply Settled_drain. eapply Settled_same; eassumption.
    - apply Settled_store_drain; [assumption|]. eapply Settled_same; eassumption. }
  destruct H as [-> | ->]; auto.
Qed.

Lemma calls_settled (n : nat) (u : string) (l : list Call) :
  Settled (guppy (calls l (created n u))).
Proof.
  assert (H : forall l w, Settled (guppy w) -> Settled (guppy (calls l w))).
  { unfold calls. clear l. induction l as [|c l IH]; intros w HS; simpl; [assumption|].
    apply IH. destruct c as [now|now status|bytes now|]; simpl.
    - eapply Settled_same; [apply open_sameBuffer|assumption].
    - eapply Settled_same; [apply tick_sameBuffer|assumption].
    - apply process_settled. assumption.
    - eapply Settled_same; [|exact HS]. unfold sameBuffer. simpl. auto. }
  apply H. split; [apply init_BufferInv|]. simpl. split.
  - intros _. left. reflexivity.
  - intros H0. contradiction H0. reflexivity.
Qed.

(** ** A buffer without a slot to reuse *)

(** No slot of a full buffer can be reused. *)
Lemma fullOfOthers_not_reusable (d : iGuppy) (sq : Z) :
  fullOfOthers d sq ->
  Forall (fun c => reusable (firstSeq d) (lastSeq d) c = false) (chunks d).
Proof.
  intros Hfull. eapply Forall_impl; [exact Hfull|]. simpl.
  intros c (H0 & H1 & H2 & _). unfold reusable.
  destruct (Z.eqb_spec (seq c) 0); [contradiction|].
  destruct (Z.ltb_spec (seq c) (firstSeq d)); [lia|].
  rewrite andb_false_r. simpl.
  destruct (Z.gtb_spec (lastSeq d) 0); [|reflexivity].
  destruct (Z.gtb_spec (seq c) (lastSeq d)); [lia|reflexivity].
Qed.

(** With a full buffer, a chunk that is not [firstSeq] or that fails the
    window test changes no slot. *)
Lemma storeChunk_full_dropped (d : iGuppy) (sq : Z) (payload : string) :
  let d1 := noteFirstSeq d sq in
  fullOfOthers d1 sq ->
  sq <> firstSeq d1 \/ outOfWindow d1 sq = true ->
  chunks (storeChunk_Guppy_ d sq payload) = chunks d.
Proof.
  intros d1 Hfull Hor.
  pose proof (noteFirstSeq_fields d sq) as HN. cbv zeta in HN. fold d1 in HN.
  destruct HN as (_ & _ & _ & F4 & _).
  assert (Hnf : Forall (fun c => seq c <> sq) (chunks d1)).
  { eapply Forall_impl; [exact Hfull|]. simpl. tauto. }
  pose proof (fullOfOthers_not_reusable d1 sq Hfull) as Hnr.
  pose proof (storeChunk_scan_not_found (firstSeq d1) (lastSeq d1) sq (chunks d1)
                0 (-1) (-1) (-1) Hnf) as Hfound.
  pose proof (storeChunk_scan_no_slot (firstSeq d1) (lastSeq d1) sq (chunks d1)
                0 (-1) (-1) (-1) Hnr) as Hslot.
  unfold storeChunk_Guppy_. fold d1.
  destruct ((lastSeq d1 =? 0) && _); [exact F4|].
  destruct (outOfWindow d1 sq) eqn:Hw; [exact F4|].
  destruct Hor as [Hne|Habs]; [|discriminate].
  destruct (storeChunk_scan _ _ _ _ _ _ _ _) as [[found slot] ms].
  simpl in Hfound, Hslot. subst found slot.
  assert (E1 : ((sq =? firstSeq d1) && (-1 <? 0)) = false)
    by (destruct (Z.eqb_spec sq (firstSeq d1)); [contradiction|reflexivity]).
  rewrite E1. exact F4.
Qed.

(** C7 (as amended).  [firstSeq] is read after lines 111-113 have set it.
    With every slot occupied by a chunk of the window other than [sq]: a
    chunk that is [firstSeq], passes the window test and is not taken for
    the terminator replaces a slot holding the highest buffered number;
    a chunk that is not [firstSeq], or that fails the window test, changes
    no slot.  In a session reached from [init_Guppy] whose [firstSeq] is
    known before the call, admission into such a full buffer never changes
    a slot, whatever the number of the chunk. *)
Theorem storeChunk_full_buffer (sq : Z) (payload : string) :
  (forall d : iGuppy,
      let d1 := noteFirstSeq d sq in
      chunks d <> [] ->
      0 < firstSeq d1 ->
      fullOfOthers d1 sq ->
      (sq = firstSeq d1 ->
       outOfWindow d1 sq = false ->
       (lastSeq d = 0 -> payload <> ""%string) ->
       exists j cmax,
         chunks d !! j = Some cmax
         /\ Forall (fun c => seq c <= seq cmax) (chunks d)
         /\ chunks (storeChunk_Guppy_ d sq payload)
            = <[j := mkChunk sq payload]> (chunks d)
         /\ chunks (storeChunk_Guppy_ d sq payload) !! j
            = Some (mkChunk sq payload))
      /\ (sq <> firstSeq d1 \/ outOfWindow d1 sq = true ->
          chunks (storeChunk_Guppy_ d sq payload) = chunks d))
  /\ (forall (n : nat) (u : string) (l : list Call),
         let r := guppy (calls l (created n u)) in
         firstSeq r <> 0 ->
         fullOfOthers r sq ->
         chunks (storeChunk_Guppy_ r sq payload) = chunks r).
Proof.
  split.
  - intros d d1 Hne Hfs Hfull.
    split; [|apply storeChunk_full_dropped; exact Hfull].
    intros Hsq Hwin Hpay.
    pose proof (noteFirstSeq_fields d sq) as HN. cbv zeta in HN. fold d1 in HN.
    destruct HN as (_ & _ & _ & F4 & F5 & _).
    assert (Hnf : Forall (fun c => seq c <> sq) (chunks d1)).
    { eapply Forall_impl; [exact Hfull|]. simpl. tauto. }
    pose proof (fullOfOthers_not_reusable d1 sq Hfull) as Hnr.
    pose proof (storeChunk_scan_not_found (firstSeq d1) (lastSeq d1) sq (chunks d1)
                  0 (-1) (-1) (-1) Hnf) as Hfound.
    pose proof (storeChunk_scan_no_slot (firstSeq d1) (lastSeq d1) sq (chunks d1)
                  0 (-1) (-1) (-1) Hnr) as Hslot.
    pose proof (storeChunk_scan_max (firstSeq d1) (lastSeq d1) sq (chunks d1)
                  0 (-1) (-1) (-1) Hnf) as Hmax.
    assert (Hterm : ((lastSeq d1 =? 0) && (String.length payload =? 0)%nat) = false).
    { rewrite F5. destruct (Z.eqb_spec (lastSeq d) 0) as [Hl|]; [|reflexivity].
      specialize (Hpay Hl). destruct payload; [contradiction|reflexivity]. }
    unfold storeChunk_Guppy_. fold d1. rewrite Hterm, Hwin.
    destruct (storeChunk_scan _ _ _ _ _ _ _ _) as [[found slot] ms].
    simpl in Hfound, Hslot, Hmax. subst found slot.
    unfold fullOfOthers in Hfull. rewrite F4 in *.
    destruct Hmax as [[_ Hle]|(j & c & Hj & Hr & Hlt & Hle)].
    + exfalso. destruct (chunks d) as [|c0 cs]; [contradiction|].
      inversion Hle as [|? ? Hle1 _]. inversion Hfull as [|? ? (_ & Hf1 & _) _]. lia.
    + exists j, c. rewrite Hr.
      replace (sq =? firstSeq d1) with true by (symmetry; apply Z.eqb_eq; exact Hsq).
      assert (E2 : (0 <=? Z.of_nat (0 + j)) = true) by (apply Z.leb_le; lia).
      simpl. simpl in E2. rewrite E2. simpl. rewrite Nat2Z.id.
      repeat split; try assumption.
      apply list_lookup_insert_eq. eapply lookup_lt_Some; eassumption.
  - intros n u l r Hf Hfull.
    destruct (calls_settled n u l) as (HI & _ & H3). fold r in HI, H3.
    pose proof (noteFirstSeq_fields r sq) as HN. cbv zeta in HN.
    destruct HN as (_ & _ & _ & _ & _ & _ & N7 & _). specialize (N7 Hf).
    destruct (Z.eq_dec sq (firstSeq r)) as [Hsq|Hsq];
      [|apply storeChunk_full_dropped; rewrite N7; [exact Hfull|left; exact Hsq]].
    destruct (outOfWindow r sq) eqn:Hw;
      [apply storeChunk_full_dropped; rewrite N7; [exact Hfull|right; exact Hw]|].
    (* the chunk that is [firstSeq] passes the window test only while
       nothing was delivered, and then no slot is occupied *)
    apply outOfWindow_false in Hw. destruct Hw as (W1 & _).
    assert (Hc : currentSeq r = 0).
    { destruct HI as [_ I2 _ _]. destruct I2 as [|[? ?]]; [assumption|lia]. }
    destruct (H3 Hf Hc) as [Hre _].
    pose proof (fullOfOthers_not_reusable r sq Hfull) as Hnr.
    assert (Hnil : chunks r = []).
    { destruct (chunks r) as [|c0 cs]; [reflexivity|].
      inversion Hre as [|? ? A _]. inversion Hnr as [|? ? B _]. congruence. }
    destruct (storeChunk_cases r sq payload)
      as [(_ & _ & ->)|[->|(j & _ & _ & _ & ->)]]; rewrite N7; simpl;
      rewrite ?Hnil; reflexivity.
Qed.

Lemma storeChunk_full_buffer_witness :
  let d := guppy (process (opened 1 "guppy://host/" 0)
                          ("2147483647" ++ CRLF ++ "ZZ") 10) in
  let r := guppy (calls [OpenCall 0;
                         ReadCall ("6 ok" ++ CRLF ++ "AB") 10;
                         ReadCall ("8" ++ CRLF ++ "EF") 20;
                         ReadCall ("9" ++ CRLF ++ "GH") 30]
                        (created 2 "guppy://host/")) in
  chunks d = [mkChunk INT_MAX "ZZ"]
  /\ chunks (storeChunk_Guppy_ d 6 "AB") = [mkChunk 6 "AB"]
  /\ chunks r = [mkChunk 8 "EF"; mkChunk 9 "GH"]
  /\ chunks (storeChunk_Guppy_ r 7 "CD") = chunks r.
Proof.
  intros d r.
  split; [vm_compute; reflexivity|]. split; [|split; [vm_compute; reflexivity|]].
  - destruct (proj1 (storeChunk_full_buffer 6 "AB") d) as [H _].
    + vm_compute. discriminate.
    + vm_compute. reflexivity.
    + vm_compute. repeat constructor; discriminate.
    + destruct H as (j & cmax & Hj & _ & He & _).
      * vm_compute. reflexivity.
      * vm_compute. reflexivity.
      * intros _. discriminate.
      * rewrite He. destruct j as [|j]; [reflexivity|].
        vm_compute in Hj. discriminate Hj.
  - apply (proj2 (storeChunk_full_buffer 7 "CD") 2%nat "guppy://host/"%string).
    + vm_compute. discriminate.
    + vm_compute. repeat constructor; discriminate.
Defined.

(** C7, counterexample.  Two slots; chunk 6 was delivered, chunks 8 and 9
    fill the buffer, so every slot holds a chunk of the window.  Chunk 6,
    which is [firstSeq], evicts nothing and is not stored; chunk 7, the one
    the session waits for, is acknowledged and dropped: buffer, body and
    [currentSeq] stay as they were. *)
Lemma full_buffer_drops_awaited_chunk :
  let w := processAll [(("6 ok" ++ CRLF ++ "AB")%string, 10);
                       (("8" ++ CRLF ++ "EF")%string, 20);
                       (("9" ++ CRLF ++ "GH")%string, 30)]
                      (opened 2 "guppy://host/" 0) in
  let w' := process w ("7" ++ CRLF ++ "CD") 40 in
  (fullOfOthers (guppy w) 6 /\ fullOfOthers (guppy w) 7)
  /\ firstSeq (guppy w) = 6 /\ currentSeq (guppy w) = 6 /\ lastSeq (guppy w) = 0
  /\ chunks (guppy w) = [mkChunk 8 "EF"; mkChunk 9 "GH"]
  /\ chunks (storeChunk_Guppy_ (guppy w) 6 "AB") = chunks (guppy w)
  /\ trace w' = trace w ++ [Written ("7" ++ CRLF)%string]
  /\ chunks (guppy w') = chunks (guppy w)
  /\ body (guppy w') = "AB"%string
  /\ currentSeq (guppy w') = 6.
Proof.
  split; [|vm_compute; repeat split; reflexivity].
  split; vm_compute; repeat constructor; discriminate.
Qed.

(** * A first chunk without payload *)

(** ** One read, case by case *)

(** A header read by a session that knows its first number. *)
Lemma processHeader_known (w : World) (header payload : string) (now : Z) :
  firstSeq (guppy w) <> 0 ->
  guppy (processHeader_ w header payload now)
  = match matchString_RegExp header with
    | Some (c1, _) =>
        if 6 <=? toInt_String c1 then
          if isInProgress (state (guppy w))
          then storeChunk_Guppy_ (set_lastSent now (guppy w)) (toInt_String c1) payload
          else set_lastSent now (guppy w)
        else guppy w
    | None => set_state invalidResponse_GuppyState (guppy w)
    end.
Proof.
  intros Hf. unfold processHeader_.
  destruct (matchString_RegExp header) as [[c1 c2]|]; [|reflexivity].
  replace (firstSeq (guppy w) =? 0) with false by (symmetry; apply Z.eqb_neq; lia).
  destruct (6 <=? toInt_String c1); [|reflexivity].
  simpl. destruct (isInProgress (state (guppy w))); reflexivity.
Qed.

Lemma cancelUnlessInProgress_guppy (w : World) :
  guppy (cancelUnlessInProgress w) = guppy w
  \/ guppy (cancelUnlessInProgress w) = set_timer 0 (guppy w).
Proof.
  unfold cancelUnlessInProgress. destruct (isInProgress _); simpl; auto.
Qed.

(** A read cannot finish a session whose [currentSeq] ends up away from
    the number before the terminator. *)
Lemma process_not_finished (w : World) (bytes : string) (now : Z) :
  state (guppy w) <> finished_GuppyState ->
  (lastSeq (guppy (process w bytes now)) = 0
   \/ currentSeq (guppy (process w bytes now))
      <> lastSeq (guppy (process w bytes now)) - 1) ->
  state (guppy (process w bytes now)) <> finished_GuppyState.
Proof.
  intros Hs.
  destruct (process_unfold w bytes now) as [[->| ->]|(crlf & _ & H)];
    [intros _; exact Hs|intros _; exact Hs|].
  simpl in H.
  match type of H with context [processHeader_ w ?hd ?pl now] =>
    pose proof (processHeader_not_finished w hd pl now Hs) as Hh;
    set (h := guppy (processHeader_ w hd pl now)) in *
  end.
  pose proof (processChunks_Guppy_fields h) as HF. cbv zeta in HF.
  destruct HF as (_ & F2 & _ & F4).
  destruct H as [-> | ->]; simpl; intros Hor;
    (destruct F4 as [E|(_ & E1 & E2)]; [rewrite E; exact Hh|exfalso; lia]).
Qed.

(** ** The buffer of a stalled session *)

Lemma StalledIdle_same (s : Z) (b0 : string) (d e : iGuppy) :
  sameBuffer d e -> state e <> finished_GuppyState ->
  StalledIdle s b0 d -> StalledIdle s b0 e.
Proof.
  intros (E1 & E2 & E3 & E4 & E5) Hs (S1 & S2 & S3 & S4 & S5 & _).
  unfold StalledIdle. rewrite E1, E2, E3, E4, E5. auto 10.
Qed.

Lemma StalledDone_same (s : Z) (b : string) (d e : iGuppy) :
  sameBuffer d e -> state e <> finished_GuppyState ->
  StalledDone s b d -> StalledDone s b e.
Proof.
  intros (E1 & E2 & E3 & E4 & E5) Hs (S1 & S2 & S3 & S4 & S5 & _).
  unfold StalledDone. rewrite E1, E2, E3, E4, E5. auto 10.
Qed.

(** With the window a single number, every other number is outside it. *)
Lemma storeChunk_single_window (d : iGuppy) (s sq : Z) (payload : string) :
  0 < s -> firstSeq d = s -> lastSeq d = s -> sq <> s ->
  storeChunk_Guppy_ d sq payload = d.
Proof.
  intros Hs S1 S2 Hne.
  destruct (noteFirstSeq_fields d sq) as (_ & _ & _ & _ & _ & _ & F7 & _).
  assert (Hd : noteFirstSeq d sq = d) by (apply F7; lia).
  unfold storeChunk_Guppy_. rewrite Hd.
  replace (lastSeq d =? 0) with false by (symmetry; apply Z.eqb_neq; lia).
  simpl. rewrite outOfWindow_true; [reflexivity|].
  destruct (Z.lt_ge_cases sq s); [right; left; lia|right; right; lia].
Qed.

(** Once the single number of the window was delivered, every number is
    outside the window. *)
Lemma storeChunk_window_closed (d : iGuppy) (s sq : Z) (payload : string) :
  0 < s -> firstSeq d = s -> lastSeq d = s -> currentSeq d = s ->
  storeChunk_Guppy_ d sq payload = d.
Proof.
  intros Hs S1 S2 S3.
  destruct (Z.eq_dec sq s) as [->|Hne];
    [|apply (storeChunk_single_window d s); assumption].
  destruct (noteFirstSeq_fields d s) as (_ & _ & _ & _ & _ & _ & F7 & _).
  assert (Hd : noteFirstSeq d s = d) by (apply F7; lia).
  unfold storeChunk_Guppy_. rewrite Hd.
  replace (lastSeq d =? 0) with false by (symmetry; apply Z.eqb_neq; lia).
  simpl. rewrite outOfWindow_true; [reflexivity|]. left. lia.
Qed.

(** An array without slots keeps nothing. *)
Lemma storeChunk_no_slot (d : iGuppy) (sq : Z) (payload : string) :
  firstSeq d <> 0 -> lastSeq d <> 0 -> chunks d = [] ->
  storeChunk_Guppy_ d sq payload = d.
Proof.
  intros Hf Hl Hnil.
  destruct (noteFirstSeq_fields d sq) as (_ & _ & _ & _ & _ & _ & F7 & _).
  assert (Hd : noteFirstSeq d sq = d) by (apply F7; assumption).
  unfold storeChunk_Guppy_. rewrite Hd, Hnil.
  replace (lastSeq d =? 0) with false by (symmetry; apply Z.eqb_neq; lia).
  simpl. destruct (outOfWindow d sq); [reflexivity|].
  rewrite andb_true_r. destruct (sq =? firstSeq d); reflexivity.
Qed.

(** With every slot free, the chunk goes into slot 0. *)
Lemma storeChunk_idle_same (s : Z) (b0 : string) (d : iGuppy) (payload : string)
      (c0 : iGuppyChunk) (rest : list iGuppyChunk) :
  0 < s -> StalledIdle s b0 d -> chunks d = c0 :: rest ->
  storeChunk_Guppy_ d s payload = set_chunks (mkChunk s payload :: rest) d.
Proof.
  intros Hs (S1 & S2 & S3 & S4 & S5 & S6) Hcs.
  destruct (noteFirstSeq_fields d s) as (_ & _ & _ & _ & _ & _ & F7 & _).
  assert (Hd : noteFirstSeq d s = d) by (apply F7; lia).
  rewrite Hcs in S5. inversion S5 as [|? ? Hc0 Hrest]; subst.
  assert (Hfs : fst (storeChunk_scan (firstSeq d) (lastSeq d) (firstSeq d)
                       (c0 :: rest) 0 (-1) (-1) (-1)) = (false, 0)).
  { refine (storeChunk_scan_first_free (firstSeq d) (lastSeq d) (firstSeq d) []
              0 (-1) (-1) c0 rest _ _ _ _).
    - constructor.
    - unfold reusable. rewrite Hc0. reflexivity.
    - lia.
    - eapply Forall_impl; [exact Hrest|]. simpl. intros. lia. }
  unfold storeChunk_Guppy_. rewrite Hd, Hcs.
  replace (lastSeq d =? 0) with false by (symmetry; apply Z.eqb_neq; lia).
  cbn [andb]. rewrite outOfWindow_inside by lia.
  destruct (storeChunk_scan _ _ _ _ _ _ _ _) as [[found slot] ms].
  simpl in Hfs.
  inversion Hfs; subst. rewrite andb_false_r. reflexivity.
Qed.

(** The drain of a buffer whose first slot holds the awaited chunk and
    whose other slots are free. *)
Lemma processChunks_first_slot (d : iGuppy) (c : iGuppyChunk)
      (rest : list iGuppyChunk) :
  chunks d = c :: rest ->
  deliverable (firstSeq d) (currentSeq d) c = true ->
  Forall (fun x => seq x = 0) rest ->
  0 < seq c ->
  exists d',
    processChunks_Guppy_ d
    = (if negb (lastSeq d' =? 0) && (currentSeq d' =? lastSeq d' - 1)
       then set_state finished_GuppyState d' else d', [c])
    /\ chunks d' = emptyChunk :: rest
    /\ currentSeq d' = seq c
    /\ body d' = (body d ++ data c)%string
    /\ firstSeq d' = firstSeq d /\ lastSeq d' = lastSeq d /\ state d' = state d.
Proof.
  intros Hcs Hdel Hrest Hpos.
  assert (Hfree : forall x, seq x = 0 -> deliverable (firstSeq d) (seq c) x = false).
  { intros x Hx. destruct (deliverable (firstSeq d) (seq c) x) eqn:E; [|reflexivity].
    apply deliverable_true in E. lia. }
  assert (Hnone : Forall (fun x => deliverable (firstSeq d) (seq c) x = false) rest).
  { eapply Forall_impl; [exact Hrest|]. intros x Hx. apply Hfree. exact Hx. }
  set (d1 := set_body (body d ++ payloads [c])%string
               (set_currentSeq (seq c) (set_chunks (emptyChunk :: rest) d))).
  assert (Hp1 : processChunks_pass d
                = (d1, (0 <? length (c :: rest) - 1)%nat, [c])).
  { unfold processChunks_pass. rewrite Hcs. cbn [processChunks_scan].
    rewrite Hdel, processChunks_scan_none by exact Hnone. reflexivity. }
  set (d2 := set_body (body d1 ++ payloads [])%string
               (set_currentSeq (seq c) (set_chunks (emptyChunk :: rest) d1))).
  assert (Hp2 : processChunks_pass d1 = (d2, false, [])).
  { unfold processChunks_pass.
    change (chunks d1) with (emptyChunk :: rest).
    change (firstSeq d1) with (firstSeq d).
    change (currentSeq d1) with (seq c).
    rewrite processChunks_scan_none;
      [reflexivity|constructor; [apply Hfree; reflexivity|exact Hnone]]. }
  destruct (0 <? length (c :: rest) - 1)%nat.
  - exists d2. split.
    + apply (processChunks_Guppy_doWhile d _ ([c] ++ [])).
      eapply doWhile_again; [exact Hp1|]. apply doWhile_stop. exact Hp2.
    + simpl. rewrite !string_app_nil_r. auto 10.
  - exists d1. split.
    + apply (processChunks_Guppy_doWhile d _ [c]).
      apply doWhile_stop. exact Hp1.
    + simpl. rewrite !string_app_nil_r. auto 10.
Qed.

(** A drain of free slots does nothing. *)
Lemma processChunks_free (d : iGuppy) :
  Forall (fun c => seq c = 0) (chunks d) ->
  0 < firstSeq d -> 0 <= currentSeq d ->
  sameBuffer d (fst (processChunks_Guppy_ d)).
Proof.
  intros Hall Hf Hc.
  apply processChunks_nothing.
  eapply Forall_impl; [exact Hall|]. intros c H0. simpl in H0.
  destruct (deliverable (firstSeq d) (currentSeq d) c) eqn:E; [|reflexivity].
  apply deliverable_true in E. lia.
Qed.

Lemma processChunks_idle (s : Z) (b0 : string) (d : iGuppy) :
  1 < s -> StalledIdle s b0 d -> StalledIdle s b0 (fst (processChunks_Guppy_ d)).
Proof.
  intros Hs HS. pose proof HS as (S1 & S2 & S3 & S4 & S5 & S6).
  assert (Hsame : sameBuffer d (fst (processChunks_Guppy_ d)))
    by (apply processChunks_free; [assumption|lia|lia]).
  eapply StalledIdle_same; [exact Hsame| |exact HS].
  pose proof (processChunks_Guppy_fields d) as HF. cbv zeta in HF.
  destruct HF as (_ & _ & _ & [E|(_ & _ & E)]); [rewrite E; exact S6|].
  destruct Hsame as (_ & _ & _ & E4 & _). lia.
Qed.

Lemma processChunks_done (s : Z) (b : string) (d : iGuppy) :
  0 < s -> StalledDone s b d -> StalledDone s b (fst (processChunks_Guppy_ d)).
Proof.
  intros Hs HS. pose proof HS as (S1 & S2 & S3 & S4 & S5 & S6).
  assert (Hsame : sameBuffer d (fst (processChunks_Guppy_ d)))
    by (apply processChunks_free; [assumption|lia|lia]).
  eapply StalledDone_same; [exact Hsame| |exact HS].
  pose proof (processChunks_Guppy_fields d) as HF. cbv zeta in HF.
  destruct HF as (_ & _ & _ & [E|(_ & _ & E)]); [rewrite E; exact S6|].
  destruct Hsame as (_ & _ & _ & E4 & _). lia.
Qed.

(** The chunk with the number of the window is stored and delivered by the
    drain that follows. *)
Lemma processChunks_after_store (s : Z) (b0 : string) (d : iGuppy)
      (payload : string) :
  1 < s -> StalledIdle s b0 d -> chunks d <> [] ->
  StalledDone s (b0 ++ payload)
    (fst (processChunks_Guppy_ (storeChunk_Guppy_ d s payload))).
Proof.
  intros Hs HS Hne. pose proof HS as (S1 & S2 & S3 & S4 & S5 & S6).
  destruct (chunks d) as [|c0 rest] eqn:Hcs; [contradiction|].
  rewrite (storeChunk_idle_same s b0 d payload c0 rest) by (assumption || lia).
  inversion S5 as [|? ? _ Hrest]; subst.
  destruct (processChunks_first_slot
              (set_chunks (mkChunk (firstSeq d) payload :: rest) d)
              (mkChunk (firstSeq d) payload) rest)
    as (d' & He & D1 & D2 & D3 & D4 & D5 & D6).
  - reflexivity.
  - simpl. rewrite S3. apply deliverable_first; [lia|reflexivity].
  - exact Hrest.
  - simpl. lia.
  - rewrite He. simpl in D2, D3, D4, D5, D6.
    assert (Hq : (currentSeq d' =? lastSeq d' - 1) = false)
      by (apply Z.eqb_neq; lia).
    rewrite Hq, andb_false_r. simpl.
    unfold StalledDone. rewrite D1, D2, D3, D4, D5, D6.
    repeat split; try assumption; try reflexivity.
    constructor; [reflexivity|exact Hrest].
Qed.

(** ** Reads of a stalled session *)

Lemma cancel_idle (s : Z) (b0 : string) (w : World) :
  StalledIdle s b0 (guppy w) -> StalledIdle s b0 (guppy (cancelUnlessInProgress w)).
Proof.
  intros HS. pose proof HS as (_ & _ & _ & _ & _ & S6).
  destruct (cancelUnlessInProgress_guppy w) as [-> | ->]; [assumption|].
  eapply StalledIdle_same; [|exact S6|exact HS]. unfold sameBuffer. simpl. auto.
Qed.

Lemma cancel_done (s : Z) (b : string) (w : World) :
  StalledDone s b (guppy w) -> StalledDone s b (guppy (cancelUnlessInProgress w)).
Proof.
  intros HS. pose proof HS as (_ & _ & _ & _ & _ & S6).
  destruct (cancelUnlessInProgress_guppy w) as [-> | ->]; [assumption|].
  eapply StalledDone_same; [|exact S6|exact HS]. unfold sameBuffer. simpl. auto.
Qed.

(** A read of a session that has delivered nothing: it stays as it is,
    unless the read hands the chunk with the number of the window to the
    admission of a session in progress. *)
Lemma process_idle (s : Z) (b0 : string) (w : World) (bytes : string) (now : Z) :
  6 <= s -> StalledIdle s b0 (guppy w) ->
  let w' := process w bytes now in
  (StalledIdle s b0 (guppy w')
   \/ exists p, chunkOfRead bytes = Some (s, p)
                /\ state (guppy w) = inProgress_GuppyState
                /\ StalledDone s (b0 ++ p) (guppy w'))
  /\ (forall p, chunkOfRead bytes = Some (s, p) ->
                state (guppy w) = inProgress_GuppyState ->
                chunks (guppy w) <> [] ->
                StalledDone s (b0 ++ p) (guppy w')).
Proof.
  intros Hs HS w'. subst w'. pose proof HS as (S1 & S2 & S3 & S4 & S5 & S6).
  assert (Hkeep : forall e tr tm,
             sameBuffer (guppy w) e -> state e <> finished_GuppyState ->
             StalledIdle s b0
               (guppy (cancelUnlessInProgress
                         (mkWorld (fst (processChunks_Guppy_ e)) tr tm)))).
  { intros e tr tm He Hst. apply cancel_idle. simpl.
    apply processChunks_idle; [lia|]. eapply StalledIdle_same; eassumption. }
  unfold chunkOfRead.
  destruct (indexOfCStr_String bytes CRLF) as [crlf|] eqn:Hidx.
  2: { split; [left|intros p Hp; discriminate].
       destruct (process_unfold w bytes now) as [[->| ->]|(crlf & Hc & _)].
       - assumption.
       - eapply StalledIdle_same; [|exact S6|exact HS]. unfold sameBuffer. simpl. auto.
       - rewrite Hidx in Hc. discriminate. }
  rewrite (process_with_header w bytes now crlf Hidx). cbv zeta.
  rewrite processHeader_known by lia.
  set (header := String.substring 0 crlf bytes).
  set (payload := String.substring (crlf + 2) (String.length bytes - crlf - 2) bytes).
  destruct (matchString_RegExp header) as [[c1 c2]|].
  2: { split; [left|intros p Hp; discriminate].
       apply Hkeep; [unfold sameBuffer; simpl; auto|simpl; discriminate]. }
  destruct (6 <=? toInt_String c1).
  2: { split; [left|intros p Hp; discriminate].
       apply Hkeep; [apply sameBuffer_refl|assumption]. }
  destruct (isInProgress (state (guppy w))) eqn:Hin.
  2: { split; [left|].
       - apply Hkeep; [unfold sameBuffer; simpl; auto|simpl; assumption].
       - intros p _ Hst. rewrite Hst in Hin. discriminate. }
  assert (Hst : state (guppy w) = inProgress_GuppyState)
    by (destruct (state (guppy w)); try discriminate; reflexivity).
  assert (HS' : StalledIdle s b0 (set_lastSent now (guppy w))).
  { eapply StalledIdle_same; [|simpl; exact S6|exact HS].
    unfold sameBuffer. simpl. auto. }
  destruct (Z.eq_dec (toInt_String c1) s) as [Heq|Hne].
  - rewrite Heq.
    destruct (chunks (guppy w)) as [|c0 rest] eqn:Hcs.
    + rewrite storeChunk_no_slot by (simpl; (lia || assumption)).
      split; [left|intros p _ _ Hn; contradiction].
      apply Hkeep; [unfold sameBuffer; simpl; auto|simpl; assumption].
    + assert (HD : StalledDone s (b0 ++ payload)
                     (guppy (cancelUnlessInProgress
                               (mkWorld
                                  (fst (processChunks_Guppy_
                                          (storeChunk_Guppy_
                                             (set_lastSent now (guppy w)) s payload)))
                                  (trace (processHeader_ w header payload now))
                                  (sdlTimer (processHeader_ w header payload now)))))).
      { apply cancel_done. simpl.
        apply processChunks_after_store; [lia|exact HS'|].
        simpl. rewrite Hcs. discriminate. }
      split.
      * right. exists payload. split; [reflexivity|]. split; [exact Hst|exact HD].
      * intros p Hp _ _. inversion Hp; subst. exact HD.
  - rewrite (storeChunk_single_window _ s) by (simpl; (lia || assumption)).
    split; [left|intros p Hp; inversion Hp; contradiction].
    apply Hkeep; [unfold sameBuffer; simpl; auto|simpl; assumption].
Qed.

(** After the delivery no read changes the buffer or the body. *)
Lemma process_done (s : Z) (b : string) (w : World) (bytes : string) (now : Z) :
  6 <= s -> StalledDone s b (guppy w) ->
  StalledDone s b (guppy (process w bytes now)).
Proof.
  intros Hs HS. pose proof HS as (S1 & S2 & S3 & S4 & S5 & S6).
  assert (Hsame : sameBuffer (guppy w) (guppy (process w bytes now))).
  { apply (process_keeps (fun e => sameBuffer (guppy w) e)).
    - intros d e Hde Hd. eapply sameBuffer_trans; eassumption.
    - intros d sq payload _ (E1 & E2 & E3 & E4 & E5).
      rewrite (storeChunk_window_closed d s) by lia.
      unfold sameBuffer. auto.
    - intros d (E1 & E2 & E3 & E4 & E5).
      eapply sameBuffer_trans; [unfold sameBuffer; eauto 10|].
      apply processChunks_free; [rewrite E1; assumption|lia|lia].
    - apply sameBuffer_refl. }
  eapply StalledDone_same; [exact Hsame| |exact HS].
  apply process_not_finished; [exact S6|].
  destruct Hsame as (_ & _ & E3 & E4 & _). right. lia.
Qed.

Lemma processAll_done (s : Z) (b : string) (reads : list (string * Z)) :
  forall w, 6 <= s -> StalledDone s b (guppy w) ->
            StalledDone s b (guppy (processAll reads w)).
Proof.
  unfold processAll.
  induction reads as [|[bytes now] reads IH]; intros w Hs HS; simpl; [assumption|].
  apply IH; [assumption|]. apply process_done; assumption.
Qed.

Lemma processAll_idle (s : Z) (b0 : string) (reads : list (string * Z)) :
  forall w, 6 <= s -> StalledIdle s b0 (guppy w) ->
            StalledIdle s b0 (guppy (processAll reads w))
            \/ exists p, StalledDone s (b0 ++ p) (guppy (processAll reads w)).
Proof.
  induction reads as [|[bytes now] reads IH]; intros w Hs HS; [left; exact HS|].
  change (processAll ((bytes, now) :: reads) w)
    with (processAll reads (process w bytes now)).
  pose proof (process_idle s b0 w bytes now Hs HS) as HP. cbv zeta in HP.
  destruct HP as [[HI|(p & _ & _ & HD)] _].
  - apply IH; assumption.
  - right. exists p. apply processAll_done; assumption.
Qed.

(** C10 (as amended): when the first chunk handed to admission has an
    empty payload and a number [sq] from 6 up and below [INT_MAX],
    [firstSeq] and [lastSeq] both become [sq] and nothing is stored.  From
    then on, whatever is read, the window stays that single number and the
    state never becomes finished; every admission with another number
    changes nothing.  The body stays as it was until a read hands a chunk
    numbered [sq] to the admission of the session in progress: with at
    least one slot that chunk is stored and delivered by the same read,
    which appends its payload and sets [currentSeq] to [sq].  After that
    every admission changes nothing, also of a chunk numbered [sq], and no
    read changes the body. *)
Theorem empty_first_chunk_stalls (d : iGuppy) (sq : Z) :
  6 <= sq < INT_MAX ->
  firstSeq d = 0 -> lastSeq d = 0 -> currentSeq d = 0 ->
  Forall (fun c => seq c = 0) (chunks d) ->
  state d = inProgress_GuppyState ->
  let d1 := storeChunk_Guppy_ d sq "" in
  let b0 := body d in
  (firstSeq d1 = sq /\ lastSeq d1 = sq /\ chunks d1 = chunks d /\ body d1 = b0
   /\ StalledIdle sq b0 d1)
  /\ (forall w, StalledIdle sq b0 (guppy w) ->
        (forall sq' payload,
            sq' <> sq -> storeChunk_Guppy_ (guppy w) sq' payload = guppy w)
        /\ (forall bytes now,
               let w' := process w bytes now in
               (StalledIdle sq b0 (guppy w')
                \/ exists p, chunkOfRead bytes = Some (sq, p)
                             /\ state (guppy w) = inProgress_GuppyState
                             /\ StalledDone sq (b0 ++ p) (guppy w'))
               /\ (forall p, chunkOfRead bytes = Some (sq, p) ->
                             state (guppy w) = inProgress_GuppyState ->
                             chunks (guppy w) <> [] ->
                             StalledDone sq (b0 ++ p) (guppy w')))
        /\ (forall reads,
               let w' := processAll reads w in
               StalledIdle sq b0 (guppy w')
               \/ exists p, StalledDone sq (b0 ++ p) (guppy w')))
  /\ (forall w b, StalledDone sq b (guppy w) ->
        (forall sq' payload, storeChunk_Guppy_ (guppy w) sq' payload = guppy w)
        /\ (forall reads, StalledDone sq b (guppy (processAll reads w)))).
Proof.
  intros [Hlo Hhi] Hf Hl Hc Hfree Hst d1 b0.
  assert (Hd1 : d1 = set_lastSeq sq (set_firstSeq sq d)).
  { subst d1. unfold storeChunk_Guppy_, noteFirstSeq. rewrite Hf. simpl.
    replace (sq <? INT_MAX) with true by (symmetry; apply Z.ltb_lt; lia).
    simpl. rewrite Hl. reflexivity. }
  split; [|split].
  - rewrite Hd1. unfold StalledIdle. simpl. rewrite Hc, Hst.
    repeat split; try reflexivity; try assumption. discriminate.
  - intros w HS. split; [|split].
    + intros sq' payload Hne. destruct HS as (S1 & S2 & _).
      apply (storeChunk_single_window _ sq); (lia || assumption).
    + intros bytes now. apply process_idle; assumption.
    + intros reads. apply processAll_idle; assumption.
  - intros w b HS. split.
    + intros sq' payload. destruct HS as (S1 & S2 & S3 & _).
      apply (storeChunk_window_closed _ sq); (lia || assumption).
    + intros reads. apply processAll_done; assumption.
Qed.

Lemma empty_first_chunk_stalls_witness :
  let d := guppy (opened 8 "guppy://host/" 0) in
  let d1 := storeChunk_Guppy_ d 6 "" in
  let w2 := process (mkWorld d1 [] true) ("6" ++ CRLF) 20 in
  let w3 := processAll [(("6" ++ CRLF ++ "AB")%string, 30);
                        (("7" ++ CRLF ++ "XY")%string, 40)] w2 in
  firstSeq d1 = 6 /\ lastSeq d1 = 6
  /\ StalledDone 6 "" (guppy w2) /\ StalledDone 6 "" (guppy w3).
Proof.
  intros d d1 w2 w3.
  destruct (empty_first_chunk_stalls d 6)
    as ((H1 & H2 & _ & _ & H5) & HI & HD);
    [vm_compute; split; [discriminate|reflexivity]
    |reflexivity|reflexivity|reflexivity
    |repeat constructor|reflexivity|].
  split; [exact H1|]. split; [exact H2|].
  destruct (HI (mkWorld d1 [] true) H5) as (_ & HP & _).
  destruct (HP ("6" ++ CRLF)%string 20) as [_ HQ].
  assert (H2' : StalledDone 6 "" (guppy w2)).
  { apply (HQ ""%string); [reflexivity|reflexivity|vm_compute; discriminate]. }
  split; [exact H2'|].
  destruct (HD w2 ""%string H2') as [_ HR]. apply HR.
Defined.

(** C10, counterexample.  After a first chunk 6 without payload, a chunk
    with the same number 6 and payload AB is delivered, so the body does
    not stay empty.  After a first chunk [INT_MAX] without payload,
    [firstSeq] is still unknown; chunks 2147483645 and 2147483646 are then
    accepted and delivered, and the session finishes. *)
Lemma empty_first_chunk_not_stuck :
  let w := processAll [(("6 hello" ++ CRLF)%string, 10);
                       (("6" ++ CRLF ++ "AB")%string, 20)]
                      (opened 8 "guppy://host/" 0) in
  let v1 := process (opened 8 "guppy://host/" 0) ("2147483647" ++ CRLF) 10 in
  let v := processAll [(("2147483645" ++ CRLF ++ "AB")%string, 20);
                       (("2147483646" ++ CRLF ++ "CD")%string, 30)] v1 in
  body (guppy w) = "AB"%string
  /\ firstSeq (guppy v1) = 0 /\ lastSeq (guppy v1) = INT_MAX
  /\ body (guppy v) = "ABCD"%string
  /\ state (guppy v) = finished_GuppyState.
Proof. vm_compute. repeat split; reflexivity. Qed.

